(** * Claw Plays Pokemon: a shallow embedding of the emulator wrapper,
      the RTMP streamer and the vote orchestrator, with their properties.

    Sources embedded here:
    - [python-old/emulator.py]  (class [Emulator])
    - [python-old/main.py]      (class [ClawPlaysPokemon])
    - [python/compositor.py]    (classes [RTMPStreamer], [StreamCompositor]
                                 and [LocalPreviewOutput])

    Conventions.  Python objects become records and every method becomes a
    function from the old object (and its arguments) to its return value and
    the new object.  Calls on the opaque PyBoy handle are recorded in a call
    log, the emulated memory is a function from addresses to bytes, what is
    drawn on a canvas is the list of drawing calls, the file system is a
    finite map from paths to byte contents, and whatever the outside world
    decides (I/O errors, the clock, the bytes PyBoy produces, the width of a
    rendered text) is an explicit argument.  [print] calls are dropped. *)

From Stdlib Require Import ZArith String Ascii List Bool Lia Sorted.
From Stdlib Require Import Floats.SpecFloat.
From stdpp Require Import gmap strings list fin_maps pretty sorting.

Open Scope Z_scope.

(* ===================================================================== *)
(** * Part I.  The model                                                   *)
(* ===================================================================== *)

(** ** Strings: [str.lower] and list membership *)

(** [str.lower] on the ASCII range: the letters A to Z move to a to z and
    every other byte stays.  Bytes above 127 (UTF-8 encoded text) are left
    alone, so such a string is never turned into one of the button names. *)
Definition lower_ascii (c : ascii) : ascii :=
  let n := N_of_ascii c in
  if ((65 <=? n) && (n <=? 90))%N then ascii_of_N (n + 32) else c.

Fixpoint lower (s : string) : string :=
  match s with
  | EmptyString => EmptyString
  | String c s' => String (lower_ascii c) (lower s')
  end.

(** [x in xs] for a list of strings. *)
Definition str_in (x : string) (xs : list string) : bool :=
  existsb (String.eqb x) xs.

(** ** Paths: [pathlib.PurePath.suffix] and [with_suffix] *)

Module Pathlib.

(** A resolved path is its list of components; the last one is the name. *)
Definition Path := list string.

Definition name (p : Path) : string := List.last p EmptyString.

Definition parent (p : Path) : Path := removelast p.

(** [s.rfind('.')], as the number of characters before the last dot. *)
Fixpoint rfind_dot (s : string) : option nat :=
  match s with
  | EmptyString => None
  | String c s' =>
      match rfind_dot s' with
      | Some i => Some (S i)
      | None => if Ascii.eqb c "."%char then Some O else None
      end
  end.

Fixpoint str_take (n : nat) (s : string) : string :=
  match n, s with
  | S n', String c s' => String c (str_take n' s')
  | _, _ => EmptyString
  end.

Fixpoint str_drop (n : nat) (s : string) : string :=
  match n, s with
  | S n', String _ s' => str_drop n' s'
  | _, _ => s
  end.

(** [suffix]: [name[i:]] when [0 < i < len(name) - 1], else the empty
    string. *)
Definition suffix (p : Path) : string :=
  let nm := name p in
  match rfind_dot nm with
  | Some i =>
      if (0 <? Z.of_nat i) && (Z.of_nat i <? Z.of_nat (String.length nm) - 1)
      then str_drop i nm else EmptyString
  | None => EmptyString
  end.

Definition has_sep (s : string) : bool :=
  existsb (Ascii.eqb "/"%char) (list_ascii_of_string s).

Definition starts_with_dot (s : string) : bool :=
  match s with
  | String c _ => Ascii.eqb c "."%char
  | EmptyString => false
  end.

(** [with_suffix]: [None] stands for the [ValueError] raised on an invalid
    suffix or on a path with an empty name. *)
Definition with_suffix (p : Path) (suf : string) : option Path :=
  if has_sep suf then None
  else if (negb (String.eqb suf EmptyString) && negb (starts_with_dot suf))
          || String.eqb suf "." then None
  else
    let nm := name p in
    if String.eqb nm EmptyString then None
    else
      let old_suffix := suffix p in
      let nm' :=
        if String.eqb old_suffix EmptyString then String.append nm suf
        else String.append
               (str_take (String.length nm - String.length old_suffix) nm) suf in
      Some (parent p ++ [nm']).

End Pathlib.

(** ** The file system and its faults *)

Module Fs.

(** Files are byte strings (each byte an integer 0..255) under a path. *)
Abbreviation Disk := (gmap (list string) (list Z)).

(** How writing a byte string to an open file ends: all of it reaches the
    file, or an error is raised after the first [k] bytes did. *)
Inductive write_outcome :=
| WriteOk
| WriteRaisesAfter (k : nat).

(** What the operating system decides during one staged save. *)
Record faults := {
  open_raises : bool;
  write_result : write_outcome;
  replace_raises : bool
}.

Definition no_faults : faults :=
  {| open_raises := false; write_result := WriteOk; replace_raises := false |}.

(** [open(path, "wb")]: the file is created, or truncated when it exists. *)
Definition open_wb (p : Pathlib.Path) (d : Disk) : Disk := <[p := []]> d.

(** Writing [data] into the freshly opened file at [p]; the boolean tells
    whether the write returned normally. *)
Definition write_all (p : Pathlib.Path) (data : list Z) (w : write_outcome)
    (d : Disk) : bool * Disk :=
  match w with
  | WriteOk => (true, <[p := data]> d)
  | WriteRaisesAfter k => (false, <[p := take k data]> d)
  end.

(** [src.replace(dst)] ([os.replace]): an atomic rename.  Renaming a file
    onto itself does nothing; a missing source raises ([None]). *)
Definition replace (src dst : Pathlib.Path) (d : Disk) : option Disk :=
  match d !! src with
  | None => None
  | Some content =>
      if decide (src = dst) then Some d
      else Some (<[dst := content]> (delete src d))
  end.

End Fs.

(** ** [python-old/emulator.py]: class [Emulator] *)

Module emulator.

(** Calls made on the PyBoy handle that act on the emulation. *)
Inductive PyBoyCall :=
| PyButton (b : string)          (* pyboy.button(b) *)
| PyButtonRelease (b : string)   (* pyboy.button_release(b) *)
| PyTick.                        (* pyboy.tick(sound=True) *)

Definition VALID_BUTTONS : list string :=
  ["up"; "down"; "left"; "right"; "a"; "b"; "start"; "select"]%string.

Definition BUTTON_HOLD_FRAMES : Z := 8.

(** Clock readings ([time.time()]) are integers, in milliseconds. *)
Definition Time := Z.

Record Emulator := {
  pyboy : list PyBoyCall;               (* oldest call first *)
  save_state_path : Pathlib.Path;
  screenshot_path : Pathlib.Path;
  _held_button : option string;
  _hold_frames_remaining : Z;
  _last_save_time : Time
}.

Definition set_pyboy (l : list PyBoyCall) (e : Emulator) : Emulator :=
  {| pyboy := l;
     save_state_path := save_state_path e;
     screenshot_path := screenshot_path e;
     _held_button := _held_button e;
     _hold_frames_remaining := _hold_frames_remaining e;
     _last_save_time := _last_save_time e |}.

Definition set_hold (b : option string) (n : Z) (e : Emulator) : Emulator :=
  {| pyboy := pyboy e;
     save_state_path := save_state_path e;
     screenshot_path := screenshot_path e;
     _held_button := b;
     _hold_frames_remaining := n;
     _last_save_time := _last_save_time e |}.

Definition set_last_save_time (t : Time) (e : Emulator) : Emulator :=
  {| pyboy := pyboy e;
     save_state_path := save_state_path e;
     screenshot_path := screenshot_path e;
     _held_button := _held_button e;
     _hold_frames_remaining := _hold_frames_remaining e;
     _last_save_time := t |}.

Definition _release_current_button (e : Emulator) : Emulator :=
  match _held_button e with
  | Some held =>
      set_hold None 0 (set_pyboy (pyboy e ++ [PyButtonRelease held]) e)
  | None => e
  end.

Definition press_button (button : string) (e : Emulator) : bool * Emulator :=
  let button := lower button in
  if negb (str_in button VALID_BUTTONS) then (false, e)
  else
    let e1 :=
      match _held_button e with
      | Some _ => _release_current_button e
      | None => e
      end in
    let e2 := set_pyboy (pyboy e1 ++ [PyButton button]) e1 in
    (true, set_hold (Some button) BUTTON_HOLD_FRAMES e2).

(** [tick]: the audio PyBoy generated during the frame is an argument. *)
Definition tick (audio_data : list Z) (e : Emulator) : list Z * Emulator :=
  let e1 := set_pyboy (pyboy e ++ [PyTick]) e in
  let e2 :=
    if 0 <? _hold_frames_remaining e1 then
      let e' := set_hold (_held_button e1) (_hold_frames_remaining e1 - 1) e1 in
      if _hold_frames_remaining e' =? 0 then _release_current_button e' else e'
    else e1 in
  (audio_data, e2).

(** A staged write: what [save_state] and [save_screenshot] both do once
    the temporary path is known: open it for writing, write the bytes,
    close, rename onto the destination.  [false] stands for an exception
    reaching the [except] clause, and the disk is returned as the exception
    left it.  (After a failed write the partial temporary file is kept
    here; whether the writer removes it does not touch the destination.) *)
Definition staged_write (temp dest : Pathlib.Path) (data : list Z)
    (f : Fs.faults) (d : Fs.Disk) : bool * Fs.Disk :=
  if Fs.open_raises f then (false, d)
  else
    let d1 := Fs.open_wb temp d in
    match Fs.write_all temp data (Fs.write_result f) d1 with
    | (false, d2) => (false, d2)
    | (true, d2) =>
        if Fs.replace_raises f then (false, d2)
        else
          match Fs.replace temp dest d2 with
          | Some d3 => (true, d3)
          | None => (false, d2)
          end
    end.

(** [save_state]: [data] is what [pyboy.save_state(f)] writes, [now] the
    clock reading taken after the rename. *)
Definition save_state (data : list Z) (f : Fs.faults) (now : Time)
    (e : Emulator) (d : Fs.Disk) : bool * Emulator * Fs.Disk :=
  match Pathlib.with_suffix (save_state_path e) ".tmp" with
  | None => (false, e, d)
  | Some temp_path =>
      match staged_write temp_path (save_state_path e) data f d with
      | (true, d') => (true, set_last_save_time now e, d')
      | (false, d') => (false, e, d')
      end
  end.

(** [save_screenshot]: [png] is the encoding [screen_image.save] writes. *)
Definition save_screenshot (png : list Z) (f : Fs.faults)
    (e : Emulator) (d : Fs.Disk) : bool * Fs.Disk :=
  match Pathlib.with_suffix (screenshot_path e) ".tmp.png" with
  | None => (false, d)
  | Some temp_path => staged_write temp_path (screenshot_path e) png f d
  end.

(** *** More of the wrapper: repeated ticks, the save timer, shutdown *)

(** [range(n)]: the integers from 0 below [n], none for [n <= 0]. *)
Definition range (n : Z) : list Z := map Z.of_nat (seq 0 (Z.to_nat n)).

(** [tick_multiple]: [audio i] is what PyBoy generates in the [i]-th of
    the frames; the loop drops it. *)
Definition tick_multiple (count : Z) (audio : Z -> list Z) (e : Emulator)
    : Emulator :=
  fold_left (fun e i => (tick (audio i) e).2) (range count) e.

(** [should_auto_save], with the clock reading as an argument. *)
Definition should_auto_save (now interval_seconds : Time) (e : Emulator)
    : bool :=
  interval_seconds <=? now - _last_save_time e.

(** [stop]: the final save, then the release of a held button.  The
    closing [pyboy.stop()] does not act on the emulation and is not
    logged. *)
Definition stop (data : list Z) (f : Fs.faults) (now : Time)
    (e : Emulator) (d : Fs.Disk) : Emulator * Fs.Disk :=
  let '(_, e1, d1) := save_state data f now e d in
  (_release_current_button e1, d1).

(** *** Game state reading

    [self.pyboy.memory] is seen as a function from addresses to bytes. *)
Definition Memory := Z -> Z.

Definition ADDR_PARTY_COUNT : Z := 0xD163.
Definition ADDR_PARTY_SPECIES : Z := 0xD164.
Definition ADDR_PARTY_DATA : Z := 0xD16B.
Definition ADDR_PARTY_NICKNAMES : Z := 0xD2B5.
Definition ADDR_BADGES : Z := 0xD356.
Definition ADDR_MONEY : Z := 0xD347.
Definition ADDR_PLAYER_NAME : Z := 0xD158.
Definition ADDR_MAP_ID : Z := 0xD35E.
Definition ADDR_PLAY_TIME_HOURS : Z := 0xDA41.
Definition ADDR_PLAY_TIME_MINUTES : Z := 0xDA43.
Definition ADDR_PLAY_TIME_SECONDS : Z := 0xDA44.

(** Species names by index; the source lists these and no more. *)
Definition POKEMON_NAMES : list (Z * string) :=
  [(0, "None"); (1, "Rhydon"); (2, "Kangaskhan"); (3, "Nidoran♂");
   (4, "Clefairy"); (5, "Spearow"); (6, "Voltorb"); (7, "Nidoking");
   (8, "Slowbro"); (9, "Ivysaur"); (10, "Exeggutor"); (21, "Mew");
   (33, "Bulbasaur"); (36, "Starmie"); (46, "Diglett"); (64, "Wartortle");
   (65, "Mewtwo"); (66, "Snorlax"); (70, "Squirtle"); (73, "Pikachu");
   (84, "Venusaur"); (85, "Tentacruel"); (88, "Goldeen"); (96, "Charizard");
   (99, "Poliwrath"); (100, "Blastoise"); (102, "Haunter");
   (115, "Charmander"); (118, "Hitmonlee"); (127, "Vaporeon");
   (128, "Jolteon"); (133, "Flareon"); (147, "Alakazam"); (150, "Gastly");
   (153, "Charmeleon"); (165, "Lapras"); (177, "Gengar"); (178, "Dragonite");
   (179, "Magikarp"); (180, "Gyarados")]%string.

(** Move names by index. *)
Definition MOVE_NAMES : list (Z * string) :=
  [(0, "—"); (1, "Pound"); (2, "Karate Chop"); (3, "Double Slap");
   (4, "Comet Punch"); (5, "Mega Punch"); (6, "Pay Day"); (7, "Fire Punch");
   (8, "Ice Punch"); (9, "Thunder Punch"); (10, "Scratch");
   (11, "Vice Grip"); (12, "Guillotine"); (13, "Razor Wind");
   (14, "Swords Dance"); (15, "Cut"); (16, "Gust"); (17, "Wing Attack");
   (18, "Whirlwind"); (19, "Fly"); (20, "Bind"); (21, "Slam");
   (22, "Vine Whip"); (23, "Stomp"); (24, "Double Kick"); (25, "Mega Kick");
   (26, "Jump Kick"); (27, "Rolling Kick"); (28, "Sand Attack");
   (29, "Headbutt"); (30, "Horn Attack"); (31, "Fury Attack");
   (32, "Horn Drill"); (33, "Tackle"); (34, "Body Slam"); (35, "Wrap");
   (36, "Take Down"); (37, "Thrash"); (38, "Double-Edge"); (39, "Tail Whip");
   (40, "Poison Sting"); (41, "Twineedle"); (42, "Pin Missile");
   (43, "Leer"); (44, "Bite"); (45, "Growl"); (46, "Roar"); (47, "Sing");
   (48, "Supersonic"); (49, "Sonic Boom"); (50, "Disable"); (51, "Acid");
   (52, "Ember"); (53, "Flamethrower"); (54, "Mist"); (55, "Water Gun");
   (56, "Hydro Pump"); (57, "Surf"); (58, "Ice Beam"); (59, "Blizzard");
   (60, "Psybeam"); (61, "Bubble Beam"); (62, "Aurora Beam");
   (63, "Hyper Beam"); (64, "Peck"); (65, "Drill Peck"); (66, "Submission");
   (67, "Low Kick"); (68, "Counter"); (69, "Seismic Toss"); (70, "Strength");
   (71, "Absorb"); (72, "Mega Drain"); (73, "Leech Seed"); (74, "Growth");
   (75, "Razor Leaf"); (76, "Solar Beam"); (77, "Poison Powder");
   (78, "Stun Spore"); (79, "Sleep Powder"); (80, "Petal Dance");
   (81, "String Shot"); (82, "Dragon Rage"); (83, "Fire Spin");
   (84, "Thunder Shock"); (85, "Thunderbolt"); (86, "Thunder Wave");
   (87, "Thunder"); (88, "Rock Throw"); (89, "Earthquake"); (90, "Fissure");
   (91, "Dig"); (92, "Toxic"); (93, "Confusion"); (94, "Psychic");
   (95, "Hypnosis"); (96, "Meditate"); (97, "Agility"); (98, "Quick Attack");
   (99, "Rage"); (100, "Teleport"); (101, "Night Shade"); (102, "Mimic");
   (103, "Screech"); (104, "Double Team"); (105, "Recover"); (106, "Harden");
   (107, "Minimize"); (108, "Smokescreen"); (109, "Confuse Ray");
   (110, "Withdraw"); (111, "Defense Curl"); (112, "Barrier");
   (113, "Light Screen"); (114, "Haze"); (115, "Reflect");
   (116, "Focus Energy"); (117, "Bide"); (118, "Metronome");
   (119, "Mirror Move"); (120, "Self-Destruct"); (121, "Egg Bomb");
   (122, "Lick"); (123, "Smog"); (124, "Sludge"); (125, "Bone Club");
   (126, "Fire Blast"); (127, "Waterfall"); (128, "Clamp"); (129, "Swift");
   (130, "Skull Bash"); (131, "Spike Cannon"); (132, "Constrict");
   (133, "Amnesia"); (134, "Kinesis"); (135, "Soft-Boiled");
   (136, "High Jump Kick"); (137, "Glare"); (138, "Dream Eater");
   (139, "Poison Gas"); (140, "Barrage"); (141, "Leech Life");
   (142, "Lovely Kiss"); (143, "Sky Attack"); (144, "Transform");
   (145, "Bubble"); (146, "Dizzy Punch"); (147, "Spore"); (148, "Flash");
   (149, "Psywave"); (150, "Splash"); (151, "Acid Armor");
   (152, "Crabhammer"); (153, "Explosion"); (154, "Fury Swipes");
   (155, "Bonemerang"); (156, "Rest"); (157, "Rock Slide");
   (158, "Hyper Fang"); (159, "Sharpen"); (160, "Conversion");
   (161, "Tri Attack"); (162, "Super Fang"); (163, "Slash");
   (164, "Substitute"); (165, "Struggle")]%string.

(** Map names by index. *)
Definition MAP_NAMES : list (Z * string) :=
  [(0, "Pallet Town"); (1, "Viridian City"); (2, "Pewter City");
   (3, "Cerulean City"); (4, "Lavender Town"); (5, "Vermilion City");
   (6, "Celadon City"); (7, "Fuchsia City"); (8, "Cinnabar Island");
   (9, "Indigo Plateau"); (10, "Saffron City"); (11, "Unknown");
   (12, "Route 1"); (13, "Route 2"); (14, "Route 3"); (15, "Route 4");
   (16, "Route 5"); (17, "Route 6"); (18, "Route 7"); (19, "Route 8");
   (20, "Route 9"); (21, "Route 10"); (22, "Route 11"); (23, "Route 12");
   (24, "Route 13"); (25, "Route 14"); (26, "Route 15"); (27, "Route 16");
   (28, "Route 17"); (29, "Route 18"); (30, "Route 19"); (31, "Route 20");
   (32, "Route 21"); (33, "Route 22"); (34, "Route 23"); (35, "Route 24");
   (36, "Route 25"); (37, "Player's House 1F"); (38, "Player's House 2F");
   (39, "Rival's House"); (40, "Oak's Lab"); (51, "Viridian Gym");
   (54, "Pewter Gym"); (65, "Cerulean Gym"); (92, "Vermilion Gym");
   (134, "Celadon Gym"); (157, "Fuchsia Gym"); (166, "Cinnabar Gym");
   (178, "Saffron Gym"); (198, "Pokemon League"); (82, "Mt. Moon 1F");
   (83, "Mt. Moon B1F"); (84, "Mt. Moon B2F"); (108, "Rock Tunnel 1F");
   (109, "Rock Tunnel B1F"); (142, "Pokemon Tower 1F");
   (143, "Pokemon Tower 2F"); (144, "Pokemon Tower 3F");
   (145, "Pokemon Tower 4F"); (146, "Pokemon Tower 5F");
   (147, "Pokemon Tower 6F"); (148, "Pokemon Tower 7F");
   (181, "Silph Co. 1F"); (207, "Victory Road 1F"); (208, "Victory Road 2F");
   (209, "Victory Road 3F")]%string.

Definition BADGE_NAMES : list string :=
  ["Boulder"; "Cascade"; "Thunder"; "Rainbow"; "Soul"; "Marsh"; "Volcano"; "Earth"]%string.

(** [table.get(key, default)] on one of the tables above. *)
Fixpoint table_get (table : list (Z * string)) (key : Z) (default : string)
    : string :=
  match table with
  | [] => default
  | (k, v) :: rest => if k =? key then v else table_get rest key default
  end.

Definition _read_byte (mem : Memory) (addr : Z) : Z := mem addr.

Definition _read_word (mem : Memory) (addr : Z) : Z :=
  Z.lor (mem addr) (Z.shiftl (mem (addr + 1)) 8).

Definition _read_word_be (mem : Memory) (addr : Z) : Z :=
  Z.lor (Z.shiftl (mem addr) 8) (mem (addr + 1)).

(** A decoded text is a Python string, kept as its code points. *)
Definition Text := list Z.

(** The branches of [_decode_text] for a byte that is not the
    terminator. *)
Definition decode_char (byte : Z) : Z :=
  if (0x80 <=? byte) && (byte <=? 0x99) then 65 + (byte - 0x80)
  else if (0xA0 <=? byte) && (byte <=? 0xB9) then 97 + (byte - 0xA0)
  else if (0xF6 <=? byte) && (byte <=? 0xFF) then 48 + (byte - 0xF6)
  else if byte =? 0x7F then 32
  else if byte =? 0xE8 then 0x2642
  else if byte =? 0xEF then 0x2640
  else 63.

(** The loop of [_decode_text] over the indices still to visit; [break]
    ends it. *)
Fixpoint decode_text_loop (mem : Memory) (addr : Z) (indices : list Z)
    : Text :=
  match indices with
  | [] => []
  | i :: rest =>
      let byte := mem (addr + i) in
      if byte =? 0x50 then []
      else decode_char byte :: decode_text_loop mem addr rest
  end.

Definition _decode_text (mem : Memory) (addr length : Z) : Text :=
  decode_text_loop mem addr (range length).

Definition _decode_bcd (mem : Memory) (addr num_bytes : Z) : Z :=
  fold_left
    (fun result i =>
       let byte := mem (addr + i) in
       result * 100 + Z.shiftr byte 4 * 10 + Z.land byte 0x0F)
    (range num_bytes) 0.

(** [bin(n).count('1')]: the ones among the binary digits of [n]. *)
Fixpoint popcount_pos (p : positive) : Z :=
  match p with
  | xH => 1
  | xO q => popcount_pos q
  | xI q => 1 + popcount_pos q
  end.

Definition popcount (n : Z) : Z :=
  match n with
  | Z0 => 0
  | Zpos p | Zneg p => popcount_pos p
  end.

(** The dictionary [get_badges] returns; its inner dictionary keeps the
    order of [BADGE_NAMES]. *)
Record Badges := {
  count : Z;
  badges : list (string * bool)
}.

Definition get_badges (mem : Memory) : Badges :=
  let badge_byte := _read_byte mem ADDR_BADGES in
  {| count := popcount badge_byte;
     badges :=
       imap (fun i name =>
               (lower name,
                negb (Z.land badge_byte (Z.shiftl 1 (Z.of_nat i)) =? 0)))
         BADGE_NAMES |}.

Definition _get_status_name (status_byte : Z) : string :=
  if status_byte =? 0 then "OK"
  else if negb (Z.land status_byte 0x08 =? 0) then "Poisoned"
  else if negb (Z.land status_byte 0x10 =? 0) then "Burned"
  else if negb (Z.land status_byte 0x20 =? 0) then "Frozen"
  else if negb (Z.land status_byte 0x40 =? 0) then "Paralyzed"
  else if negb (Z.land status_byte 0x07 =? 0) then "Asleep"
  else "OK".

Record Move := {
  move_name : string;       (* "name" *)
  pp : Z
}.

Record Pokemon := {
  slot : Z;
  species : string;
  species_id : Z;
  nickname : Text;
  level : Z;
  hp : Z;
  max_hp : Z;
  status : string;
  moves : list Move
}.

(** The inner loop of [get_party] over the four move slots. *)
Definition party_moves (mem : Memory) (base : Z) : list Move :=
  flat_map
    (fun m =>
       let move_id := _read_byte mem (base + 0x08 + m) in
       let pp := _read_byte mem (base + 0x1D + m) in
       let pp_current := Z.land pp 0x3F in
       if 0 <? move_id then
         [{| move_name :=
               table_get MOVE_NAMES move_id
                 (String.append "Move " (pretty move_id));
             pp := pp_current |}]
       else [])
    (range 4).

Definition get_party (mem : Memory) : list Pokemon :=
  let party_count := _read_byte mem ADDR_PARTY_COUNT in
  flat_map
    (fun i =>
       let species_id := _read_byte mem (ADDR_PARTY_SPECIES + i) in
       if (species_id =? 0) || (species_id =? 0xFF) then []
       else
         let base := ADDR_PARTY_DATA + i * 44 in
         [{| slot := i + 1;
             species :=
               table_get POKEMON_NAMES species_id
                 (String.append "Pokemon " (pretty species_id));
             species_id := species_id;
             nickname := _decode_text mem (ADDR_PARTY_NICKNAMES + i * 11) 11;
             level := _read_byte mem (base + 0x21);
             hp := _read_word_be mem (base + 0x01);
             max_hp := _read_word_be mem (base + 0x22);
             status := _get_status_name (_read_byte mem (base + 0x04));
             moves := party_moves mem base |}])
    (range (Z.min party_count 6)).

Record Location := {
  map_id : Z;
  location_name : string    (* "name" *)
}.

Definition get_location (mem : Memory) : Location :=
  let map_id := _read_byte mem ADDR_MAP_ID in
  {| map_id := map_id;
     location_name :=
       table_get MAP_NAMES map_id
         (String.append "Unknown (" (String.append (pretty map_id) ")")) |}.

Definition get_money (mem : Memory) : Z := _decode_bcd mem ADDR_MONEY 3.

Record PlayTime := {
  hours : Z;
  minutes : Z;
  seconds : Z
}.

Definition get_play_time (mem : Memory) : PlayTime :=
  {| hours := _read_byte mem ADDR_PLAY_TIME_HOURS;
     minutes := _read_byte mem ADDR_PLAY_TIME_MINUTES;
     seconds := _read_byte mem ADDR_PLAY_TIME_SECONDS |}.

Definition get_player_name (mem : Memory) : Text :=
  _decode_text mem ADDR_PLAYER_NAME 11.

(** The dictionary [get_game_state] returns; [now] is the clock reading,
    already in milliseconds. *)
Record GameState := {
  state_player : Text;            (* "player" *)
  state_badges : Badges;          (* "badges" *)
  state_party : list Pokemon;     (* "party" *)
  state_location : Location;      (* "location" *)
  state_money : Z;                (* "money" *)
  state_play_time : PlayTime;     (* "play_time" *)
  state_timestamp : Time          (* "timestamp" *)
}.

Definition get_game_state (mem : Memory) (now : Time) : GameState :=
  {| state_player := get_player_name mem;
     state_badges := get_badges mem;
     state_party := get_party mem;
     state_location := get_location mem;
     state_money := get_money mem;
     state_play_time := get_play_time mem;
     state_timestamp := now |}.

End emulator.

(** ** Single-precision floats, as far as [send_audio] uses them *)

Module Float32.

(** IEEE 754 binary32 in the Standard Library's specification of floats:
    24 bits of precision, exponents up to 128. *)
Definition prec : Z := 24.
Definition emax : Z := 128.

Definition float32 := spec_float.

(** [astype('float32')] on an integer sample. *)
Definition of_int (z : Z) : float32 := binary_normalize prec emax z 0 false.

(** The elementwise product of two float32 values, rounded to nearest
    even. *)
Definition mul (x y : float32) : float32 := SFmul prec emax x y.

(** The mantissa of a finite float with its sign. *)
Definition signed (s : bool) (m : positive) : Z :=
  if s then Z.neg m else Z.pos m.

(** Comparison of the value of a float with an integer; [None] for NaN. *)
Definition compare_int (x : float32) (z : Z) : option comparison :=
  match x with
  | S754_nan => None
  | S754_zero _ => Some (0 ?= z)
  | S754_infinity s => Some (if s then Lt else Gt)
  | S754_finite s m e =>
      if 0 <=? e then Some (signed s m * 2 ^ e ?= z)
      else Some (signed s m ?= z * 2 ^ (- e))
  end.

(** [x.clip(lo, hi)] with integer bounds: [minimum(maximum(x, lo), hi)];
    NaN stays NaN. *)
Definition clip (lo hi : Z) (x : float32) : float32 :=
  match compare_int x lo with
  | None => x
  | Some Lt => of_int lo
  | Some _ =>
      match compare_int x hi with
      | Some Gt => of_int hi
      | _ => x
      end
  end.

(** The integer part of a float, rounding toward zero, when it has one. *)
Definition trunc (x : float32) : option Z :=
  match x with
  | S754_zero _ => Some 0
  | S754_finite s m e =>
      if 0 <=? e then Some (signed s m * 2 ^ e)
      else Some (Z.quot (signed s m) (2 ^ (- e)))
  | _ => None
  end.

(** Two's-complement wrap-around into 16 bits. *)
Definition wrap16 (z : Z) : Z := (z + 32768) mod 65536 - 32768.

(** [astype(np.int16)]: C's conversion, truncating toward zero.  C leaves
    the result open when the value has no integer part (NaN, infinities)
    or does not fit; the common targets then give 0, respectively the low
    16 bits. *)
Definition astype_int16 (x : float32) : Z :=
  match trunc x with
  | Some z => wrap16 z
  | None => 0
  end.

End Float32.

(** ** [python/compositor.py]: class [RTMPStreamer] *)

Module compositor.

Record VoteTally := {
  button : string;
  count : Z;
  percentage : Z;
  voters : list string
}.

Record StreamState := {
  game_frame : list Z;
  time_remaining : Z;
  tallies : list VoteTally;
  recent_voters : list (string * string);
  last_winner : option string;
  last_winner_votes : Z
}.

Definition AUDIO_SAMPLE_RATE : Z := 48000.
Definition AUDIO_CHANNELS : Z := 2.

(** [queue.Queue(maxsize=5)]. *)
Definition FRAME_QUEUE_MAXSIZE : nat := 5.

(** The writer loop's [samples_per_chunk] and [send_audio]'s
    [max_samples]. *)
Definition samples_per_chunk : nat :=
  Z.to_nat (AUDIO_SAMPLE_RATE * AUDIO_CHANNELS / 30).

Definition max_samples : nat :=
  Z.to_nat (AUDIO_SAMPLE_RATE * AUDIO_CHANNELS / 2).

Record RTMPStreamer := {
  running : bool;
  _frame_queue : list (list Z);     (* frames as bytes, oldest first *)
  _audio_buffer : list Z            (* int16 samples, oldest first *)
}.

Definition set_running (b : bool) (s : RTMPStreamer) : RTMPStreamer :=
  {| running := b;
     _frame_queue := _frame_queue s;
     _audio_buffer := _audio_buffer s |}.

Definition set_frame_queue (q : list (list Z)) (s : RTMPStreamer)
    : RTMPStreamer :=
  {| running := running s;
     _frame_queue := q;
     _audio_buffer := _audio_buffer s |}.

Definition set_audio_buffer (b : list Z) (s : RTMPStreamer) : RTMPStreamer :=
  {| running := running s;
     _frame_queue := _frame_queue s;
     _audio_buffer := b |}.

(** [Queue.put_nowait]: [None] stands for [queue.Full]. *)
Definition put_nowait (maxsize : nat) (item : list Z) (q : list (list Z))
    : option (list (list Z)) :=
  if (maxsize <=? length q)%nat then None else Some (q ++ [item]).

(** [send_frame].  The compositor is opaque: [render_frame state] is the
    frame as bytes ([render_frame(state).tobytes()]), or [None] when
    rendering raises. *)
Definition send_frame (render_frame : StreamState -> option (list Z))
    (state : StreamState) (s : RTMPStreamer) : bool * RTMPStreamer :=
  if negb (running s) then (false, s)
  else
    match render_frame state with
    | None => (false, s)
    | Some frame =>
        match put_nowait FRAME_QUEUE_MAXSIZE frame (_frame_queue s) with
        | Some q => (true, set_frame_queue q s)
        | None => (false, s)
        end
    end.

(** What [send_audio] receives, by what the method does with it:
    - a numpy array of integers, seen flattened: it has [tobytes], and
      [astype], [clip] and [flatten] work on it;
    - an object without [tobytes] that [bytes(audio_data)] turns into a
      byte string (a [bytes], a [bytearray]), as these bytes;
    - an object the conversion raises on: one that has [tobytes] but no
      [astype] (an [array.array], a [memoryview]), where the array branch
      raises [AttributeError], or one without [tobytes] that [bytes]
      rejects. *)
Inductive AudioData :=
| NdArray (samples : list Z)
| RawBytes (bytes : list Z)
| Unconvertible.

(** The gain stage of the array branch, for one sample: the sample as a
    float32, times the gain (the float32 nearest to the Python float),
    clipped, converted back. *)
Definition boost (volume_boost : Float32.float32) (sample : Z) : Z :=
  Float32.astype_int16
    (Float32.clip (-32768) 32767
       (Float32.mul (Float32.of_int sample) volume_boost)).

(** [np.frombuffer(bytes, dtype=np.int16)] on a little-endian machine;
    [None] stands for the [ValueError] on an odd number of bytes. *)
Fixpoint frombuffer_int16 (bytes : list Z) : option (list Z) :=
  match bytes with
  | [] => Some []
  | lo :: hi :: rest =>
      match frombuffer_int16 rest with
      | Some l => Some (Float32.wrap16 (lo + 256 * hi) :: l)
      | None => None
      end
  | [_] => None
  end.

(** [a[-n:]] on a sequence: the last [n] elements for [0 < n], and the
    whole sequence for [n = 0]. *)
Definition last_n {A} (n : nat) (l : list A) : list A :=
  match n with
  | O => l
  | _ => drop (length l - n) l
  end.

(** The lock-protected part of [send_audio], for any bound. *)
Definition append_samples (bound : nat) (samples buf : list Z) : list Z :=
  let buf' := buf ++ samples in
  if (bound <? length buf')%nat then last_n bound buf' else buf'.

Definition send_audio (audio_data : AudioData)
    (volume_boost : Float32.float32) (s : RTMPStreamer)
    : bool * RTMPStreamer :=
  if negb (running s) then (false, s)
  else
    let converted :=
      match audio_data with
      | NdArray samples => Some (map (boost volume_boost) samples)
      | RawBytes bytes => frombuffer_int16 bytes
      | Unconvertible => None
      end in
    match converted with
    | None => (false, s)                 (* except Exception: return False *)
    | Some samples =>
        (true,
         set_audio_buffer (append_samples max_samples samples (_audio_buffer s)) s)
    end.

(** The extraction under the lock in [_audio_writer_loop], for any chunk
    size: the chunk and the buffer left behind. *)
Definition pop_chunk (n : nat) (buf : list Z) : list Z * list Z :=
  if (n <=? length buf)%nat then (take n buf, drop n buf)
  else if (0 <? length buf)%nat then (buf ++ replicate (n - length buf) 0, [])
  else (replicate n 0, buf).

(** *** The writer threads, one step at a time

    [_video_writer_loop] and [_audio_writer_loop] run on threads of their
    own, next to the thread that calls [send_frame], [send_audio] and
    [stop].  Each thread is a program counter; a step names the thread that
    moves and what the outside world decided for it. *)

Inductive video_pc :=
| VOpen                      (* in open(self.video_pipe_path, 'wb') *)
| VTest                      (* at [while self.running] *)
| VGet                       (* in self._frame_queue.get(timeout=0.1) *)
| VWrite (frame : list Z)    (* before f.write(frame_bytes); f.flush() *)
| VExit.                     (* the thread has returned *)

Inductive audio_pc :=
| AOpen                      (* in open(self.audio_pipe_path, 'wb') *)
| ATest                      (* at [while self.running] *)
| AClock                     (* before [if elapsed >= chunk_interval] *)
| APop                       (* before [with self._audio_lock] *)
| AWrite (chunk : list Z)    (* before f.write(chunk.tobytes()); f.flush() *)
| ASleep                     (* in time.sleep(0.001) *)
| AExit.                     (* the thread has returned *)

Record Session := {
  streamer : RTMPStreamer;
  video : video_pc;
  audio : audio_pc;
  video_pipe : list (list Z);    (* what was written, oldest first *)
  audio_pipe : list (list Z)
}.

Definition set_streamer (s : RTMPStreamer) (x : Session) : Session :=
  {| streamer := s; video := video x; audio := audio x;
     video_pipe := video_pipe x; audio_pipe := audio_pipe x |}.

Definition set_video (pc : video_pc) (x : Session) : Session :=
  {| streamer := streamer x; video := pc; audio := audio x;
     video_pipe := video_pipe x; audio_pipe := audio_pipe x |}.

Definition set_audio (pc : audio_pc) (x : Session) : Session :=
  {| streamer := streamer x; video := video x; audio := pc;
     video_pipe := video_pipe x; audio_pipe := audio_pipe x |}.

Definition write_video (frame : list Z) (x : Session) : Session :=
  {| streamer := streamer x; video := video x; audio := audio x;
     video_pipe := video_pipe x ++ [frame]; audio_pipe := audio_pipe x |}.

Definition write_audio (chunk : list Z) (x : Session) : Session :=
  {| streamer := streamer x; video := video x; audio := audio x;
     video_pipe := video_pipe x; audio_pipe := audio_pipe x ++ [chunk] |}.

Inductive label :=
(* the video writer *)
| VOpened                    (* the reader connected, the pipe is open *)
| VOpenRaises                (* open raised: the outer [except] runs *)
| VLoopTest                  (* evaluate [while self.running] *)
| VGot                       (* get returned a frame or raised queue.Empty *)
| VWriteOk                   (* write and flush returned *)
| VBrokenPipe                (* write or flush raised BrokenPipeError *)
| VOtherError                (* they raised something else: outer [except] *)
(* the audio writer *)
| AOpened
| AOpenRaises
| ALoopTest
| AElapsed (due : bool)      (* the outcome of [elapsed >= chunk_interval] *)
| ALocked                    (* the block under the lock *)
| AWriteOk
| ABrokenPipe
| AOtherError
| ASlept
(* the calling thread *)
| MSendFrame (render_frame : StreamState -> option (list Z)) (state : StreamState)
| MSendAudio (audio_data : AudioData) (volume_boost : Float32.float32)
| MStop.                     (* stop(): self.running = False *)

Definition stop_flag (x : Session) : Session :=
  set_streamer (set_running false (streamer x)) x.

(** One step; [None] when the thread named by the label is not at the
    matching place. *)
Definition step (l : label) (x : Session) : option Session :=
  match l, video x, audio x with
  | VOpened, VOpen, _ => Some (set_video VTest x)
  | VOpenRaises, VOpen, _ => Some (set_video VExit (stop_flag x))
  | VLoopTest, VTest, _ =>
      Some (set_video (if running (streamer x) then VGet else VExit) x)
  | VGot, VGet, _ =>
      match _frame_queue (streamer x) with
      | frame :: q =>
          Some (set_video (VWrite frame)
                  (set_streamer (set_frame_queue q (streamer x)) x))
      | [] => Some (set_video VTest x)
      end
  | VWriteOk, VWrite frame, _ => Some (set_video VTest (write_video frame x))
  | VBrokenPipe, VWrite _, _ => Some (set_video VExit (stop_flag x))
  | VOtherError, VWrite _, _ => Some (set_video VExit (stop_flag x))
  | AOpened, _, AOpen => Some (set_audio ATest x)
  | AOpenRaises, _, AOpen => Some (set_audio AExit (stop_flag x))
  | ALoopTest, _, ATest =>
      Some (set_audio (if running (streamer x) then AClock else AExit) x)
  | AElapsed due, _, AClock => Some (set_audio (if due then APop else ASleep) x)
  | ALocked, _, APop =>
      let '(chunk, buf) := pop_chunk samples_per_chunk (_audio_buffer (streamer x)) in
      Some (set_audio (AWrite chunk)
              (set_streamer (set_audio_buffer buf (streamer x)) x))
  | AWriteOk, _, AWrite chunk => Some (set_audio ATest (write_audio chunk x))
  | ABrokenPipe, _, AWrite _ => Some (set_audio AExit (stop_flag x))
  | AOtherError, _, AWrite _ => Some (set_audio AExit (stop_flag x))
  | ASlept, _, ASleep => Some (set_audio ATest x)
  | MSendFrame render_frame state, _, _ =>
      Some (set_streamer (snd (send_frame render_frame state (streamer x))) x)
  | MSendAudio audio_data volume_boost, _, _ =>
      Some (set_streamer (snd (send_audio audio_data volume_boost (streamer x))) x)
  | MStop, _, _ => Some (stop_flag x)
  | _, _, _ => None
  end.

(** A schedule is a list of labels, run from left to right. *)
Fixpoint exec (ls : list label) (x : Session) : option Session :=
  match ls with
  | [] => Some x
  | l :: ls' =>
      match step l x with
      | Some x' => exec ls' x'
      | None => None
      end
  end.

(** The session as [start] leaves it: the flag set, both threads about to
    open their pipe, nothing queued or written. *)
Definition started : Session :=
  {| streamer := {| running := true; _frame_queue := []; _audio_buffer := [] |};
     video := VOpen; audio := AOpen; video_pipe := []; audio_pipe := [] |}.

End compositor.

(** ** [python-old/main.py]: class [ClawPlaysPokemon] *)

Module main.

(** What [d.get(key, default)] finds under a key of a JSON object: no
    such key, the key with null, or the key with a value.  The default
    stands in for a missing key only; a null comes back as [None]. *)
Inductive Json (A : Type) :=
| Missing
| Null
| Value (a : A).

Arguments Missing {A}.
Arguments Null {A}.
Arguments Value {A} a.

(** [d.get(key, default)]; the result [None] is Python's [None]. *)
Definition get_default {A} (field : Json A) (default : A) : option A :=
  match field with
  | Missing => Some default
  | Null => None
  | Value a => Some a
  end.

(** The parts of a [/status] response that [update_state_from_api] reads.
    Where the code makes no difference between a missing key and null,
    the field is an option: [windowId] and [winner], read with a plain
    [.get], and [previousResult], which missing, null and the empty
    object all fail at [if prev:].  The other fields keep the three cases
    apart.  A tally is taken to have its three required keys. *)
Record PreviousResult := {
  windowId : option Z;
  winner : option string;
  totalVotes : Json Z
}.

Record CurrentWindow := {
  allTallies : Json (list compositor.VoteTally);
  timeRemainingSeconds : Json Z
}.

Record Status := {
  currentWindow : Json CurrentWindow;
  previousResult : option PreviousResult
}.

Definition SCREENSHOT_UPDATE_INTERVAL : emulator.Time := 100.
Definition SAVE_STATE_INTERVAL : emulator.Time := 300000.
Definition AUDIO_VOLUME_BOOST : Float32.float32 := Float32.of_int 5.

(** The countdown [update_state_from_api] arms after a press. *)
Definition POST_MOVE_FRAMES : Z := 20.

Record ClawPlaysPokemon := {
  running : bool;
  emu : emulator.Emulator;                       (* self.emulator *)
  rtmp_streamer : option compositor.RTMPStreamer;
  last_window_id : option Z;
  last_winner : option string;
  last_winner_votes : option Z;                  (* [None]: Python's None *)
  current_tallies : list compositor.VoteTally;
  recent_voters : list (string * string);
  time_remaining : option Z;                     (* [None]: Python's None *)
  _post_move_screenshot_frames : Z
}.

Definition set_tallies (l : list compositor.VoteTally) (c : ClawPlaysPokemon)
    : ClawPlaysPokemon :=
  {| running := running c; emu := emu c; rtmp_streamer := rtmp_streamer c;
     last_window_id := last_window_id c; last_winner := last_winner c;
     last_winner_votes := last_winner_votes c; current_tallies := l;
     recent_voters := recent_voters c; time_remaining := time_remaining c;
     _post_move_screenshot_frames := _post_move_screenshot_frames c |}.

Definition set_time_remaining (t : option Z) (c : ClawPlaysPokemon)
    : ClawPlaysPokemon :=
  {| running := running c; emu := emu c; rtmp_streamer := rtmp_streamer c;
     last_window_id := last_window_id c; last_winner := last_winner c;
     last_winner_votes := last_winner_votes c;
     current_tallies := current_tallies c;
     recent_voters := recent_voters c; time_remaining := t;
     _post_move_screenshot_frames := _post_move_screenshot_frames c |}.

Definition set_last_window_id (w : option Z) (c : ClawPlaysPokemon)
    : ClawPlaysPokemon :=
  {| running := running c; emu := emu c; rtmp_streamer := rtmp_streamer c;
     last_window_id := w; last_winner := last_winner c;
     last_winner_votes := last_winner_votes c;
     current_tallies := current_tallies c;
     recent_voters := recent_voters c; time_remaining := time_remaining c;
     _post_move_screenshot_frames := _post_move_screenshot_frames c |}.

Definition set_last_winner (w : option string) (votes : option Z)
    (c : ClawPlaysPokemon) : ClawPlaysPokemon :=
  {| running := running c; emu := emu c; rtmp_streamer := rtmp_streamer c;
     last_window_id := last_window_id c; last_winner := w;
     last_winner_votes := votes;
     current_tallies := current_tallies c;
     recent_voters := recent_voters c; time_remaining := time_remaining c;
     _post_move_screenshot_frames := _post_move_screenshot_frames c |}.

Definition set_emu (e : emulator.Emulator) (c : ClawPlaysPokemon)
    : ClawPlaysPokemon :=
  {| running := running c; emu := e; rtmp_streamer := rtmp_streamer c;
     last_window_id := last_window_id c; last_winner := last_winner c;
     last_winner_votes := last_winner_votes c;
     current_tallies := current_tallies c;
     recent_voters := recent_voters c; time_remaining := time_remaining c;
     _post_move_screenshot_frames := _post_move_screenshot_frames c |}.

Definition set_rtmp_streamer (s : option compositor.RTMPStreamer)
    (c : ClawPlaysPokemon) : ClawPlaysPokemon :=
  {| running := running c; emu := emu c; rtmp_streamer := s;
     last_window_id := last_window_id c; last_winner := last_winner c;
     last_winner_votes := last_winner_votes c;
     current_tallies := current_tallies c;
     recent_voters := recent_voters c; time_remaining := time_remaining c;
     _post_move_screenshot_frames := _post_move_screenshot_frames c |}.

Definition set_recent_voters (l : list (string * string))
    (c : ClawPlaysPokemon) : ClawPlaysPokemon :=
  {| running := running c; emu := emu c; rtmp_streamer := rtmp_streamer c;
     last_window_id := last_window_id c; last_winner := last_winner c;
     last_winner_votes := last_winner_votes c;
     current_tallies := current_tallies c;
     recent_voters := l; time_remaining := time_remaining c;
     _post_move_screenshot_frames := _post_move_screenshot_frames c |}.

Definition set_post_move (n : Z) (c : ClawPlaysPokemon) : ClawPlaysPokemon :=
  {| running := running c; emu := emu c; rtmp_streamer := rtmp_streamer c;
     last_window_id := last_window_id c; last_winner := last_winner c;
     last_winner_votes := last_winner_votes c;
     current_tallies := current_tallies c;
     recent_voters := recent_voters c; time_remaining := time_remaining c;
     _post_move_screenshot_frames := n |}.

(** What the orchestrator does to the outside, in order. *)
Inductive CaptureReason := Periodic | PostMove.

Inductive Event :=
| Injected (window_id : option Z) (winner : string) (accepted : bool)
    (* press_button(winner) was called for this previous-result record *)
| Captured (why : CaptureReason) (ok : bool)     (* save_screenshot() *)
| AutoSaved (ok : bool).                          (* save_state() *)

(** [if winner:] on an optional string: missing, null and the empty string
    all count as no winner. *)
Definition truthy (w : option string) : option string :=
  match w with
  | Some s => if String.eqb s EmptyString then None else Some s
  | None => None
  end.

(** [update_state_from_api]; [None] stands for an exception.  The method
    raises on a null [currentWindow] ([current.get] on [None]) and on a
    null [allTallies] (the comprehension iterates [None]), both before it
    has assigned anything. *)
Definition update_state_from_api (status : Status) (c : ClawPlaysPokemon)
    : option (ClawPlaysPokemon * list Event) :=
  match get_default (currentWindow status)
          {| allTallies := Missing; timeRemainingSeconds := Missing |} with
  | None => None
  | Some current =>
      match get_default (allTallies current) [] with
      | None => None
      | Some tallies =>
          let c := set_tallies tallies c in
          let c :=
            set_time_remaining
              (get_default (timeRemainingSeconds current) 10) c in
          match previousResult status with
          | Some prev =>
              let window_id := windowId prev in
              if negb (bool_decide (window_id = last_window_id c)) then
                let c := set_last_window_id window_id c in
                match truthy (winner prev) with
                | Some w =>
                    let c :=
                      set_last_winner (Some w)
                        (get_default (totalVotes prev) 0) c in
                    let '(accepted, e) := emulator.press_button w (emu c) in
                    let c := set_emu e c in
                    Some (set_post_move POST_MOVE_FRAMES c,
                          [Injected window_id w accepted])
                | None => Some (c, [])
                end
              else Some (c, [])
          | None => Some (c, [])
          end
      end
  end.

(** *** The loops

    The coroutines of [run] share one event loop, so between two awaits a
    loop body runs undisturbed: a run of the orchestrator is a sequence of
    whole iterations of [emulator_loop] and of [vote_poll_loop]. *)

(** The local variables of [emulator_loop]. *)
Record LoopLocals := {
  last_screenshot_time : emulator.Time;
  last_auto_save_time : emulator.Time
}.

(** What one iteration of [emulator_loop] takes from the outside. *)
Record TickEnv := {
  loop_start : emulator.Time;      (* time.time() at the top of the body *)
  audio_samples : list Z;          (* the audio PyBoy made this frame *)
  screen_png : list Z;             (* the screen, PNG encoded *)
  periodic_faults : Fs.faults;
  post_move_faults : Fs.faults;
  state_bytes : list Z;            (* what pyboy.save_state writes *)
  autosave_faults : Fs.faults;
  autosave_now : emulator.Time
}.

Record World := {
  app : ClawPlaysPokemon;
  locals : LoopLocals;
  disk : Fs.Disk
}.

(** One pass through the body of [while self.running] in
    [emulator_loop]. *)
Definition emulator_loop_body (env : TickEnv) (w : World)
    : World * list Event :=
  let c := app w in
  (* audio_samples = self.emulator.tick() *)
  let '(audio, e) := emulator.tick (audio_samples env) (emu c) in
  let c := set_emu e c in
  (* if self.rtmp_streamer and self.rtmp_streamer.running: send_audio *)
  let c :=
    match rtmp_streamer c with
    | Some s =>
        if compositor.running s then
          set_rtmp_streamer
            (Some (snd (compositor.send_audio (compositor.NdArray audio)
                          AUDIO_VOLUME_BOOST s))) c
        else c
    | None => c
    end in
  (* the periodic screenshot *)
  let '(last_shot, d, ev1) :=
    if SCREENSHOT_UPDATE_INTERVAL <=? loop_start env - last_screenshot_time (locals w)
    then
      let '(ok, d) :=
        emulator.save_screenshot (screen_png env) (periodic_faults env)
          (emu c) (disk w) in
      (loop_start env, d, [Captured Periodic ok])
    else (last_screenshot_time (locals w), disk w, []) in
  (* the screenshot after a move *)
  let '(c, last_shot, d, ev2) :=
    if 0 <? _post_move_screenshot_frames c then
      let c := set_post_move (_post_move_screenshot_frames c - 1) c in
      if _post_move_screenshot_frames c =? 0 then
        let '(ok, d) :=
          emulator.save_screenshot (screen_png env) (post_move_faults env)
            (emu c) d in
        (c, loop_start env, d, [Captured PostMove ok])
      else (c, last_shot, d, [])
    else (c, last_shot, d, []) in
  (* the periodic save *)
  let '(c, last_save, d, ev3) :=
    if SAVE_STATE_INTERVAL <=? loop_start env - last_auto_save_time (locals w)
    then
      let '(ok, e, d) :=
        emulator.save_state (state_bytes env) (autosave_faults env)
          (autosave_now env) (emu c) d in
      (set_emu e c, loop_start env, d, [AutoSaved ok])
    else (c, last_auto_save_time (locals w), d, []) in
  ({| app := c;
      locals := {| last_screenshot_time := last_shot;
                   last_auto_save_time := last_save |};
      disk := d |},
   ev1 ++ ev2 ++ ev3).

(** One pass through the body of [vote_poll_loop]: [status] is what
    [fetch_status] returned ([None] for a failed request or an empty
    response), [voters] what [fetch_voters] returned.  An exception of
    [update_state_from_api] leaves the loop before the voters are
    fetched, with the world as it was.  The loop does not come back: the
    program makes no poll after such a pass, so its runs are among the
    sequences of turns, which may go on polling. *)
Definition vote_poll_loop_body (status : option Status)
    (voters : list (string * string)) (w : World) : World * list Event :=
  match status with
  | Some st =>
      match update_state_from_api st (app w) with
      | Some (c, evs) =>
          ({| app := set_recent_voters voters c;
              locals := locals w; disk := disk w |}, evs)
      | None => (w, [])
      end
  | None =>
      ({| app := set_recent_voters voters (app w);
          locals := locals w; disk := disk w |}, [])
  end.

Inductive Turn :=
| Tick (env : TickEnv)
| Poll (status : option Status) (voters : list (string * string)).

Definition turn (t : Turn) (w : World) : World * list Event :=
  match t with
  | Tick env => emulator_loop_body env w
  | Poll status voters => vote_poll_loop_body status voters w
  end.

(** A run: the world at the end and everything done on the way. *)
Fixpoint run (ts : list Turn) (w : World) : World * list Event :=
  match ts with
  | [] => (w, [])
  | t :: ts' =>
      let '(w1, evs1) := turn t w in
      let '(w2, evs2) := run ts' w1 in
      (w2, evs1 ++ evs2)
  end.

(** The calls of [press_button] made for the window identifier [w]. *)
Definition injections_for (w : option Z) (evs : list Event) : nat :=
  length (List.filter (fun ev =>
                         match ev with
                         | Injected w' _ _ => bool_decide (w' = w)
                         | _ => false
                         end) evs).

(** The screenshots taken because the countdown ran out. *)
Definition post_move_captures (evs : list Event) : nat :=
  length (List.filter (fun ev =>
                         match ev with
                         | Captured PostMove _ => true
                         | _ => false
                         end) evs).

End main.

(** ** Python floats, as far as the overlay uses them *)

Module Float64.

(** IEEE 754 binary64: 53 bits of precision, exponents up to 1024. *)
Definition prec : Z := 53.
Definition emax : Z := 1024.

Definition float := spec_float.

(** An integer as the float datum with that integer for mantissa: its
    exact value, before any rounding. *)
Definition exact (z : Z) : float :=
  match z with
  | Z0 => S754_zero false
  | Zpos p => S754_finite false p 0
  | Zneg p => S754_finite true p 0
  end.

(** [float(z)]. *)
Definition of_int (z : Z) : float := binary_normalize prec emax z 0 false.

(** [a / b] on two integers: the quotient, rounded once to nearest even.
    [None] stands for [ZeroDivisionError] and for the [OverflowError]
    of a quotient too large for a float. *)
Definition int_truediv (a b : Z) : option float :=
  if b =? 0 then None
  else
    match SFdiv prec emax (exact a) (exact b) with
    | S754_zero s => Some (S754_zero s)
    | S754_finite s m e => Some (S754_finite s m e)
    | _ => None
    end.

(** [x * n] for a float and an integer that converts exactly. *)
Definition mul_int (x : float) (n : Z) : float :=
  SFmul prec emax x (of_int n).

(** [int(x)]: the integer part, toward zero; [None] stands for the
    [OverflowError] on an infinity and the [ValueError] on NaN. *)
Definition to_int (x : float) : option Z :=
  match x with
  | S754_zero _ => Some 0
  | S754_finite s m e =>
      let signed := if s then Z.neg m else Z.pos m in
      if 0 <=? e then Some (signed * 2 ^ e)
      else Some (Z.quot signed (2 ^ (- e)))
  | _ => None
  end.

End Float64.

(** ** [python/compositor.py]: classes [StreamCompositor] and
    [LocalPreviewOutput]

    A frame is what was drawn on the canvas, in order.  Characters are
    bytes, as for [lower]. *)

Module StreamCompositor.

Import compositor.

Definition WIDTH : Z := 1280.
Definition HEIGHT : Z := 720.
Definition GAME_WIDTH : Z := 720.
Definition GAME_HEIGHT : Z := 648.
Definition SIDEBAR_WIDTH : Z := 560.
Definition SIDEBAR_X : Z := 720.

Inductive Color :=
| BG_COLOR | SIDEBAR_BG | ACCENT | ACCENT_BRIGHT
| TEXT_PRIMARY | TEXT_SECONDARY | BAR_BG | SUCCESS.

Inductive Font := font_large | font_medium | font_small | font_tiny.

Definition BUTTON_SYMBOLS : list (string * string) :=
  [("up", "UP"); ("down", "DOWN"); ("left", "LEFT"); ("right", "RIGHT");
   ("a", "A"); ("b", "B"); ("start", "START"); ("select", "SELECT")]%string.

(** [str.upper] on the ASCII range. *)
Definition upper_ascii (c : ascii) : ascii :=
  let n := N_of_ascii c in
  if ((97 <=? n) && (n <=? 122))%N then ascii_of_N (n - 32) else c.

Fixpoint upper (s : string) : string :=
  match s with
  | EmptyString => EmptyString
  | String c s' => String (upper_ascii c) (upper s')
  end.

(** [table.get(key, default)] on a dictionary from strings to strings. *)
Fixpoint dict_get (table : list (string * string)) (key default : string)
    : string :=
  match table with
  | [] => default
  | (k, v) :: rest => if String.eqb k key then v else dict_get rest key default
  end.

(** The calls made on the canvas and on its [ImageDraw]. *)
Inductive DrawCall :=
| Paste (image : list Z) (width height : Z) (x y : Z)
    (* canvas.paste(image.resize((width, height), NEAREST), (x, y)) *)
| Rectangle (x0 y0 x1 y1 : Z) (fill : Color)
| Line (x0 y0 x1 y1 : Z) (fill : Color) (width : Z)
| Text (x y : Z) (text : string) (font : Font) (fill : Color).

(** The three expressions of [_render_sidebar] that compute something:
    [BUTTON_SYMBOLS.get(button, button.upper())],
    [int((percentage / 100) * max_bar_width)], which can raise, and
    [name[:15] + "..." if len(name) > 15 else name]. *)
Definition symbol (button : string) : string :=
  dict_get BUTTON_SYMBOLS button (upper button).

Definition max_bar_width : Z := 280.

Definition bar_width (percentage : Z) : option Z :=
  match Float64.int_truediv percentage 100 with
  | Some ratio => Float64.to_int (Float64.mul_int ratio max_bar_width)
  | None => None
  end.

Definition display_name (name : string) : string :=
  if (15 <? String.length name)%nat
  then String.append (Pathlib.str_take 15 name) "..."
  else name.

Section Sidebar.

(** [draw.textbbox((0, 0), text, font=font)], as the width
    [bbox[2] - bbox[0]] it gives, in pixels. *)
Variable textbbox_width : string -> Font -> Z.

Definition pad_x : Z := SIDEBAR_X + 20.
Definition right_x : Z := WIDTH - 20.
Definition bar_x : Z := SIDEBAR_X + 100.

(** The loop over [state.tallies[:6]], from the current [y]: the [y]
    reached and the calls made, or [None] when [bar_width] raises. *)
Fixpoint tally_rows (y : Z) (tallies : list VoteTally)
    : option (Z * list DrawCall) :=
  match tallies with
  | [] => Some (y, [])
  | tally :: rest =>
      if count tally =? 0 then tally_rows y rest
      else
        let symbol := symbol (button tally) in
        match bar_width (percentage tally) with
        | None => None
        | Some bar_width =>
            let count_text :=
              String.append (pretty (count tally))
                (String.append " ("
                   (String.append (pretty (percentage tally)) "%)")) in
            let row :=
              [Text pad_x y symbol font_medium TEXT_PRIMARY;
               Rectangle bar_x (y + 2) (bar_x + max_bar_width) (y + 22) BAR_BG]
              ++ (if 0 <? bar_width
                  then [Rectangle bar_x (y + 2) (bar_x + bar_width) (y + 22)
                          ACCENT]
                  else [])
              ++ [Text (bar_x + max_bar_width + 10) (y + 2) count_text
                    font_small TEXT_SECONDARY] in
            match tally_rows (y + 32) rest with
            | Some (y', calls) => Some (y', row ++ calls)
            | None => None
            end
        end
  end.

(** The loop over [state.recent_voters[:8]]. *)
Fixpoint voter_rows (y : Z) (voters : list (string * string))
    : Z * list DrawCall :=
  match voters with
  | [] => (y, [])
  | (name, button) :: rest =>
      let symbol := symbol button in
      let voter_text :=
        String.append (display_name name) (String.append " -> " symbol) in
      let '(y', calls) := voter_rows (y + 22) rest in
      (y', Text (pad_x + 5) y voter_text font_tiny TEXT_SECONDARY :: calls)
  end.

Definition _render_sidebar (state : StreamState) : option (list DrawCall) :=
  let y := 20 in
  let title := Text pad_x y "Claw Plays Pokemon" font_large ACCENT in
  let timer_text := String.append (pretty (time_remaining state)) "s" in
  let timer_width := textbbox_width timer_text font_large in
  let timer :=
    Text (right_x - timer_width) y timer_text font_large TEXT_PRIMARY in
  let y := y + 50 in
  let divider1 := Line pad_x y right_x y BAR_BG 2 in
  let y := y + 20 in
  let votes_header := Text pad_x y "CURRENT VOTES" font_medium TEXT_SECONDARY in
  let y := y + 35 in
  match tally_rows y (take 6 (tallies state)) with
  | None => None
  | Some (y, tally_calls) =>
      let y := y + 10 in
      let divider2 := Line pad_x y right_x y BAR_BG 2 in
      let y := y + 20 in
      let voters_header :=
        Text pad_x y "RECENT VOTERS" font_medium TEXT_SECONDARY in
      let y := y + 30 in
      let '(y, voter_calls) := voter_rows y (take 8 (recent_voters state)) in
      let y := y + 10 in
      let divider3 := Line pad_x y right_x y BAR_BG 2 in
      let y := y + 15 in
      let last_action :=
        match main.truthy (last_winner state) with
        | Some winner =>
            let last_text :=
              String.append "LAST: "
                (String.append (symbol winner)
                   (String.append " ("
                      (String.append (pretty (last_winner_votes state))
                         " votes)"))) in
            [Text pad_x y last_text font_small SUCCESS]
        | None => []
        end in
      Some ([title; timer; divider1; votes_header] ++ tally_calls
            ++ [divider2; voters_header] ++ voter_calls
            ++ [divider3] ++ last_action)
  end.

Definition _render_footer : list DrawCall :=
  let footer_y := HEIGHT - 30 in
  let footer_text :=
    "twitch.tv/clawplayspokemon  |  #clawplayspokemon"%string in
  let footer_width := textbbox_width footer_text font_tiny in
  [Text ((WIDTH - footer_width) / 2) footer_y footer_text font_tiny
     TEXT_SECONDARY].

(** [render_frame]: the canvas starts filled with [BG_COLOR]; [None]
    stands for an exception. *)
Definition render_frame (state : StreamState) : option (list DrawCall) :=
  let game_y := (HEIGHT - GAME_HEIGHT) / 2 in
  match _render_sidebar state with
  | Some sidebar =>
      Some ([Paste (game_frame state) GAME_WIDTH GAME_HEIGHT 0 game_y;
             Rectangle SIDEBAR_X 0 WIDTH HEIGHT SIDEBAR_BG]
            ++ sidebar ++ _render_footer)
  | None => None
  end.

End Sidebar.

End StreamCompositor.

Module LocalPreviewOutput.

Record LocalPreviewOutput := {
  output_path : Pathlib.Path
}.

(** [send_frame]: [render_png state] is the frame [render_frame] returns
    as [frame.save] encodes it, or [None] when rendering raises. *)
Definition send_frame (render_png : compositor.StreamState -> option (list Z))
    (state : compositor.StreamState) (f : Fs.faults)
    (o : LocalPreviewOutput) (d : Fs.Disk) : bool * Fs.Disk :=
  match render_png state with
  | None => (false, d)
  | Some png =>
      match Pathlib.with_suffix (output_path o) ".tmp.png" with
      | None => (false, d)
      | Some temp_path =>
          emulator.staged_write temp_path (output_path o) png f d
      end
  end.

End LocalPreviewOutput.

(* ===================================================================== *)
(** * Part II.  Vocabulary of the properties                               *)
(* ===================================================================== *)

(** A button string is recognized when its lower-case form is one of the
    valid buttons. *)
Definition recognized (b : string) : bool :=
  str_in (lower b) emulator.VALID_BUTTONS.

(** [b] is [v] up to the case of its letters. *)
Definition case_variant (b v : string) : Prop := lower b = lower v.

(** The release [press_button] issues before the new press. *)
Definition release_calls (e : emulator.Emulator) : list emulator.PyBoyCall :=
  match emulator._held_button e with
  | Some held => [emulator.PyButtonRelease held]
  | None => []
  end.

(** The samples a call of [send_audio] hands to the buffer: the boosted
    samples of an array, the decoded samples of a byte string, or [None]
    when the conversion raises. *)
Definition converted (audio_data : compositor.AudioData)
    (volume_boost : Float32.float32) : option (list Z) :=
  match audio_data with
  | compositor.NdArray samples => Some (map (compositor.boost volume_boost) samples)
  | compositor.RawBytes bytes => compositor.frombuffer_int16 bytes
  | compositor.Unconvertible => None
  end.

(** What one call appends: nothing when the streamer is stopped or the
    conversion raises. *)
Definition appended_by (call : compositor.AudioData * Float32.float32)
    (s : compositor.RTMPStreamer) : list Z :=
  if compositor.running s then default [] (converted call.1 call.2) else [].

(** A sequence of [send_audio] calls, and the concatenation of all the
    samples they appended. *)
Fixpoint send_audio_all (calls : list (compositor.AudioData * Float32.float32))
    (s : compositor.RTMPStreamer) : compositor.RTMPStreamer :=
  match calls with
  | [] => s
  | call :: calls' =>
      send_audio_all calls' (snd (compositor.send_audio call.1 call.2 s))
  end.

Fixpoint appended (calls : list (compositor.AudioData * Float32.float32))
    (s : compositor.RTMPStreamer) : list Z :=
  match calls with
  | [] => []
  | call :: calls' =>
      appended_by call s
      ++ appended calls' (snd (compositor.send_audio call.1 call.2 s))
  end.

(** Saturation of an integer into the 16-bit signed range. *)
Definition clamp16 (z : Z) : Z := Z.max (-32768) (Z.min 32767 z).

(** A streamer that is running, with nothing buffered, and one that is
    stopped. *)
Definition streamer_running : compositor.RTMPStreamer :=
  {| compositor.running := true;
     compositor._frame_queue := [];
     compositor._audio_buffer := [] |}.

Definition streamer_stopped : compositor.RTMPStreamer :=
  {| compositor.running := false;
     compositor._frame_queue := [];
     compositor._audio_buffer := [] |}.

Definition emulator_holding_b : emulator.Emulator :=
  {| emulator.pyboy := [emulator.PyButton "b"%string; emulator.PyTick];
     emulator.save_state_path := ["data"; "pokemon.save"]%string;
     emulator.screenshot_path := ["data"; "screenshot.png"]%string;
     emulator._held_button := Some "b"%string;
     emulator._hold_frames_remaining := 7;
     emulator._last_save_time := 0 |}.

(** A stream state and a compositor for the examples: every frame renders
    to the three bytes 1, 2, 3. *)
Definition blank_state : compositor.StreamState :=
  {| compositor.game_frame := [];
     compositor.time_remaining := 10;
     compositor.tallies := [];
     compositor.recent_voters := [];
     compositor.last_winner := None;
     compositor.last_winner_votes := 0 |}.

Definition render_123 (_ : compositor.StreamState) : option (list Z) :=
  Some [1; 2; 3].

(** The enqueue property without the running flag: a full queue refuses,
    any other queue accepts. *)
Definition enqueue_ignores_running : Prop :=
  forall (render_frame : compositor.StreamState -> option (list Z))
         (state : compositor.StreamState) (s : compositor.RTMPStreamer),
    ((compositor.FRAME_QUEUE_MAXSIZE <= length (compositor._frame_queue s))%nat ->
       compositor.send_frame render_frame state s = (false, s)) /\
    ((length (compositor._frame_queue s) < compositor.FRAME_QUEUE_MAXSIZE)%nat ->
       exists frame,
         compositor.send_frame render_frame state s =
         (true,
          compositor.set_frame_queue (compositor._frame_queue s ++ [frame]) s)).

(** Whether [update_state_from_api] raises on a status: it does on a
    null [currentWindow] and on a null [allTallies]. *)
Definition raises (status : main.Status) : bool :=
  match main.currentWindow status with
  | main.Null => true
  | main.Missing => false
  | main.Value current =>
      match main.allTallies current with
      | main.Null => true
      | _ => false
      end
  end.

(** The window identifier a turn lets the orchestrator observe: that of
    the previous-result record of a poll, when the poll has one and
    [update_state_from_api] gets to read it. *)
Definition observed (t : main.Turn) : option (option Z) :=
  match t with
  | main.Poll (Some status) _ =>
      if raises status then None
      else
        match main.previousResult status with
        | Some prev => Some (main.windowId prev)
        | None => None
        end
  | _ => None
  end.

(** How often the identifier [wid] arrives: the polls that carry it while
    the identifier acted on last ([last] at the start) is another one. *)
Fixpoint arrivals (wid last : option Z) (ts : list main.Turn) : nat :=
  match ts with
  | [] => 0
  | t :: ts' =>
      match observed t with
      | Some w' =>
          ((if bool_decide (w' = wid) && negb (bool_decide (w' = last))
            then 1 else 0)
           + arrivals wid w' ts')%nat
      | None => arrivals wid last ts'
      end
  end.

(** The number of [emulator_loop] iterations among the turns. *)
Fixpoint ticks (ts : list main.Turn) : Z :=
  match ts with
  | [] => 0
  | main.Tick _ :: ts' => 1 + ticks ts'
  | main.Poll _ _ :: ts' => ticks ts'
  end.

Definition is_injection (ev : main.Event) : bool :=
  match ev with
  | main.Injected _ _ _ => true
  | _ => false
  end.

(** Whether a countdown value is armed, as a number. *)
Definition armed_count (n : Z) : nat := if 0 <? n then 1 else 0.

(** C1 as first stated: an identifier never gets a second injection,
    whatever is observed in between. *)
Definition one_injection_per_identifier : Prop :=
  forall (ts : list main.Turn) (w : main.World) (wid : option Z),
    (main.injections_for wid (main.run ts w).2 <= 1)%nat.

(** The orchestrator as [__init__] leaves it, without a streamer, on an
    empty disk. *)
Definition fresh_emulator : emulator.Emulator :=
  {| emulator.pyboy := [];
     emulator.save_state_path := ["data"; "pokemon.save"]%string;
     emulator.screenshot_path := ["data"; "screenshot.png"]%string;
     emulator._held_button := None;
     emulator._hold_frames_remaining := 0;
     emulator._last_save_time := 0 |}.

Definition fresh_world : main.World :=
  {| main.app :=
       {| main.running := true;
          main.emu := fresh_emulator;
          main.rtmp_streamer := None;
          main.last_window_id := None;
          main.last_winner := None;
          main.last_winner_votes := Some 0;
          main.current_tallies := [];
          main.recent_voters := [];
          main.time_remaining := Some 10;
          main._post_move_screenshot_frames := 0 |};
     main.locals := {| main.last_screenshot_time := 0;
                       main.last_auto_save_time := 0 |};
     main.disk := ∅ |}.

(** A poll whose previous result is window [wid] with the given winner. *)
Definition poll_result (wid : Z) (winner : option string) (votes : Z)
    : main.Turn :=
  main.Poll
    (Some {| main.currentWindow := main.Missing;
             main.previousResult :=
               Some {| main.windowId := Some wid;
                       main.winner := winner;
                       main.totalVotes := main.Value votes |} |})
    [].

(** An [emulator_loop] iteration at clock reading [t] with no fault. *)
Definition quiet_tick (t : Z) : main.Turn :=
  main.Tick
    {| main.loop_start := t;
       main.audio_samples := [];
       main.screen_png := [137; 80; 78; 71];
       main.periodic_faults := Fs.no_faults;
       main.post_move_faults := Fs.no_faults;
       main.state_bytes := [];
       main.autosave_faults := Fs.no_faults;
       main.autosave_now := t |}.

(** An emulator whose save state lives at [pokemon.tmp], and a disk that
    holds a five-byte save there. *)
Definition emulator_saving_to_tmp : emulator.Emulator :=
  {| emulator.pyboy := [];
     emulator.save_state_path := ["data"; "pokemon.tmp"]%string;
     emulator.screenshot_path := ["data"; "screenshot.png"]%string;
     emulator._held_button := None;
     emulator._hold_frames_remaining := 0;
     emulator._last_save_time := 0 |}.

Definition disk_with_save : Fs.Disk :=
  {[ ["data"; "pokemon.tmp"]%string := [10; 20; 30; 40; 50] ]}.

(** The disk fills up after two bytes of the new save. *)
Definition disk_full_after_two : Fs.faults :=
  {| Fs.open_raises := false;
     Fs.write_result := Fs.WriteRaisesAfter 2;
     Fs.replace_raises := false |}.

(** A writer thread is in flight when it is past its test of the flag and
    has not come back to it: it may still write once before it tests the
    flag again. *)
Definition video_in_flight (x : compositor.Session) : nat :=
  match compositor.video x with
  | compositor.VGet | compositor.VWrite _ => 1
  | _ => 0
  end.

Definition audio_in_flight (x : compositor.Session) : nat :=
  match compositor.audio x with
  | compositor.AClock | compositor.APop | compositor.AWrite _ => 1
  | _ => 0
  end.

(** C8 as first stated: in a session, once the flag is false nothing is
    written to either pipe any more. *)
Definition no_write_after_stop : Prop :=
  forall (before after : list compositor.label) (x x' : compositor.Session),
    compositor.exec before compositor.started = Some x ->
    compositor.running (compositor.streamer x) = false ->
    compositor.exec after x = Some x' ->
    compositor.video_pipe x' = compositor.video_pipe x /\
    compositor.audio_pipe x' = compositor.audio_pipe x.

(** A schedule in which the video writer meets a broken pipe while the
    audio writer is between its test of the flag and its write. *)
Definition audio_caught_in_flight : list compositor.label :=
  [compositor.VOpened; compositor.AOpened;
   compositor.ALoopTest; compositor.AElapsed true; compositor.ALocked;
   compositor.VLoopTest; compositor.MSendFrame render_123 blank_state;
   compositor.VGot; compositor.VBrokenPipe].

(** The session just before that broken pipe, just after it, and after
    the steps that can still follow. *)
Definition before_break : compositor.Session :=
  default compositor.started
    (compositor.exec (removelast audio_caught_in_flight) compositor.started).

Definition at_break : compositor.Session :=
  default compositor.started (compositor.step compositor.VBrokenPipe before_break).

Definition after_break : list compositor.label :=
  [compositor.AWriteOk;
   compositor.MSendFrame render_123 blank_state;
   compositor.MSendAudio (compositor.NdArray [1; 2]) (Float32.of_int 3);
   compositor.ALoopTest; compositor.MStop].

Definition at_end : compositor.Session :=
  default compositor.started (compositor.exec after_break at_break).

(** The float32 product [send_audio] forms for a sample. *)
Definition product (volume_boost : Float32.float32) (sample : Z)
    : Float32.float32 :=
  Float32.mul (Float32.of_int sample) volume_boost.



(** [m * 2^e >= b] over the integers: a power of two with a negative
    exponent is moved to the other side. *)
Definition scaled_ge (m e b : Z) : Prop :=
  b * 2 ^ Z.max 0 (- e) <= m * 2 ^ Z.max 0 e.

(** The exact product of the sample [s] and the finite gain [g] is at
    least [b]. *)
Definition exact_product_ge (s : Z) (g : Float32.float32) (b : Z) : Prop :=
  match g with
  | S754_finite sg mg eg => scaled_ge (s * Float32.signed sg mg) eg b
  | _ => False
  end.

(** [m * 2^e <= b] over the integers. *)
Definition scaled_le (m e b : Z) : Prop :=
  m * 2 ^ Z.max 0 e <= b * 2 ^ Z.max 0 (- e).

(** The exact product of the sample [s] and the finite gain [g] is the
    integer [t]. *)
Definition exact_product_is (s : Z) (g : Float32.float32) (t : Z) : Prop :=
  match g with
  | S754_finite sg mg eg =>
      s * Float32.signed sg mg * 2 ^ Z.max 0 eg = t * 2 ^ Z.max 0 (- eg)
  | S754_zero _ => t = 0
  | _ => False
  end.

(** [of_int] is exact on [s]: a float with the sign and the absolute
    value of [s]. *)
Definition of_int_exact (s : Z) : bool :=
  match Float32.of_int s with
  | S754_zero _ => s =? 0
  | S754_finite sg m e =>
      (e <=? 0) && (Z.pos m =? Z.abs s * 2 ^ (- e)) && Bool.eqb sg (s <? 0)
  | _ => false
  end.

(** [f] holds on the [n] integers from [lo] on. *)
Fixpoint all_from (f : Z -> bool) (lo : Z) (n : nat) : bool :=
  match n with
  | O => true
  | S n' => f lo && all_from f (lo + 1) n'
  end.

(** Case analysis on one step of a session: the label, and where the two
    threads are. *)
Ltac step_cases l x Hstep :=
  unfold compositor.step in Hstep;
  destruct l;
  destruct (compositor.video x) eqn:Hv;
  destruct (compositor.audio x) eqn:Ha;
  try discriminate Hstep; simpl in Hstep;
  try (destruct (compositor._frame_queue (compositor.streamer x)) eqn:Hq);
  try (destruct (compositor.pop_chunk _ _) eqn:Hpop);
  injection Hstep as <-.

(** ** Vocabulary for the game state readers *)

(** The bytes [bytes] sit in memory from [addr] on. *)
Definition stored_at (mem : emulator.Memory) (addr : Z) (bytes : list Z)
    : Prop :=
  forall (i : nat) (b : Z), bytes !! i = Some b -> mem (addr + Z.of_nat i) = b.

(** A memory that holds [bytes] from [addr] on and zero elsewhere. *)
Definition memory_with (addr : Z) (bytes : list Z) : emulator.Memory :=
  fun a =>
    if (addr <=? a) && (a <? addr + Z.of_nat (length bytes))
    then nth (Z.to_nat (a - addr)) bytes 0
    else 0.

(** Packed decimal: two decimal digits to a byte, and a number to
    [num_bytes] such bytes, the most significant pair first. *)
Definition bcd_byte (d : Z) : Z := Z.lor (Z.shiftl (d / 10) 4) (d mod 10).

Fixpoint encode_bcd (num_bytes : nat) (n : Z) : list Z :=
  match num_bytes with
  | O => []
  | S k => encode_bcd k (n / 100) ++ [bcd_byte (n mod 100)]
  end.

(** A byte whose two halves are decimal digits. *)
Definition valid_bcd (b : Z) : Prop :=
  0 <= b /\ Z.shiftr b 4 <= 9 /\ Z.land b 0x0F <= 9.



(** What [_decode_text] can produce: a letter, a digit, a space, one of
    the two gender signs or a question mark. *)
Definition decoded_char (c : Z) : bool :=
  ((65 <=? c) && (c <=? 90)) || ((97 <=? c) && (c <=? 122))
  || ((48 <=? c) && (c <=? 57)) || (c =? 32) || (c =? 0x2642)
  || (c =? 0x2640) || (c =? 63).

(** The badges reported as held. *)
Definition badges_held (b : emulator.Badges) : Z :=
  Z.of_nat (length (List.filter snd (emulator.badges b))).

Definition badges_agree (byte : Z) : bool :=
  let b := emulator.get_badges (fun _ => byte) in
  (emulator.count b =? badges_held b)
  && (length (emulator.badges b) =? 8)%nat.

(** What [get_party] promises of an entry, whatever the memory holds. *)
Definition well_formed_entry (p : emulator.Pokemon) : Prop :=
  1 <= emulator.slot p <= 6 /\
  emulator.species_id p <> 0 /\ emulator.species_id p <> 0xFF /\
  (length (emulator.moves p) <= 4)%nat /\
  Forall (fun m => 0 <= emulator.pp m <= 63) (emulator.moves p).

(** Case analysis on the integer comparisons of a goal. *)
Ltac by_cases :=
  repeat
    (match goal with
     | |- context [?a <=? ?b] =>
         destruct (Z.leb_spec a b); cbn [andb orb negb]
     | |- context [?a =? ?b] =>
         destruct (Z.eqb_spec a b); cbn [andb orb negb]
     | H : context [?a <=? ?b] |- _ =>
         destruct (Z.leb_spec a b); cbn [andb orb negb] in H
     | H : context [?a =? ?b] |- _ =>
         destruct (Z.eqb_spec a b); cbn [andb orb negb] in H
     end; try lia; try discriminate).

(** ** Vocabulary for the button hold *)

(** The presses the wrapper still owes a release: the buttons for which
    the log has a [pyboy.button] call that no [pyboy.button_release] call
    for the same button follows.  This reads the wrapper's own calls; how
    long PyBoy keeps a button down after [button] is PyBoy's matter. *)
Definition unreleased (log : list emulator.PyBoyCall) : list string :=
  fold_left
    (fun down call =>
       match call with
       | emulator.PyButton b =>
           b :: List.filter (fun x => negb (String.eqb x b)) down
       | emulator.PyButtonRelease b =>
           List.filter (fun x => negb (String.eqb x b)) down
       | emulator.PyTick => down
       end)
    log [].

(** The emulator object and its call log agree on what is held: no
    button, with the counter at zero and no press unreleased, or one valid
    button, with between one and eight frames to go and its press the
    only one unreleased. *)
Definition hold_consistent (e : emulator.Emulator) : Prop :=
  match emulator._held_button e with
  | None =>
      emulator._hold_frames_remaining e = 0 /\
      unreleased (emulator.pyboy e) = []
  | Some b =>
      1 <= emulator._hold_frames_remaining e <= emulator.BUTTON_HOLD_FRAMES /\
      In b emulator.VALID_BUTTONS /\
      unreleased (emulator.pyboy e) = [b]
  end.

(** A call of a method of the emulator object, with what the outside
    decides for it. *)
Inductive EmulatorCall :=
| CallPressButton (button : string)
| CallTick (audio_data : list Z)
| CallTickMultiple (count : Z) (audio : Z -> list Z)
| CallSaveState (data : list Z) (f : Fs.faults) (now : emulator.Time)
| CallSaveScreenshot (png : list Z) (f : Fs.faults)
| CallStop (data : list Z) (f : Fs.faults) (now : emulator.Time).

Definition call (c : EmulatorCall) (x : emulator.Emulator * Fs.Disk)
    : emulator.Emulator * Fs.Disk :=
  let '(e, d) := x in
  match c with
  | CallPressButton button => ((emulator.press_button button e).2, d)
  | CallTick audio_data => ((emulator.tick audio_data e).2, d)
  | CallTickMultiple count audio => (emulator.tick_multiple count audio e, d)
  | CallSaveState data f now =>
      let '(_, e', d') := emulator.save_state data f now e d in (e', d')
  | CallSaveScreenshot png f => (e, (emulator.save_screenshot png f e d).2)
  | CallStop data f now => emulator.stop data f now e d
  end.

Definition calls (cs : list EmulatorCall) (x : emulator.Emulator * Fs.Disk)
    : emulator.Emulator * Fs.Disk :=
  fold_left (fun x c => call c x) cs x.

(** Reduce the field accesses of an emulator object, and nothing else. *)
Ltac fields :=
  cbn [emulator.set_hold emulator.set_pyboy emulator.set_last_save_time
       emulator._held_button emulator._hold_frames_remaining emulator.pyboy
       fst snd].

(** ** Vocabulary for the orchestrator's timers and last action *)

(** The periodic screenshots and the periodic saves among some events. *)
Definition periodic_captures (evs : list main.Event) : nat :=
  length (List.filter (fun ev =>
                         match ev with
                         | main.Captured main.Periodic _ => true
                         | _ => false
                         end) evs).

Definition autosaves (evs : list main.Event) : nat :=
  length (List.filter (fun ev =>
                         match ev with
                         | main.AutoSaved _ => true
                         | _ => false
                         end) evs).

(** The winner of the latest injection among some events. *)
Definition last_injected (evs : list main.Event) : option string :=
  fold_left (fun acc ev =>
               match ev with
               | main.Injected _ winner _ => Some winner
               | _ => acc
               end) evs None.

(** The loop clock readings of the [emulator_loop] iterations among some
    turns all come at [t] or later, and less than [interval] later. *)
Definition ticks_within (t interval : Z) (ts : list main.Turn) : Prop :=
  forall env,
    In (main.Tick env) ts -> 0 <= main.loop_start env - t < interval.

(** An [emulator_loop] iteration at clock reading [t] during which the
    disk is full. *)
Definition failing_tick (t : Z) : main.Turn :=
  main.Tick
    {| main.loop_start := t;
       main.audio_samples := [];
       main.screen_png := [137; 80; 78; 71];
       main.periodic_faults := disk_full_after_two;
       main.post_move_faults := disk_full_after_two;
       main.state_bytes := [1; 2; 3; 4];
       main.autosave_faults := disk_full_after_two;
       main.autosave_now := t |}.

(** ** Vocabulary for a streaming session *)

(** The frame a step has [send_frame] accept, if any. *)
Definition accepted_by (l : compositor.label) (x : compositor.Session)
    : list (list Z) :=
  match l with
  | compositor.MSendFrame render_frame state =>
      if (compositor.send_frame render_frame state (compositor.streamer x)).1
      then match render_frame state with
           | Some frame => [frame]
           | None => []
           end
      else []
  | _ => []
  end.

(** The frames accepted along a schedule, oldest first. *)
Fixpoint accepted_frames (ls : list compositor.label) (x : compositor.Session)
    : list (list Z) :=
  match ls with
  | [] => []
  | l :: ls' =>
      match compositor.step l x with
      | Some x' => accepted_by l x ++ accepted_frames ls' x'
      | None => []
      end
  end.

(** The frames that have left the queue and not reached the pipe, given
    where the video writer is: the one it is about to write, or at most
    one it held when it gave up. *)
Definition between_queue_and_pipe (pc : compositor.video_pc)
    (mid : list (list Z)) : Prop :=
  match pc with
  | compositor.VWrite frame => mid = [frame]
  | compositor.VExit => (length mid <= 1)%nat
  | _ => mid = []
  end.

(** Accounting for the frames accepted so far. *)
Definition frames_accounted (acc : list (list Z)) (x : compositor.Session)
    : Prop :=
  exists mid,
    acc = compositor.video_pipe x ++ mid
          ++ compositor._frame_queue (compositor.streamer x) /\
    between_queue_and_pipe (compositor.video x) mid.

(** The steps of the two writer threads. *)
Definition is_video_step (l : compositor.label) : bool :=
  match l with
  | compositor.VOpened | compositor.VOpenRaises | compositor.VLoopTest
  | compositor.VGot | compositor.VWriteOk | compositor.VBrokenPipe
  | compositor.VOtherError => true
  | _ => false
  end.

Definition is_audio_step (l : compositor.label) : bool :=
  match l with
  | compositor.AOpened | compositor.AOpenRaises | compositor.ALoopTest
  | compositor.AElapsed _ | compositor.ALocked | compositor.AWriteOk
  | compositor.ABrokenPipe | compositor.AOtherError | compositor.ASlept => true
  | _ => false
  end.

(** How many steps a writer is from returning once the flag is down, at
    most. *)
Definition video_steps_left (pc : compositor.video_pc) : nat :=
  match pc with
  | compositor.VGet => 3
  | compositor.VOpen | compositor.VWrite _ => 2
  | compositor.VTest => 1
  | compositor.VExit => 0
  end.

Definition audio_steps_left (pc : compositor.audio_pc) : nat :=
  match pc with
  | compositor.AClock => 4
  | compositor.APop => 3
  | compositor.AOpen | compositor.AWrite _ | compositor.ASleep => 2
  | compositor.ATest => 1
  | compositor.AExit => 0
  end.

(** A session with five frames queued and the video writer busy. *)
Definition session_queue_full : compositor.Session :=
  {| compositor.streamer :=
       {| compositor.running := true;
          compositor._frame_queue := [[1]; [2]; [3]; [4]; [5]];
          compositor._audio_buffer := [7; 8; 9] |};
     compositor.video := compositor.VWrite [0];
     compositor.audio := compositor.ATest;
     compositor.video_pipe := [];
     compositor.audio_pipe := [] |}.

(** ** Vocabulary for the overlay *)

(** The highest and the lowest [y] a call is given. *)
Definition call_top (c : StreamCompositor.DrawCall) : Z :=
  match c with
  | StreamCompositor.Paste _ _ _ _ y => y
  | StreamCompositor.Rectangle _ y0 _ y1 _ => Z.min y0 y1
  | StreamCompositor.Line _ y0 _ y1 _ _ => Z.min y0 y1
  | StreamCompositor.Text _ y _ _ _ => y
  end.

Definition call_bottom (c : StreamCompositor.DrawCall) : Z :=
  match c with
  | StreamCompositor.Paste _ _ height _ y => y + height
  | StreamCompositor.Rectangle _ y0 _ y1 _ => Z.max y0 y1
  | StreamCompositor.Line _ y0 _ y1 _ _ => Z.max y0 y1
  | StreamCompositor.Text _ y _ _ _ => y
  end.

(** The tallies that get a row: those with votes among the first six. *)
Definition shown_tallies (state : compositor.StreamState)
    : list compositor.VoteTally :=
  List.filter (fun t => negb (compositor.count t =? 0))
    (take 6 (compositor.tallies state)).

Definition bar_width_floor (p : Z) : bool :=
  match StreamCompositor.bar_width p with
  | Some w => w =? p * 280 / 100
  | None => false
  end.

(** A state with eight tallies, two of them without votes. *)
Definition busy_state : compositor.StreamState :=
  let tally b c p :=
    {| compositor.button := b; compositor.count := c;
       compositor.percentage := p; compositor.voters := [] |} in
  {| compositor.game_frame := [];
     compositor.time_remaining := 7;
     compositor.tallies :=
       [tally "a" 5 50; tally "b" 0 0; tally "up" 3 30; tally "down" 1 10;
        tally "left" 0 0; tally "start" 1 10; tally "select" 0 0;
        tally "right" 0 0]%string;
     compositor.recent_voters :=
       [("a_rather_long_agent_name", "a"); ("bob", "up")]%string;
     compositor.last_winner := Some "a"%string;
     compositor.last_winner_votes := 5 |}.

(** A preview output writing to [preview/frame.png]. *)
Definition preview_output : LocalPreviewOutput.LocalPreviewOutput :=
  {| LocalPreviewOutput.output_path := ["preview"; "frame.png"]%string |}.

(* ===================================================================== *)
(** * Part III.  Properties                                                *)
(* ===================================================================== *)

(** ** Sanity checks of the model on concrete inputs *)

Example with_suffix_default_save :
  Pathlib.with_suffix ["data"; "pokemon.save"]%string ".tmp"
  = Some ["data"; "pokemon.tmp"]%string.
Proof. reflexivity. Qed.

Example with_suffix_default_shot :
  Pathlib.with_suffix ["data"; "screenshot.png"]%string ".tmp.png"
  = Some ["data"; "screenshot.tmp.png"]%string.
Proof. reflexivity. Qed.

Example with_suffix_tmp_collides :
  Pathlib.with_suffix ["data"; "pokemon.tmp"]%string ".tmp"
  = Some ["data"; "pokemon.tmp"]%string.
Proof. reflexivity. Qed.

Example lower_Start : lower "StArT" = "start"%string.
Proof. reflexivity. Qed.

(** A press is held for eight ticks and released by the eighth. *)
Example press_then_eight_ticks :
  let pressed := (emulator.press_button "A" fresh_emulator).2 in
  let after n := Nat.iter n (fun e => (emulator.tick [] e).2) pressed in
  emulator._held_button (after 7%nat) = Some "a"%string /\
  emulator._held_button (after 8%nat) = None /\
  emulator.pyboy (after 8%nat)
  = [emulator.PyButton "a"%string] ++ replicate 8 emulator.PyTick
    ++ [emulator.PyButtonRelease "a"%string].
Proof. vm_compute. auto. Qed.

(** ** The emulator wrapper: [press_button] *)

Section PressButton.

Import emulator.

Lemma lower_ascii_idempotent (c : ascii) :
  lower_ascii (lower_ascii c) = lower_ascii c.
Proof. destruct c as [[] [] [] [] [] [] [] []]; reflexivity. Qed.

Lemma lower_idempotent (s : string) : lower (lower s) = lower s.
Proof.
  induction s as [|c s IH]; simpl; [reflexivity|].
  now rewrite lower_ascii_idempotent, IH.
Qed.

Lemma str_in_In (x : string) (xs : list string) :
  str_in x xs = true <-> In x xs.
Proof.
  unfold str_in. rewrite existsb_exists. split.
  - intros (y & Hy & Heq). apply String.eqb_eq in Heq. now subst.
  - intros H. exists x. split; [assumption | apply String.eqb_refl].
Qed.

Lemma valid_buttons_lower (v : string) :
  In v VALID_BUTTONS -> lower v = v.
Proof.
  unfold VALID_BUTTONS. simpl.
  intros H; repeat (destruct H as [<- | H]; [reflexivity|]); destruct H.
Qed.

Lemma press_button_rejects (b : string) (e : Emulator) :
  recognized b = false -> press_button b e = (false, e).
Proof. unfold recognized, press_button. now intros ->. Qed.

Lemma press_button_accepts (b : string) (e : Emulator) :
  recognized b = true ->
  press_button b e =
  (true,
   {| pyboy := pyboy e ++ release_calls e ++ [PyButton (lower b)];
      save_state_path := save_state_path e;
      screenshot_path := screenshot_path e;
      _held_button := Some (lower b);
      _hold_frames_remaining := BUTTON_HOLD_FRAMES;
      _last_save_time := _last_save_time e |}).
Proof.
  unfold recognized, press_button, release_calls, _release_current_button.
  intros ->. destruct e as [log sp cp held n t]; simpl.
  destruct held as [h|]; simpl.
  - now rewrite <- app_assoc.
  - reflexivity.
Qed.

(** C6.  [press_button] on a string that is not a recognized button
    returns false and leaves the whole emulator object as it was: the held
    button, the hold counter and the calls made on PyBoy.  On a recognized
    button it first releases the button held so far, if any, then presses
    the button, holds it for [BUTTON_HOLD_FRAMES] = 8 frames, and returns
    true.  The button pressed is the lower-case form of the argument, which
    is the argument itself when that is one of the valid button names. *)
Theorem press_button_spec (b : string) (e : Emulator) :
  (recognized b = false -> press_button b e = (false, e)) /\
  (recognized b = true ->
     press_button b e =
     (true,
      {| pyboy := pyboy e ++ release_calls e ++ [PyButton (lower b)];
         save_state_path := save_state_path e;
         screenshot_path := screenshot_path e;
         _held_button := Some (lower b);
         _hold_frames_remaining := 8;
         _last_save_time := _last_save_time e |})) /\
  (In b VALID_BUTTONS -> recognized b = true /\ lower b = b).
Proof.
  split; [apply press_button_rejects|].
  split; [apply press_button_accepts|].
  intros Hin. pose proof (valid_buttons_lower b Hin) as Hl.
  split; [|exact Hl]. unfold recognized. rewrite Hl. now apply str_in_In.
Qed.

Lemma press_button_spec_witness :
  press_button "jump" emulator_holding_b = (false, emulator_holding_b) /\
  press_button "a" emulator_holding_b =
    (true,
     {| pyboy := [PyButton "b"%string; PyTick;
                  PyButtonRelease "b"%string; PyButton "a"%string];
        save_state_path := ["data"; "pokemon.save"]%string;
        screenshot_path := ["data"; "screenshot.png"]%string;
        _held_button := Some "a"%string;
        _hold_frames_remaining := 8;
        _last_save_time := 0 |}) /\
  (recognized "a" = true /\ lower "a" = "a"%string).
Proof.
  split; [|split].
  - apply (proj1 (press_button_spec "jump" emulator_holding_b)). reflexivity.
  - apply (proj1 (proj2 (press_button_spec "a" emulator_holding_b))).
    reflexivity.
  - apply (proj2 (proj2 (press_button_spec "a" emulator_holding_b))).
    simpl. tauto.
Defined.

(** C10.  [press_button] does not look at the case of its argument: it
    does on [b] exactly what it does on the lower-case form of [b], and
    every case variant of a valid button name is accepted, with the same
    result as the name itself. *)
Theorem press_button_case_insensitive (b : string) (e : Emulator) :
  press_button b e = press_button (lower b) e /\
  (forall v, In v VALID_BUTTONS -> case_variant b v ->
     fst (press_button b e) = true /\ press_button b e = press_button v e).
Proof.
  assert (Hsame : press_button b e = press_button (lower b) e).
  { unfold press_button. now rewrite lower_idempotent. }
  split; [exact Hsame|].
  intros v Hin Hcv. unfold case_variant in Hcv.
  rewrite (valid_buttons_lower v Hin) in Hcv.
  assert (Hrec : recognized b = true).
  { unfold recognized. rewrite Hcv. now apply str_in_In. }
  split.
  - now rewrite (press_button_accepts b e Hrec).
  - now rewrite Hsame, Hcv.
Qed.

Lemma press_button_case_insensitive_witness :
  fst (press_button "Start" emulator_holding_b) = true /\
  press_button "Start" emulator_holding_b
  = press_button "start" emulator_holding_b.
Proof.
  apply (proj2 (press_button_case_insensitive "Start" emulator_holding_b)
           "start"%string).
  - simpl. tauto.
  - reflexivity.
Defined.

End PressButton.

(** ** The audio ring buffer: [pop_chunk] *)

Section AudioBuffer.

Import compositor.

Example samples_per_chunk_value : samples_per_chunk = 3200%nat.
Proof. reflexivity. Qed.

Lemma pop_chunk_length (n : nat) (buf : list Z) :
  length (fst (pop_chunk n buf)) = n.
Proof.
  unfold pop_chunk.
  destruct (n <=? length buf)%nat eqn:Hn; simpl.
  - apply Nat.leb_le in Hn. rewrite length_take. lia.
  - apply Nat.leb_gt in Hn.
    destruct (0 <? length buf)%nat; simpl.
    + rewrite length_app, length_replicate. lia.
    + apply length_replicate.
Qed.

(** C2.  The extraction of the audio writer loop, for every buffer and
    every chunk size [n]: the chunk has exactly [n] samples.  With at least
    [n] samples buffered the chunk is the oldest [n] and the buffer keeps
    the rest; with some but fewer than [n] the chunk is the whole buffer
    followed by zeros and the buffer is left empty; with nothing buffered
    the chunk is [n] zeros and the buffer stays empty. *)
Theorem pop_chunk_spec (n : nat) (buf : list Z) :
  length (fst (pop_chunk n buf)) = n /\
  ((n <= length buf)%nat ->
     pop_chunk n buf = (take n buf, drop n buf) /\
     fst (pop_chunk n buf) ++ snd (pop_chunk n buf) = buf /\
     length (snd (pop_chunk n buf)) = (length buf - n)%nat) /\
  ((0 < length buf < n)%nat ->
     pop_chunk n buf = (buf ++ replicate (n - length buf) 0, [])) /\
  (buf = [] -> pop_chunk n buf = (replicate n 0, [])).
Proof.
  split; [apply pop_chunk_length|]. unfold pop_chunk.
  split; [|split].
  - intros Hle. apply Nat.leb_le in Hle. rewrite Hle. simpl.
    split; [reflexivity|]. split; [apply take_drop | apply length_drop].
  - intros [Hpos Hlt].
    apply Nat.leb_gt in Hlt. rewrite Hlt.
    apply Nat.ltb_lt in Hpos. now rewrite Hpos.
  - intros ->. simpl. destruct n; reflexivity.
Qed.

Lemma pop_chunk_spec_witness :
  pop_chunk 2 [7; 8; 9] = ([7; 8], [9]) /\
  pop_chunk 4 [7; 8; 9] = ([7; 8; 9; 0], []) /\
  pop_chunk 3 [] = ([0; 0; 0], []).
Proof.
  split; [|split].
  - apply (proj1 (proj2 (pop_chunk_spec 2 [7; 8; 9]))). simpl. lia.
  - apply (proj1 (proj2 (proj2 (pop_chunk_spec 4 [7; 8; 9])))). simpl. lia.
  - apply (proj2 (proj2 (proj2 (pop_chunk_spec 3 [])))). reflexivity.
Defined.

End AudioBuffer.

(** ** The audio ring buffer: [send_audio] *)

Section SendAudio.

Import compositor.

Lemma max_samples_pos : (0 < max_samples)%nat.
Proof. apply Nat.ltb_lt. vm_compute. reflexivity. Qed.

Lemma last_n_drop {A} (n : nat) (l : list A) :
  (0 < n)%nat -> last_n n l = drop (length l - n) l.
Proof. destruct n; [lia | reflexivity]. Qed.

(** Appending to the most recent [bound] samples of a history gives the
    most recent [bound] samples of the longer history. *)
Lemma append_samples_history (bound : nat) (hist samples : list Z) :
  (0 < bound)%nat ->
  append_samples bound samples (drop (length hist - bound) hist)
  = drop (length (hist ++ samples) - bound) (hist ++ samples).
Proof.
  intros Hpos. unfold append_samples.
  set (k := (length hist - bound)%nat).
  assert (Hk : (k <= length hist)%nat) by (unfold k; lia).
  assert (Happ : drop k hist ++ samples = drop k (hist ++ samples)).
  { now rewrite drop_app_le. }
  rewrite Happ.
  assert (Hlen : length (drop k (hist ++ samples))
                 = (length hist + length samples - k)%nat).
  { rewrite length_drop, length_app. reflexivity. }
  destruct (bound <? length (drop k (hist ++ samples)))%nat eqn:Hcmp.
  - apply Nat.ltb_lt in Hcmp. rewrite last_n_drop by assumption.
    rewrite drop_drop. f_equal. rewrite Hlen, length_app. unfold k in *. lia.
  - apply Nat.ltb_ge in Hcmp. f_equal. rewrite length_app.
    rewrite Hlen in Hcmp. unfold k in *. lia.
Qed.

Lemma append_samples_fits (bound : nat) (samples buf : list Z) :
  (length (buf ++ samples) <= bound)%nat ->
  append_samples bound samples buf = buf ++ samples.
Proof.
  intros H. unfold append_samples. apply Nat.ltb_ge in H. now rewrite H.
Qed.

Lemma append_samples_bounded (bound : nat) (samples buf : list Z) :
  (0 < bound)%nat ->
  (length (append_samples bound samples buf) <= bound)%nat.
Proof.
  intros Hpos. unfold append_samples.
  destruct (bound <? length (buf ++ samples))%nat eqn:Hcmp.
  - rewrite last_n_drop by assumption. rewrite length_drop.
    apply Nat.ltb_lt in Hcmp. lia.
  - now apply Nat.ltb_ge in Hcmp.
Qed.

Lemma send_audio_running (audio_data : AudioData)
    (volume_boost : Float32.float32) (s : RTMPStreamer) :
  running (send_audio audio_data volume_boost s).2 = running s.
Proof.
  unfold send_audio. destruct (running s) eqn:Hr; simpl; [|assumption].
  destruct audio_data as [xs|bs|]; simpl; [assumption| |assumption].
  destruct (frombuffer_int16 bs); assumption.
Qed.

(** One call: the buffer afterwards, in terms of what the call appended. *)
Lemma send_audio_buffer (call : AudioData * Float32.float32)
    (s : RTMPStreamer) :
  (length (_audio_buffer s) <= max_samples)%nat ->
  _audio_buffer (snd (send_audio call.1 call.2 s))
  = append_samples max_samples (appended_by call s) (_audio_buffer s).
Proof.
  intros Hlen. unfold send_audio, appended_by, converted.
  assert (Hnil : append_samples max_samples [] (_audio_buffer s)
                 = _audio_buffer s).
  { unfold append_samples. rewrite app_nil_r.
    apply Nat.ltb_ge in Hlen. now rewrite Hlen. }
  destruct (running s); simpl; [|now rewrite Hnil].
  destruct call as [[xs|bs|] g]; simpl; [reflexivity| |now rewrite Hnil].
  destruct (frombuffer_int16 bs); simpl; [reflexivity | now rewrite Hnil].
Qed.

(** The invariant behind C3, from any history: a buffer that holds the
    most recent [max_samples] samples of a history holds, after any
    sequence of calls, the most recent [max_samples] samples of the history
    extended by what the calls appended. *)
Lemma send_audio_all_history (calls : list (AudioData * Float32.float32)) :
  forall (s : RTMPStreamer) (hist : list Z),
    _audio_buffer s = drop (length hist - max_samples) hist ->
    _audio_buffer (send_audio_all calls s)
    = drop (length (hist ++ appended calls s) - max_samples)
        (hist ++ appended calls s).
Proof.
  induction calls as [|call calls IH]; intros s hist Hbuf; simpl.
  - now rewrite app_nil_r.
  - rewrite app_assoc. apply IH.
    rewrite send_audio_buffer.
    + rewrite Hbuf. apply append_samples_history, max_samples_pos.
    + rewrite Hbuf, length_drop. lia.
Qed.

(** C3.  From the empty buffer of a fresh streamer, after every sequence
    of [send_audio] calls the buffer holds at most [max_samples] samples,
    and they are the most recent ones of everything appended so far: the
    buffer is the concatenation of all appended samples without its oldest
    [total - max_samples] ones (without none when the total is within the
    bound), hence a suffix of that concatenation. *)
Theorem send_audio_keeps_newest (calls : list (AudioData * Float32.float32))
    (s : RTMPStreamer) :
  _audio_buffer s = [] ->
  (length (_audio_buffer (send_audio_all calls s)) <= max_samples)%nat /\
  _audio_buffer (send_audio_all calls s)
  = drop (length (appended calls s) - max_samples) (appended calls s) /\
  _audio_buffer (send_audio_all calls s) `suffix_of` appended calls s.
Proof.
  intros Hempty.
  pose proof (send_audio_all_history calls s [] Hempty) as H. simpl in H.
  split; [|split].
  - rewrite H, length_drop. lia.
  - exact H.
  - rewrite H. apply suffix_drop.
Qed.

End SendAudio.

Lemma send_audio_keeps_newest_witness :
  let calls := [(compositor.NdArray [1; 2; 3], Float32.of_int 1);
                (compositor.RawBytes [4; 0], Float32.of_int 1)] in
  (length (compositor._audio_buffer (send_audio_all calls streamer_running))
   <= compositor.max_samples)%nat /\
  compositor._audio_buffer (send_audio_all calls streamer_running)
  = drop (length (appended calls streamer_running) - compositor.max_samples)
      (appended calls streamer_running) /\
  compositor._audio_buffer (send_audio_all calls streamer_running)
    `suffix_of` appended calls streamer_running.
Proof.
  apply (send_audio_keeps_newest _ streamer_running). reflexivity.
Defined.

Example append_samples_drops_oldest :
  compositor.append_samples 4 [4; 5; 6] [1; 2; 3] = [3; 4; 5; 6].
Proof. reflexivity. Qed.

Example send_audio_two_calls :
  compositor._audio_buffer
    (send_audio_all [(compositor.NdArray [1; 2; 3], Float32.of_int 1);
                     (compositor.RawBytes [4; 0], Float32.of_int 1)]
       streamer_running)
  = [1; 2; 3; 4].
Proof. vm_compute. reflexivity. Qed.

(** The consumer keeps the invariant: what [pop_chunk] leaves is a suffix
    of what it found, so it is still among the most recent samples. *)
Lemma pop_chunk_suffix (n : nat) (buf : list Z) :
  snd (compositor.pop_chunk n buf) `suffix_of` buf.
Proof.
  unfold compositor.pop_chunk.
  destruct (n <=? length buf)%nat; simpl; [apply suffix_drop|].
  destruct (0 <? length buf)%nat; simpl; [apply suffix_nil | reflexivity].
Qed.

(** ** The frame queue: [send_frame] *)

Section SendFrame.

Import compositor.

Lemma put_nowait_full (maxsize : nat) (item : list Z) (q : list (list Z)) :
  (maxsize <= length q)%nat -> put_nowait maxsize item q = None.
Proof. intros H. unfold put_nowait. apply Nat.leb_le in H. now rewrite H. Qed.

Lemma put_nowait_room (maxsize : nat) (item : list Z) (q : list (list Z)) :
  (length q < maxsize)%nat -> put_nowait maxsize item q = Some (q ++ [item]).
Proof. intros H. unfold put_nowait. apply Nat.leb_gt in H. now rewrite H. Qed.

(** C5, as amended.  [send_frame] on a queue that already holds
    [FRAME_QUEUE_MAXSIZE] = 5 frames returns false and leaves the streamer,
    queue included, as it was.  While the streamer is running and the frame
    renders, [send_frame] on a queue with fewer than 5 frames returns true
    and puts the rendered frame at the tail, so the queue is one longer.
    On a stopped streamer, or when rendering raises, it returns false and
    changes nothing, whatever the queue holds.  It is a total function: no
    case waits. *)
Theorem send_frame_spec
    (render_frame : StreamState -> option (list Z))
    (state : StreamState) (s : RTMPStreamer) :
  ((FRAME_QUEUE_MAXSIZE <= length (_frame_queue s))%nat ->
     send_frame render_frame state s = (false, s)) /\
  ((length (_frame_queue s) < FRAME_QUEUE_MAXSIZE)%nat ->
   running s = true ->
   forall frame, render_frame state = Some frame ->
     send_frame render_frame state s
     = (true, set_frame_queue (_frame_queue s ++ [frame]) s) /\
     length (_frame_queue (snd (send_frame render_frame state s)))
     = S (length (_frame_queue s))) /\
  (running s = false -> send_frame render_frame state s = (false, s)) /\
  (render_frame state = None -> send_frame render_frame state s = (false, s)).
Proof.
  unfold send_frame. split; [|split; [|split]].
  - intros Hfull. destruct (running s); simpl; [|reflexivity].
    destruct (render_frame state); [|reflexivity].
    now rewrite put_nowait_full.
  - intros Hroom Hrun frame Hframe. rewrite Hrun, Hframe. simpl.
    rewrite put_nowait_room by assumption. simpl.
    split; [reflexivity|]. rewrite length_app. simpl. lia.
  - now intros ->.
  - intros ->. now destruct (running s).
Qed.

End SendFrame.

Lemma send_frame_spec_witness :
  let full := compositor.set_frame_queue [[1]; [2]; [3]; [4]; [5]] streamer_running in
  compositor.send_frame render_123 blank_state full = (false, full) /\
  compositor.send_frame render_123 blank_state streamer_running
  = (true, compositor.set_frame_queue [[1; 2; 3]] streamer_running) /\
  compositor.send_frame render_123 blank_state streamer_stopped
  = (false, streamer_stopped) /\
  compositor.send_frame (fun _ => None) blank_state streamer_running
  = (false, streamer_running).
Proof.
  split; [|split; [|split]].
  - apply (proj1 (send_frame_spec render_123 blank_state _)).
    apply Nat.leb_le. reflexivity.
  - refine (proj1 (proj1 (proj2 (send_frame_spec render_123 blank_state
                                   streamer_running)) _ _ [1; 2; 3] _));
      [apply Nat.ltb_lt; reflexivity | reflexivity | reflexivity].
  - apply (proj1 (proj2 (proj2 (send_frame_spec render_123 blank_state
                                  streamer_stopped)))). reflexivity.
  - apply (proj2 (proj2 (proj2 (send_frame_spec (fun _ => None) blank_state
                                  streamer_running)))). reflexivity.
Defined.

(** C5 as first stated does not hold: on a stopped streamer a queue with
    room still refuses the frame. *)
Lemma send_frame_stopped_refuses : ~ enqueue_ignores_running.
Proof.
  intros H.
  destruct (H render_123 blank_state streamer_stopped) as [_ Hroom].
  destruct Hroom as [frame Hframe].
  - apply Nat.ltb_lt. reflexivity.
  - discriminate Hframe.
Qed.

(** ** The vote state machine: [update_state_from_api] *)

Section VoteStateMachine.

Import main.

Example end_to_end_polls :
  (run [poll_result 5 (Some "a"%string) 12;
        poll_result 5 (Some "a"%string) 12;
        poll_result 6 None 0] fresh_world).2
  = [Injected (Some 5) "a" true].
Proof. vm_compute. reflexivity. Qed.

Example recurring_identifier :
  (run [poll_result 5 (Some "a"%string) 12;
        poll_result 6 (Some "b"%string) 3;
        poll_result 5 (Some "a"%string) 12] fresh_world).2
  = [Injected (Some 5) "a" true; Injected (Some 6) "b" true;
     Injected (Some 5) "a" true].
Proof. vm_compute. reflexivity. Qed.

(** What one call of [update_state_from_api] does to the fields the vote
    logic reads, and what it emits; it raises on the statuses [raises]
    names and on no other. *)
Lemma update_state_from_api_effect (status : Status) (c : ClawPlaysPokemon) :
  match update_state_from_api status c with
  | None => raises status = true
  | Some r =>
      raises status = false /\
      match previousResult status with
      | None =>
          last_window_id r.1 = last_window_id c /\
          _post_move_screenshot_frames r.1 = _post_move_screenshot_frames c /\
          r.2 = []
      | Some prev =>
          last_window_id r.1 = windowId prev /\
          if bool_decide (windowId prev = last_window_id c) then
            _post_move_screenshot_frames r.1 = _post_move_screenshot_frames c /\
            r.2 = []
          else
            match truthy (winner prev) with
            | Some w =>
                _post_move_screenshot_frames r.1 = POST_MOVE_FRAMES /\
                r.2 = [Injected (windowId prev) w
                         (emulator.press_button w (emu c)).1]
            | None =>
                _post_move_screenshot_frames r.1
                = _post_move_screenshot_frames c /\
                r.2 = []
            end
      end
  end.
Proof.
  unfold update_state_from_api, raises.
  destruct (currentWindow status) as [| |current];
    cbn [get_default allTallies timeRemainingSeconds]; [|reflexivity|].
  2: destruct (allTallies current) as [| |tallies]; cbn [get_default];
       [|reflexivity|].
  all: destruct (previousResult status) as [prev|]; simpl; [|auto 10].
  all: destruct (bool_decide (windowId prev = last_window_id c)) eqn:Hsame;
    simpl; [apply bool_decide_eq_true in Hsame; auto 10|].
  all: destruct (truthy (winner prev)) as [w|]; simpl; [|auto 10].
  all: destruct (emulator.press_button w (emu c)) as [accepted e]; simpl;
    auto 10.
Qed.

(** An iteration of [emulator_loop] never injects, leaves the last window
    identifier alone, and moves the countdown as the source says. *)
Lemma emulator_loop_body_effect (env : TickEnv) (w : World) :
  let r := emulator_loop_body env w in
  let n := _post_move_screenshot_frames (app w) in
  last_window_id (app r.1) = last_window_id (app w) /\
  _post_move_screenshot_frames (app r.1) = (if 0 <? n then n - 1 else n) /\
  List.filter is_injection r.2 = [] /\
  post_move_captures r.2 = if (0 <? n) && (n - 1 =? 0) then 1%nat else 0%nat.
Proof.
  unfold emulator_loop_body.
  destruct (emulator.tick (audio_samples env) (emu (app w))) as [audio e].
  set (c1 := match rtmp_streamer (set_emu e (app w)) with
             | Some s =>
                 if compositor.running s
                 then set_rtmp_streamer
                        (Some (compositor.send_audio (compositor.NdArray audio)
                                 AUDIO_VOLUME_BOOST s).2) (set_emu e (app w))
                 else set_emu e (app w)
             | None => set_emu e (app w)
             end).
  assert (Hc1 : last_window_id c1 = last_window_id (app w) /\
                _post_move_screenshot_frames c1
                = _post_move_screenshot_frames (app w)).
  { unfold c1. destruct (rtmp_streamer (set_emu e (app w))) as [s|]; simpl;
      [destruct (compositor.running s)|]; simpl; auto. }
  destruct Hc1 as [Hid Hn]. clearbody c1.
  destruct (SCREENSHOT_UPDATE_INTERVAL <=?
            loop_start env - last_screenshot_time (locals w));
    [destruct (emulator.save_screenshot _ (periodic_faults env) _ _)|];
    rewrite Hn;
    (destruct (0 <? _post_move_screenshot_frames (app w)) eqn:Hpos; simpl;
     [destruct (_post_move_screenshot_frames (app w) - 1 =? 0) eqn:Hz; simpl;
      [destruct (emulator.save_screenshot _ (post_move_faults env) _ _)|]|]);
    (destruct (SAVE_STATE_INTERVAL <=?
               loop_start env - last_auto_save_time (locals w));
     [destruct (emulator.save_state _ _ _ _ _) as [[? ?] ?]|]);
    simpl; rewrite ?Hn, ?Hz; auto.
Qed.

Lemma injections_for_app (wid : option Z) (evs1 evs2 : list Event) :
  injections_for wid (evs1 ++ evs2)
  = (injections_for wid evs1 + injections_for wid evs2)%nat.
Proof. unfold injections_for. now rewrite List.filter_app, length_app. Qed.

Lemma injections_for_none (wid : option Z) (evs : list Event) :
  List.filter is_injection evs = [] -> injections_for wid evs = 0%nat.
Proof.
  unfold injections_for. induction evs as [|ev evs IH]; simpl; [reflexivity|].
  destruct ev; simpl; try discriminate; exact IH.
Qed.

(** One turn: the identifier acted on last afterwards, and how many
    injections for [wid] the turn can make. *)
Lemma turn_effect (t : Turn) (w : World) (wid : option Z) :
  let r := turn t w in
  last_window_id (app r.1)
  = match observed t with
    | Some w' => w'
    | None => last_window_id (app w)
    end /\
  (injections_for wid r.2
   <= match observed t with
      | Some w' =>
          if bool_decide (w' = wid)
             && negb (bool_decide (w' = last_window_id (app w)))
          then 1 else 0
      | None => 0
      end)%nat.
Proof.
  destruct t as [env | [status|] voters]; simpl.
  - destruct (emulator_loop_body_effect env w) as (Hid & _ & Hinj & _).
    split; [exact Hid|]. now rewrite injections_for_none.
  - unfold vote_poll_loop_body.
    pose proof (update_state_from_api_effect status (app w)) as H.
    destruct (update_state_from_api status (app w)) as [[c evs]|];
      [destruct H as [-> H] | rewrite H; split; reflexivity].
    simpl in *.
    destruct (previousResult status) as [prev|].
    + destruct H as [Hid H]. split; [exact Hid|]. unfold injections_for.
      destruct (bool_decide (windowId prev = last_window_id (app w)));
        [destruct H as [_ ->]; simpl; lia|].
      destruct (truthy (winner prev)) as [win|]; destruct H as [_ ->];
        [|simpl; lia].
      simpl. rewrite andb_true_r.
      destruct (bool_decide (windowId prev = wid)); simpl; lia.
    + destruct H as (Hid & _ & ->). split; [exact Hid | reflexivity].
  - split; [reflexivity | reflexivity].
Qed.

Lemma injections_le_arrivals (ts : list Turn) :
  forall (w : World) (wid : option Z),
    (injections_for wid (run ts w).2
     <= arrivals wid (last_window_id (app w)) ts)%nat.
Proof.
  induction ts as [|t ts IH]; intros w wid; simpl; [apply Nat.le_refl|].
  destruct (turn_effect t w wid) as [Hid Hinj].
  destruct (turn t w) as [w1 evs1]. simpl in *.
  specialize (IH w1 wid). destruct (run ts w1) as [w2 evs2]. simpl in *.
  rewrite injections_for_app. rewrite Hid in IH.
  destruct (observed t) as [w'|]; lia.
Qed.

(** While nothing but [wid] is observed, [wid] arrives at most once, and
    not at all when it was the identifier acted on last. *)
Lemma arrivals_one_run (wid : option Z) (ts : list Turn) :
  (forall t, In t ts -> observed t = None \/ observed t = Some wid) ->
  forall last,
    (arrivals wid last ts <= if bool_decide (last = wid) then 0 else 1)%nat.
Proof.
  induction ts as [|t ts IH]; intros Hall last; simpl;
    [destruct (bool_decide (last = wid)); lia|].
  assert (Hts : forall t', In t' ts ->
                  observed t' = None \/ observed t' = Some wid).
  { intros t' Hin. apply Hall. now right. }
  destruct (Hall t (or_introl eq_refl)) as [-> | ->].
  - now apply IH.
  - specialize (IH Hts wid). rewrite bool_decide_eq_true_2 in IH by reflexivity.
    rewrite (bool_decide_eq_true_2 (wid = wid)) by reflexivity. simpl.
    destruct (decide (wid = last)) as [-> | Hne].
    + rewrite !bool_decide_eq_true_2 by reflexivity. simpl. lia.
    + rewrite (bool_decide_eq_false_2 (wid = last)) by assumption.
      rewrite (bool_decide_eq_false_2 (last = wid)) by congruence. simpl. lia.
Qed.

(** C1, as amended.  Over any run of the orchestrator, polls and emulator
    iterations in any order, [press_button] is called for the window
    identifier [wid] at most once per arrival of [wid], an arrival being a
    poll that carries [wid] while the identifier acted on last is another
    one.  So as long as the polls carry no other identifier, however many
    of them carry [wid], there is at most one injection for it, and none
    when [wid] was already the identifier acted on last. *)
Theorem injections_once_per_arrival (ts : list Turn) (w : World)
    (wid : option Z) :
  (injections_for wid (run ts w).2
   <= arrivals wid (last_window_id (app w)) ts)%nat /\
  ((forall t, In t ts -> observed t = None \/ observed t = Some wid) ->
   (injections_for wid (run ts w).2 <= 1)%nat /\
   (last_window_id (app w) = wid -> injections_for wid (run ts w).2 = 0%nat)).
Proof.
  pose proof (injections_le_arrivals ts w wid) as Hle.
  split; [exact Hle|]. intros Hall.
  pose proof (arrivals_one_run wid ts Hall (last_window_id (app w))) as Harr.
  split.
  - destruct (bool_decide (last_window_id (app w) = wid)); lia.
  - intros Heq. rewrite bool_decide_eq_true_2 in Harr by assumption. lia.
Qed.

End VoteStateMachine.

Lemma injections_once_per_arrival_witness :
  let ts := [poll_result 5 (Some "a"%string) 12; quiet_tick 16;
             poll_result 5 (Some "a"%string) 12;
             poll_result 5 (Some "a"%string) 12] in
  (main.injections_for (Some 5%Z) (main.run ts fresh_world).2 <= 1)%nat.
Proof.
  intros ts.
  refine (proj1 (proj2 (injections_once_per_arrival ts fresh_world (Some 5)) _)).
  intros t Hin. simpl in Hin.
  destruct Hin as [<- | [<- | [<- | [<- | []]]]]; simpl; auto.
Defined.

(** C1 as first stated does not hold: window 5, then window 6, then
    window 5 again makes two injections for window 5. *)
Lemma identifier_recurring_injects_again : ~ one_injection_per_identifier.
Proof.
  intros H.
  specialize (H [poll_result 5 (Some "a"%string) 12;
                 poll_result 6 (Some "b"%string) 3;
                 poll_result 5 (Some "a"%string) 12] fresh_world (Some 5)).
  vm_compute in H. lia.
Qed.

(** ** The deferred snapshot: the countdown in [emulator_loop] *)

Section DeferredSnapshot.

Import main.

Lemma ticks_nonneg (ts : list Turn) : 0 <= ticks ts.
Proof. induction ts as [|[env|status voters] ts IH]; simpl; lia. Qed.

Lemma post_move_captures_app (evs1 evs2 : list Event) :
  post_move_captures (evs1 ++ evs2)
  = (post_move_captures evs1 + post_move_captures evs2)%nat.
Proof. unfold post_move_captures. now rewrite List.filter_app, length_app. Qed.

(** A poll that injects nothing leaves the countdown alone and captures
    nothing. *)
Lemma poll_without_injection (status : option Status)
    (voters : list (string * string)) (w : World) :
  let r := vote_poll_loop_body status voters w in
  List.filter is_injection r.2 = [] ->
  _post_move_screenshot_frames (app r.1) = _post_move_screenshot_frames (app w)
  /\ post_move_captures r.2 = 0%nat.
Proof.
  unfold vote_poll_loop_body. destruct status as [status|]; simpl; [|auto].
  pose proof (update_state_from_api_effect status (app w)) as H.
  destruct (update_state_from_api status (app w)) as [[c evs]|];
    [destruct H as [_ H] | auto].
  simpl in *.
  destruct (previousResult status) as [prev|].
  - destruct H as [_ H].
    destruct (bool_decide (windowId prev = last_window_id (app w)));
      [destruct H as [-> ->]; auto|].
    destruct (truthy (winner prev)); destruct H as [-> ->]; simpl; auto.
    discriminate.
  - destruct H as (_ & -> & ->). auto.
Qed.

(** The countdown from any value [n >= 0], as long as nothing is
    injected: every iteration of [emulator_loop] takes one off until zero
    is reached, and the one that reaches zero takes the screenshot. *)
Lemma countdown_run (ts : list Turn) :
  forall w : World,
    let n := _post_move_screenshot_frames (app w) in
    0 <= n ->
    List.filter is_injection (run ts w).2 = [] ->
    _post_move_screenshot_frames (app (run ts w).1) = Z.max 0 (n - ticks ts) /\
    post_move_captures (run ts w).2
    = if (0 <? n) && (n <=? ticks ts) then 1%nat else 0%nat.
Proof.
  induction ts as [|t ts IH]; intros w n Hn Hinj; simpl in *.
  - split; [lia|].
    destruct (0 <? n) eqn:H0; destruct (n <=? 0) eqn:H1; simpl; try reflexivity.
    lia.
  - destruct (turn t w) as [w1 evs1] eqn:Ht.
    specialize (IH w1). destruct (run ts w1) as [w2 evs2]. simpl in *.
    rewrite List.filter_app in Hinj. apply app_eq_nil in Hinj.
    destruct Hinj as [Hinj1 Hinj2].
    rewrite post_move_captures_app.
    pose proof (ticks_nonneg ts) as Hk.
    destruct t as [env | status voters]; simpl in Ht.
    + pose proof (emulator_loop_body_effect env w) as H. rewrite Ht in H.
      simpl in H. destruct H as (_ & Hn1 & _ & Hcap). fold n in Hn1, Hcap.
      rewrite Hcap.
      destruct (IH ltac:(rewrite Hn1; destruct (0 <? n) eqn:?; lia) Hinj2)
        as [IHn IHc].
      rewrite IHn, IHc, Hn1. clear IHn IHc Hcap Ht.
      destruct (0 <? n) eqn:H0; simpl.
      * apply Z.ltb_lt in H0.
        destruct (n - 1 =? 0) eqn:H1; simpl.
        -- apply Z.eqb_eq in H1.
           split; [lia|].
           rewrite (proj2 (Z.ltb_ge 0 (n - 1))) by lia. simpl.
           rewrite (proj2 (Z.leb_le n (1 + ticks ts))) by lia. reflexivity.
        -- apply Z.eqb_neq in H1.
           split; [lia|].
           rewrite (proj2 (Z.ltb_lt 0 (n - 1))) by lia. simpl.
           destruct (n - 1 <=? ticks ts) eqn:H2.
           ++ apply Z.leb_le in H2.
              now rewrite (proj2 (Z.leb_le n (1 + ticks ts))) by lia.
           ++ apply Z.leb_gt in H2.
              now rewrite (proj2 (Z.leb_gt n (1 + ticks ts))) by lia.
      * apply Z.ltb_ge in H0. rewrite (proj2 (Z.ltb_ge 0 n)) by lia.
        simpl. split; [lia | reflexivity].
    + pose proof (poll_without_injection status voters w) as H.
      rewrite Ht in H. simpl in H. destruct (H Hinj1) as [Hn1 Hcap].
      rewrite Hcap. simpl.
      destruct (IH ltac:(rewrite Hn1; exact Hn) Hinj2) as [IHn IHc].
      rewrite IHn, IHc, Hn1. fold n. split; reflexivity.
Qed.

(** C7.  When a poll injects a winner the countdown is set to 20.  From
    there, over every continuation of the run in which nothing else is
    injected, each iteration of [emulator_loop] takes exactly one off the
    countdown until it is zero, where it stays; the screenshot of the
    countdown is taken exactly once, by the iteration that reaches zero,
    and never before or after. *)
Theorem deferred_snapshot_fires_once (status : option Status)
    (voters : list (string * string)) (ts : list Turn) (w : World) :
  let armed := turn (Poll status voters) w in
  List.filter is_injection armed.2 <> [] ->
  List.filter is_injection (run ts armed.1).2 = [] ->
  _post_move_screenshot_frames (app armed.1) = 20 /\
  _post_move_screenshot_frames (app (run ts armed.1).1)
  = Z.max 0 (20 - ticks ts) /\
  post_move_captures (run ts armed.1).2
  = if 20 <=? ticks ts then 1%nat else 0%nat.
Proof.
  intros armed Harmed Hquiet.
  assert (H20 : _post_move_screenshot_frames (app armed.1) = 20).
  { unfold armed in *. simpl in *. unfold vote_poll_loop_body in *.
    destruct status as [status|]; simpl in *; [|contradiction].
    pose proof (update_state_from_api_effect status (app w)) as H.
    destruct (update_state_from_api status (app w)) as [[c evs]|];
      [destruct H as [_ H] | contradiction].
    simpl in *.
    destruct (previousResult status) as [prev|].
    - destruct H as [_ H].
      destruct (bool_decide (windowId prev = last_window_id (app w)));
        [destruct H as [_ ->]; contradiction|].
      destruct (truthy (winner prev)); destruct H as [Hn ->];
        [exact Hn | contradiction].
    - destruct H as (_ & _ & ->). contradiction. }
  split; [exact H20|].
  destruct (countdown_run ts armed.1 ltac:(rewrite H20; lia) Hquiet)
    as [Hn Hc].
  rewrite H20 in Hn, Hc. split; [exact Hn | exact Hc].
Qed.


(** X17.  Over any run at all, with the countdown armed again and again:
    every screenshot of the countdown is paid for by an injection of its
    own, or by the arming the run started with. *)
Lemma captures_at_most_armings (ts : list Turn) :
  forall w : World,
    (post_move_captures (run ts w).2
     + armed_count (_post_move_screenshot_frames (app (run ts w).1))
     <= length (List.filter is_injection (run ts w).2)
        + armed_count (_post_move_screenshot_frames (app w)))%nat.
Proof.
  induction ts as [|t ts IH]; intros w; simpl; [lia|].
  destruct (turn t w) as [w1 evs1] eqn:Ht.
  specialize (IH w1). destruct (run ts w1) as [w2 evs2]. simpl in *.
  rewrite post_move_captures_app, List.filter_app, length_app.
  assert (Hturn : (post_move_captures evs1
                   + armed_count (_post_move_screenshot_frames (app w1))
                   <= length (List.filter is_injection evs1)
                      + armed_count (_post_move_screenshot_frames (app w)))%nat).
  { unfold armed_count. destruct t as [env | status voters]; simpl in Ht.
    - pose proof (emulator_loop_body_effect env w) as H. rewrite Ht in H.
      simpl in H. destruct H as (_ & Hn & Hinj & Hcap).
      rewrite Hn, Hinj, Hcap. simpl.
      destruct (0 <? _post_move_screenshot_frames (app w)) eqn:H0; simpl.
      + apply Z.ltb_lt in H0.
        destruct (_post_move_screenshot_frames (app w) - 1 =? 0) eqn:H1.
        * apply Z.eqb_eq in H1. rewrite H1. simpl. lia.
        * apply Z.eqb_neq in H1.
          destruct (0 <? _post_move_screenshot_frames (app w) - 1); lia.
      + rewrite H0. lia.
    - destruct (List.filter is_injection evs1) as [|ev evs] eqn:Hinj.
      + pose proof (poll_without_injection status voters w) as H.
        rewrite Ht in H. simpl in H. destruct (H Hinj) as [-> ->]. simpl. lia.
      + assert (Hcap : post_move_captures evs1 = 0%nat).
        { unfold vote_poll_loop_body in Ht.
          destruct status as [status|]; [|injection Ht as <- <-; reflexivity].
          pose proof (update_state_from_api_effect status (app w)) as H.
          destruct (update_state_from_api status (app w)) as [[c evs']|];
            [destruct H as [_ H] | injection Ht as <- <-; reflexivity].
          injection Ht as <- <-. simpl in H.
          destruct (previousResult status) as [prev|];
            [|destruct H as (_ & _ & ->); reflexivity].
          destruct H as [_ H].
          destruct (bool_decide (windowId prev = last_window_id (app w)));
            [destruct H as [_ ->]; reflexivity|].
          destruct (truthy (winner prev)); destruct H as [_ ->]; reflexivity. }
        rewrite Hcap. simpl length.
        destruct (0 <? _post_move_screenshot_frames (app w1));
          destruct (0 <? _post_move_screenshot_frames (app w)); lia. }
  lia.
Qed.

End DeferredSnapshot.

Lemma deferred_snapshot_fires_once_witness :
  let armed := main.turn (poll_result 5 (Some "a"%string) 12) fresh_world in
  let ts := replicate 7 (quiet_tick 16) ++ [poll_result 6 None 0]
            ++ replicate 18 (quiet_tick 32) in
  main._post_move_screenshot_frames (main.app armed.1) = 20 /\
  main._post_move_screenshot_frames (main.app (main.run ts armed.1).1)
  = Z.max 0 (20 - ticks ts) /\
  main.post_move_captures (main.run ts armed.1).2
  = if 20 <=? ticks ts then 1%nat else 0%nat.
Proof.
  intros armed ts.
  apply (deferred_snapshot_fires_once _ [] ts fresh_world).
  - vm_compute. discriminate.
  - vm_compute. reflexivity.
Defined.

Example end_to_end_snapshot :
  let ts := [poll_result 5 (Some "a"%string) 12;
             poll_result 5 (Some "a"%string) 12;
             poll_result 6 None 0] ++ replicate 30 (quiet_tick 0) in
  main.injections_for (Some 5) (main.run ts fresh_world).2 = 1%nat /\
  main.injections_for (Some 6) (main.run ts fresh_world).2 = 0%nat /\
  main.post_move_captures (main.run ts fresh_world).2 = 1%nat.
Proof. vm_compute. auto. Qed.

(** ** Staged writes: [save_state] and [save_screenshot] *)

Section PathSuffix.

Import Pathlib.

Lemma append_cons (c : ascii) (a b : string) :
  String.append (String c a) b = String c (String.append a b).
Proof. reflexivity. Qed.

Lemma append_length (a b : string) :
  String.length (String.append a b) = (String.length a + String.length b)%nat.
Proof.
  induction a as [|c a IH]; [reflexivity|].
  rewrite append_cons. simpl. now rewrite IH.
Qed.

Lemma append_inj_l (a b c : string) :
  String.append a b = String.append a c -> b = c.
Proof.
  induction a as [|x a IH]; intros H; [exact H|].
  rewrite !append_cons in H. injection H as H. now apply IH.
Qed.

Lemma str_take_drop (n : nat) (s : string) :
  String.append (str_take n s) (str_drop n s) = s.
Proof.
  revert s. induction n as [|n IH]; intros [|c s]; try reflexivity.
  simpl. rewrite append_cons. now rewrite IH.
Qed.

Lemma str_drop_length (n : nat) (s : string) :
  String.length (str_drop n s) = (String.length s - n)%nat.
Proof.
  revert s. induction n as [|n IH]; intros [|c s]; simpl; try reflexivity.
  apply IH.
Qed.

(** The text from the last dot on has its last dot in front. *)
Lemma rfind_dot_drop (s : string) (i : nat) :
  rfind_dot s = Some i -> rfind_dot (str_drop i s) = Some O.
Proof.
  revert i. induction s as [|c s IH]; intros i; simpl; [discriminate|].
  destruct (rfind_dot s) as [j|] eqn:Hj.
  - intros [= <-]. simpl. now apply IH.
  - destruct (Ascii.eqb c ".") eqn:Hc; [|discriminate].
    intros [= <-]. simpl. now rewrite Hj, Hc.
Qed.

Lemma rfind_dot_bound (s : string) (i : nat) :
  rfind_dot s = Some i -> (i < String.length s)%nat.
Proof.
  revert i. induction s as [|c s IH]; intros i; simpl; [discriminate|].
  destruct (rfind_dot s) as [j|].
  - intros [= <-]. specialize (IH j eq_refl). lia.
  - destruct (Ascii.eqb c "."); [|discriminate]. intros [= <-]. lia.
Qed.

Lemma path_snoc (p : Path) :
  name p <> EmptyString -> p = parent p ++ [name p].
Proof.
  unfold name, parent. intros Hne.
  destruct p as [|x p]; [now contradiction Hne|].
  apply app_removelast_last. discriminate.
Qed.

(** When [with_suffix] returns the path it was given, the suffix asked
    for is the suffix the path has. *)
Lemma with_suffix_same (p : Path) (suf : string) :
  suf <> EmptyString -> with_suffix p suf = Some p -> suffix p = suf.
Proof.
  intros Hsuf. unfold with_suffix.
  destruct (has_sep suf); [discriminate|].
  destruct (_ || _); [discriminate|].
  destruct (String.eqb (name p) "") eqn:Hname; [discriminate|].
  apply String.eqb_neq in Hname.
  intros [= Heq].
  pose proof (eq_trans Heq (path_snoc p Hname)) as Heq'. clear Heq.
  apply app_inv_head in Heq'. injection Heq' as Heq.
  destruct (String.eqb (suffix p) "") eqn:Hold.
  - exfalso. apply (f_equal String.length) in Heq.
    rewrite append_length in Heq.
    destruct suf; [now apply Hsuf | simpl in Heq; lia].
  - apply String.eqb_neq in Hold. unfold suffix in *.
    destruct (rfind_dot (name p)) as [i|] eqn:Hi; [|now contradiction Hold].
    destruct (_ && _); [|now contradiction Hold].
    assert (Hlen : (String.length (name p)
                    - String.length (str_drop i (name p)))%nat = i).
    { rewrite str_drop_length. apply rfind_dot_bound in Hi. lia. }
    rewrite Hlen in Heq.
    pose proof (eq_trans Heq (eq_sym (str_take_drop i (name p)))) as Heq'.
    apply append_inj_l in Heq'. now symmetry.
Qed.

(** The temporary path of [save_screenshot] is never the destination:
    the suffix of a path has one dot, [.tmp.png] has two. *)
Lemma with_suffix_tmp_png_fresh (p t : Path) :
  with_suffix p ".tmp.png" = Some t -> t <> p.
Proof.
  intros Hw ->. apply with_suffix_same in Hw; [|discriminate].
  unfold suffix in Hw.
  destruct (rfind_dot (name p)) as [i|] eqn:Hi; [|discriminate].
  destruct (_ && _); [|discriminate].
  apply rfind_dot_drop in Hi. rewrite Hw in Hi. discriminate.
Qed.

(** The temporary path of [save_state] is the destination only when the
    destination ends in [.tmp]. *)
Lemma with_suffix_tmp_fresh (p t : Path) :
  suffix p <> ".tmp"%string -> with_suffix p ".tmp" = Some t -> t <> p.
Proof.
  intros Hsuf Hw ->. apply Hsuf. now apply with_suffix_same.
Qed.

End PathSuffix.

Section StagedWrite.

Import emulator.

(** With the temporary path away from the destination, a staged write
    that fails leaves the destination exactly as it was, and one that
    succeeds leaves the complete new contents there. *)
Lemma staged_write_dest (temp dest : Pathlib.Path) (data : list Z)
    (f : Fs.faults) (d : Fs.Disk) :
  temp <> dest ->
  let r := staged_write temp dest data f d in
  (r.1 = false -> r.2 !! dest = d !! dest) /\
  (r.1 = true -> r.2 !! dest = Some data).
Proof.
  intros Hne. unfold staged_write, Fs.open_wb, Fs.write_all, Fs.replace.
  destruct (Fs.open_raises f); simpl; [split; [reflexivity | discriminate]|].
  destruct (Fs.write_result f) as [|k]; simpl.
  - destruct (Fs.replace_raises f); simpl.
    + split; [|discriminate]. intros _. now rewrite !lookup_insert_ne.
    + rewrite lookup_insert_eq. rewrite decide_False by exact Hne. simpl.
      split; [discriminate|]. intros _. apply lookup_insert_eq.
  - split; [|discriminate]. intros _. now rewrite !lookup_insert_ne.
Qed.

(** X29.  [save_screenshot]: a failure at any point leaves the screenshot
    file as it was, for every screenshot path, and a success leaves the
    whole new image there. *)
Lemma save_screenshot_keeps_old (png : list Z) (f : Fs.faults)
    (e : Emulator) (d : Fs.Disk) :
  let r := save_screenshot png f e d in
  (r.1 = false -> r.2 !! screenshot_path e = d !! screenshot_path e) /\
  (r.1 = true -> r.2 !! screenshot_path e = Some png).
Proof.
  unfold save_screenshot.
  destruct (Pathlib.with_suffix (screenshot_path e) ".tmp.png") as [t|] eqn:Ht;
    simpl; [|split; [reflexivity | discriminate]].
  apply staged_write_dest. now apply with_suffix_tmp_png_fresh in Ht.
Qed.

(** X30.  [save_state]: the same, as long as the save state path does not
    end in [.tmp]. *)
Lemma save_state_keeps_old (data : list Z) (f : Fs.faults) (now : Time)
    (e : Emulator) (d : Fs.Disk) :
  Pathlib.suffix (save_state_path e) <> ".tmp"%string ->
  let r := save_state data f now e d in
  (r.1.1 = false -> r.2 !! save_state_path e = d !! save_state_path e) /\
  (r.1.1 = true -> r.2 !! save_state_path e = Some data).
Proof.
  intros Hsuf. unfold save_state.
  destruct (Pathlib.with_suffix (save_state_path e) ".tmp") as [t|] eqn:Ht;
    simpl; [|split; [reflexivity | discriminate]].
  apply (with_suffix_tmp_fresh _ _ Hsuf) in Ht.
  pose proof (staged_write_dest t (save_state_path e) data f d Ht) as H.
  destruct (staged_write t (save_state_path e) data f d) as [[|] d'];
    simpl in *; exact H.
Qed.

Example save_state_default_path_failure :
  let dest := ["data"; "pokemon.save"]%string in
  let d : Fs.Disk := {[ dest := [10; 20; 30; 40; 50] ]} in
  let r := save_state [1; 2; 3; 4] disk_full_after_two 0 fresh_emulator d in
  r.1.1 = false /\
  r.2 !! dest = Some [10; 20; 30; 40; 50] /\
  r.2 !! ["data"; "pokemon.tmp"]%string = Some [1; 2].
Proof. vm_compute. auto. Qed.

(** C9, where the code departs from it.  With the save state path
    [data/pokemon.tmp] the temporary path [with_suffix] computes is the
    destination itself, so [save_state] opens and truncates the existing
    save; when the write then fails after two bytes, [save_state] returns
    false and the file that held the old save holds those two bytes. *)
Theorem save_state_tmp_destination_clobbered :
  let dest := ["data"; "pokemon.tmp"]%string in
  let r := save_state [1; 2; 3; 4] disk_full_after_two 0
             emulator_saving_to_tmp disk_with_save in
  Pathlib.with_suffix (save_state_path emulator_saving_to_tmp) ".tmp"
  = Some dest /\
  disk_with_save !! dest = Some [10; 20; 30; 40; 50] /\
  r.1.1 = false /\
  r.2 !! dest = Some [1; 2].
Proof. vm_compute. auto. Qed.

End StagedWrite.

(** ** The writer threads and the running flag *)

Section WriterThreads.

Import compositor.

Lemma send_frame_running (render_frame : StreamState -> option (list Z))
    (state : StreamState) (s : RTMPStreamer) :
  running (send_frame render_frame state s).2 = running s.
Proof.
  unfold send_frame. destruct (running s) eqn:Hr; simpl; [|assumption].
  destruct (render_frame state); [|assumption].
  destruct (put_nowait _ _ _); assumption.
Qed.

(** No step of a session raises the flag. *)
Lemma step_flag_stays_false (l : label) (x y : Session) :
  step l x = Some y ->
  running (streamer x) = false -> running (streamer y) = false.
Proof.
  intros Hstep Hoff.
  step_cases l x Hstep; simpl;
    rewrite ?send_frame_running, ?send_audio_running;
    try assumption; try reflexivity.
Qed.

(** With the flag down, what a thread has written plus what it may still
    write never grows, and a thread that has returned stays so. *)
Lemma step_after_stop (l : label) (x y : Session) :
  step l x = Some y ->
  running (streamer x) = false ->
  (length (video_pipe y) + video_in_flight y
   <= length (video_pipe x) + video_in_flight x)%nat /\
  (length (audio_pipe y) + audio_in_flight y
   <= length (audio_pipe x) + audio_in_flight x)%nat /\
  (video x = VExit -> video y = VExit) /\
  (audio x = AExit -> audio y = AExit).
Proof.
  intros Hstep Hoff. unfold video_in_flight, audio_in_flight.
  step_cases l x Hstep; simpl; rewrite ?Hoff, ?Hv, ?Ha; simpl;
    rewrite ?length_app; simpl;
    try match goal with due : bool |- _ => destruct due end;
    repeat split; try lia; try discriminate; try reflexivity.
Qed.

Lemma exec_after_stop (ls : list label) :
  forall x z : Session,
    exec ls x = Some z ->
    running (streamer x) = false ->
    running (streamer z) = false /\
    (length (video_pipe z) + video_in_flight z
     <= length (video_pipe x) + video_in_flight x)%nat /\
    (length (audio_pipe z) + audio_in_flight z
     <= length (audio_pipe x) + audio_in_flight x)%nat /\
    (video x = VExit -> video z = VExit) /\
    (audio x = AExit -> audio z = AExit).
Proof.
  induction ls as [|l ls IH]; intros x z Hexec Hoff; simpl in Hexec.
  - injection Hexec as <-. repeat split; auto.
  - destruct (step l x) as [y|] eqn:Hstep; [|discriminate].
    pose proof (step_flag_stays_false l x y Hstep Hoff) as Hoff'.
    destruct (step_after_stop l x y Hstep Hoff) as (Hv & Ha & Hve & Hae).
    destruct (IH y z Hexec Hoff') as (Hz & Hv' & Ha' & Hve' & Hae').
    repeat split; auto; lia.
Qed.

(** Pipes only grow: a step appends to them or leaves them. *)
Lemma step_pipes_grow (l : label) (x y : Session) :
  step l x = Some y ->
  video_pipe x `prefix_of` video_pipe y /\
  audio_pipe x `prefix_of` audio_pipe y.
Proof.
  intros Hstep.
  step_cases l x Hstep; simpl;
    split; try reflexivity; apply prefix_app_r; reflexivity.
Qed.

Lemma send_frame_audio_buffer (render_frame : StreamState -> option (list Z))
    (state : StreamState) (s : RTMPStreamer) :
  _audio_buffer (send_frame render_frame state s).2 = _audio_buffer s.
Proof.
  unfold send_frame. destruct (running s); simpl; [|reflexivity].
  destruct (render_frame state); [|reflexivity].
  destruct (put_nowait _ _ _); reflexivity.
Qed.

(** The bound of C3 holds throughout a session, with the audio writer
    taking chunks out between the calls of [send_audio]. *)
Lemma step_buffer_bounded (l : label) (x y : Session) :
  step l x = Some y ->
  (length (_audio_buffer (streamer x)) <= max_samples)%nat ->
  (length (_audio_buffer (streamer y)) <= max_samples)%nat.
Proof.
  intros Hstep Hlen.
  step_cases l x Hstep; simpl; rewrite ?send_frame_audio_buffer;
    first
      [ exact Hlen
      | pose proof (pop_chunk_suffix samples_per_chunk
                      (_audio_buffer (streamer x))) as Hsuf;
        rewrite Hpop in Hsuf; apply suffix_length in Hsuf;
        simpl in Hsuf; lia
      | match goal with
        | |- context [send_audio ?a ?g _] =>
            pose proof (send_audio_buffer (a, g) (streamer x) Hlen) as Hbuf
        end;
        simpl in Hbuf; rewrite Hbuf;
        apply append_samples_bounded, max_samples_pos ].
Qed.

(** X23.  Over a whole session, with [send_audio] adding samples and the
    audio writer taking chunks out in any order, the audio buffer never
    holds more than [max_samples] = 48000 samples. *)
Lemma session_buffer_bounded (ls : list label) :
  forall x z : Session,
    exec ls x = Some z ->
    (length (_audio_buffer (streamer x)) <= max_samples)%nat ->
    (length (_audio_buffer (streamer z)) <= max_samples)%nat.
Proof.
  induction ls as [|l ls IH]; intros x z Hexec Hlen; simpl in Hexec.
  - now injection Hexec as <-.
  - destruct (step l x) as [y|] eqn:Hstep; [|discriminate].
    eapply IH; [eassumption|]. eapply step_buffer_bounded; eassumption.
Qed.

Lemma exec_pipes_grow (ls : list label) :
  forall x z : Session,
    exec ls x = Some z ->
    video_pipe x `prefix_of` video_pipe z /\
    audio_pipe x `prefix_of` audio_pipe z.
Proof.
  induction ls as [|l ls IH]; intros x z Hexec; simpl in Hexec.
  - injection Hexec as <-. split; reflexivity.
  - destruct (step l x) as [y|] eqn:Hstep; [|discriminate].
    destruct (step_pipes_grow l x y Hstep) as [Hv Ha].
    destruct (IH y z Hexec) as [Hv' Ha'].
    split; etransitivity; eassumption.
Qed.

Lemma prefix_same_length {A} (l1 l2 : list A) :
  l1 `prefix_of` l2 -> (length l2 <= length l1)%nat -> l2 = l1.
Proof.
  intros [k ->] Hlen. rewrite length_app in Hlen.
  destruct k; [now rewrite app_nil_r | simpl in Hlen; lia].
Qed.

Lemma step_counts_down (l : label) (x y : Session) :
  step l x = Some y ->
  running (streamer x) = false ->
  (video_steps_left (video y) + (if is_video_step l then 1 else 0)
   <= video_steps_left (video x))%nat /\
  (audio_steps_left (audio y) + (if is_audio_step l then 1 else 0)
   <= audio_steps_left (audio x))%nat.
Proof.
  intros Hstep Hoff.
  step_cases l x Hstep;
    cbn [set_video set_audio set_streamer stop_flag write_video write_audio
         video audio is_video_step is_audio_step];
    rewrite ?Hoff, ?Hv, ?Ha;
    try (match goal with due : bool |- _ => destruct due end);
    cbn [video_steps_left audio_steps_left]; lia.
Qed.

(** With the flag down every step of a writer brings it nearer to its
    return: what is left of its way shrinks by the steps it takes. *)
Lemma exec_counts_down (ls : list label) :
  forall x z : Session,
    exec ls x = Some z ->
    running (streamer x) = false ->
    (video_steps_left (video z) + length (List.filter is_video_step ls)
     <= video_steps_left (video x))%nat /\
    (audio_steps_left (audio z) + length (List.filter is_audio_step ls)
     <= audio_steps_left (audio x))%nat.
Proof.
  induction ls as [|l ls IH]; intros x z Hexec Hoff; simpl in Hexec.
  - injection Hexec as <-. simpl. lia.
  - destruct (step l x) as [y|] eqn:Hstep; [|discriminate].
    pose proof (step_flag_stays_false l x y Hstep Hoff) as Hoff'.
    destruct (step_counts_down l x y Hstep Hoff) as [Hv Ha].
    destruct (IH y z Hexec Hoff') as [Hv' Ha'].
    cbn [List.filter].
    destruct (is_video_step l), (is_audio_step l); cbn [length]; lia.
Qed.

Lemma video_returned (pc : video_pc) :
  video_steps_left pc = 0%nat -> pc = VExit.
Proof. destruct pc; simpl; try discriminate; reflexivity. Qed.

Lemma audio_returned (pc : audio_pc) :
  audio_steps_left pc = 0%nat -> pc = AExit.
Proof. destruct pc; simpl; try discriminate; reflexivity. Qed.

(** C8, as amended.  A broken pipe met by the video writer's write sets
    the running flag to false and makes that thread return, with nothing
    written by the failed write.  In every continuation of the session the
    flag stays false and the video writer stays returned, so its pipe gets
    nothing more: no retry.  The audio writer writes at most one more
    chunk, and none when the failure found it at its test of the flag,
    asleep, opening its pipe or returned: the one possible write is that of
    the iteration which had passed the test before the flag fell.  The
    audio writer has returned as soon as it has taken the steps its place
    in the loop leaves it, four at most (the clock check, the extraction,
    the write, the test of the flag); nothing makes it take them, and a
    writer that waits in [open] for a reader takes its next step only when
    [open] returns.  The same holds with the two writers exchanged, the
    video writer being left three steps at most. *)
Theorem broken_pipe_is_terminal (x y z : Session) (ls : list label) :
  exec ls y = Some z ->
  (step VBrokenPipe x = Some y ->
     running (streamer y) = false /\ video y = VExit /\
     video_pipe y = video_pipe x /\ audio_pipe y = audio_pipe x /\
     running (streamer z) = false /\ video z = VExit /\
     video_pipe z = video_pipe x /\
     (length (audio_pipe z) <= length (audio_pipe x) + audio_in_flight x)%nat /\
     (audio_in_flight x = 0%nat -> audio_pipe z = audio_pipe x) /\
     (audio_steps_left (audio x) <= 4)%nat /\
     ((audio_steps_left (audio x)
       <= length (List.filter is_audio_step ls))%nat -> audio z = AExit)) /\
  (step ABrokenPipe x = Some y ->
     running (streamer y) = false /\ audio y = AExit /\
     video_pipe y = video_pipe x /\ audio_pipe y = audio_pipe x /\
     running (streamer z) = false /\ audio z = AExit /\
     audio_pipe z = audio_pipe x /\
     (length (video_pipe z) <= length (video_pipe x) + video_in_flight x)%nat /\
     (video_in_flight x = 0%nat -> video_pipe z = video_pipe x) /\
     (video_steps_left (video x) <= 3)%nat /\
     ((video_steps_left (video x)
       <= length (List.filter is_video_step ls))%nat -> video z = VExit)).
Proof.
  intros Hexec.
  destruct (exec_pipes_grow ls y z Hexec) as [Hgv Hga].
  split; intros Hstep.
  - assert (Hy : running (streamer y) = false /\ video y = VExit /\
                 video_pipe y = video_pipe x /\ audio_pipe y = audio_pipe x /\
                 audio_in_flight y = audio_in_flight x /\ audio y = audio x).
    { unfold step in Hstep. unfold audio_in_flight.
      destruct (video x) eqn:Hvx; try discriminate.
      destruct (audio x) eqn:Hax; injection Hstep as <-; simpl;
        rewrite ?Hax; repeat split; reflexivity. }
    destruct Hy as (Hoff & Hv & Hvp & Hap & Hfl & Hpc).
    destruct (exec_after_stop ls y z Hexec Hoff) as (Hz & Hlv & Hla & Hve & _).
    destruct (exec_counts_down ls y z Hexec Hoff) as [_ Hcount].
    assert (Hvz : video_pipe z = video_pipe y).
    { apply prefix_same_length; [assumption|].
      unfold video_in_flight in Hlv at 2. rewrite Hv in Hlv. lia. }
    split; [exact Hoff|]. split; [exact Hv|]. split; [exact Hvp|].
    split; [exact Hap|]. split; [exact Hz|]. split; [now apply Hve|].
    split; [congruence|]. split; [rewrite <- Hap, <- Hfl; lia|].
    split; [|split].
    + intros H0. rewrite <- Hap. apply prefix_same_length; [assumption|].
      rewrite Hfl, H0 in Hla. lia.
    + destruct (audio x); simpl; lia.
    + intros Hsteps. apply audio_returned. rewrite Hpc in Hcount. lia.
  - assert (Hy : running (streamer y) = false /\ audio y = AExit /\
                 video_pipe y = video_pipe x /\ audio_pipe y = audio_pipe x /\
                 video_in_flight y = video_in_flight x /\ video y = video x).
    { unfold step in Hstep. unfold video_in_flight.
      destruct (video x) eqn:Hvx; destruct (audio x) eqn:Hax;
        try discriminate; injection Hstep as <-; simpl;
        rewrite ?Hvx; repeat split; reflexivity. }
    destruct Hy as (Hoff & Ha & Hvp & Hap & Hfl & Hpc).
    destruct (exec_after_stop ls y z Hexec Hoff) as (Hz & Hlv & Hla & _ & Hae).
    destruct (exec_counts_down ls y z Hexec Hoff) as [Hcount _].
    assert (Haz : audio_pipe z = audio_pipe y).
    { apply prefix_same_length; [assumption|].
      unfold audio_in_flight in Hla at 2. rewrite Ha in Hla. lia. }
    split; [exact Hoff|]. split; [exact Ha|]. split; [exact Hvp|].
    split; [exact Hap|]. split; [exact Hz|]. split; [now apply Hae|].
    split; [congruence|]. split; [rewrite <- Hvp, <- Hfl; lia|].
    split; [|split].
    + intros H0. rewrite <- Hvp. apply prefix_same_length; [assumption|].
      rewrite Hfl, H0 in Hlv. lia.
    + destruct (video x); simpl; lia.
    + intros Hsteps. apply video_returned. rewrite Hpc in Hcount. lia.
Qed.

End WriterThreads.

Lemma broken_pipe_is_terminal_witness :
  compositor.running (compositor.streamer at_break) = false /\
  compositor.video at_break = compositor.VExit /\
  compositor.video_pipe at_break = compositor.video_pipe before_break /\
  compositor.audio_pipe at_break = compositor.audio_pipe before_break /\
  compositor.running (compositor.streamer at_end) = false /\
  compositor.video at_end = compositor.VExit /\
  compositor.video_pipe at_end = compositor.video_pipe before_break /\
  (length (compositor.audio_pipe at_end)
   <= length (compositor.audio_pipe before_break)
      + audio_in_flight before_break)%nat /\
  (audio_in_flight before_break = 0%nat ->
   compositor.audio_pipe at_end = compositor.audio_pipe before_break) /\
  (audio_steps_left (compositor.audio before_break) <= 4)%nat /\
  ((audio_steps_left (compositor.audio before_break)
    <= length (List.filter is_audio_step after_break))%nat ->
   compositor.audio at_end = compositor.AExit).
Proof.
  assert (Hexec : compositor.exec after_break at_break = Some at_end)
    by (vm_compute; reflexivity).
  assert (Hstep : compositor.step compositor.VBrokenPipe before_break
                  = Some at_break) by (vm_compute; reflexivity).
  exact (proj1 (broken_pipe_is_terminal before_break at_break at_end
                  after_break Hexec) Hstep).
Defined.

Example audio_writes_once_more :
  compositor.running (compositor.streamer at_break) = false /\
  compositor.audio_pipe at_break = [] /\
  compositor.audio_pipe at_end = [replicate 3200 0] /\
  compositor.audio at_end = compositor.AExit.
Proof. vm_compute. auto. Qed.

(** C8 as first stated does not hold: the audio writer, caught between
    its test of the flag and its write when the video pipe breaks, still
    writes its chunk after the flag has become false. *)
Lemma audio_write_after_flag_fell : ~ no_write_after_stop.
Proof.
  intros H.
  destruct (H audio_caught_in_flight [compositor.AWriteOk] at_break
              (default compositor.started
                 (compositor.exec [compositor.AWriteOk] at_break)))
    as [_ Haudio]; try (vm_compute; reflexivity).
  vm_compute in Haudio. discriminate Haudio.
Qed.

(** ** The gain stage of [send_audio] *)

Section Gain.

Import Float32 compositor.

Lemma wrap16_small (z : Z) : -32768 <= z <= 32767 -> wrap16 z = z.
Proof. intros H. unfold wrap16. rewrite Z.mod_small by lia. lia. Qed.


Lemma clamp16_small (z : Z) : -32768 <= z <= 32767 -> clamp16 z = z.
Proof. unfold clamp16. lia. Qed.

Lemma quot_scaled_ge (a b k : Z) : 0 < k -> b * k <= a -> b <= Z.quot a k.
Proof.
  intros Hk H. rewrite <- (Z.quot_mul b k) by lia.
  apply Z.quot_le_mono; lia.
Qed.

Lemma quot_scaled_le (a b k : Z) : 0 < k -> a <= b * k -> Z.quot a k <= b.
Proof.
  intros Hk H. rewrite <- (Z.quot_mul b k) by lia.
  apply Z.quot_le_mono; lia.
Qed.

(** Clipping a float to the 16-bit range and converting it to an integer
    is saturation of its integer part: the conversion never wraps. *)
Lemma clip_astype_clamps (x : float32) :
  astype_int16 (clip (-32768) 32767 x)
  = match x with
    | S754_nan => 0
    | S754_infinity s => if s then -32768 else 32767
    | _ => clamp16 (default 0 (trunc x))
    end.
Proof.
  destruct x as [s | s | | s m e]; try (destruct s; reflexivity);
    try reflexivity.
  unfold clip, compare_int, astype_int16, trunc.
  destruct (0 <=? e) eqn:He; simpl default.
  - set (v := signed s m * 2 ^ e).
    destruct (Z.compare_spec v (-32768)) as [Hlo | Hlo | Hlo];
      [| unfold clamp16; rewrite Z.max_l by lia; reflexivity |];
      (destruct (Z.compare_spec v 32767) as [Hhi | Hhi | Hhi];
       [| | unfold clamp16; rewrite Z.min_l, Z.max_r by lia; reflexivity]);
      rewrite He; fold v;
      rewrite wrap16_small, clamp16_small by lia; reflexivity.
  - apply Z.leb_gt in He.
    assert (Hk : 0 < 2 ^ (- e)) by (apply Z.pow_pos_nonneg; lia).
    set (k := 2 ^ (- e)) in *. set (v := signed s m).
    assert (Hin : -32768 * k <= v <= 32767 * k ->
                  wrap16 (Z.quot v k) = clamp16 (Z.quot v k)).
    { intros [H1 H2].
      pose proof (quot_scaled_ge v (-32768) k Hk H1).
      pose proof (quot_scaled_le v 32767 k Hk H2).
      rewrite wrap16_small, clamp16_small by lia. reflexivity. }
    destruct (Z.compare_spec v (-32768 * k)) as [Hlo | Hlo | Hlo].
    + destruct (Z.compare_spec v (32767 * k)) as [Hhi | Hhi | Hhi]; try lia.
      rewrite (proj2 (Z.leb_gt 0 e)) by lia. fold k v. apply Hin. lia.
    + pose proof (quot_scaled_le v (-32768) k Hk ltac:(lia)).
      unfold clamp16. rewrite Z.max_l by lia. reflexivity.
    + destruct (Z.compare_spec v (32767 * k)) as [Hhi | Hhi | Hhi].
      * rewrite (proj2 (Z.leb_gt 0 e)) by lia. fold k v. apply Hin. lia.
      * rewrite (proj2 (Z.leb_gt 0 e)) by lia. fold k v. apply Hin. lia.
      * pose proof (quot_scaled_ge v 32767 k Hk ltac:(lia)).
        unfold clamp16. rewrite Z.min_l, Z.max_r by lia. reflexivity.
Qed.

Lemma boost_clamps (g : float32) (s : Z) :
  boost g s
  = match product g s with
    | S754_nan => 0
    | S754_infinity sign => if sign then -32768 else 32767
    | _ => clamp16 (default 0 (trunc (product g s)))
    end.
Proof. unfold boost, product. apply clip_astype_clamps. Qed.


End Gain.

(** ** Rounding in the float32 product never undercuts an integer bound *)

Section Rounding.

Import Float32.

Lemma all_from_spec (f : Z -> bool) (n : nat) :
  forall lo, all_from f lo n = true ->
  forall z, lo <= z < lo + Z.of_nat n -> f z = true.
Proof.
  induction n as [|n IH]; intros lo Hall z Hz; [lia|].
  simpl in Hall. apply andb_true_iff in Hall. destruct Hall as [Hlo Hrest].
  destruct (Z.eq_dec z lo) as [-> | Hne]; [exact Hlo|].
  apply (IH (lo + 1) Hrest). lia.
Qed.

Lemma of_int_exact_int16 :
  all_from of_int_exact (-32768) (Z.to_nat 65536) = true.
Proof. vm_compute. reflexivity. Qed.

Lemma digits2_lower (p : positive) :
  2 ^ (Z.pos (digits2_pos p) - 1) <= Z.pos p.
Proof.
  induction p as [p IH | p IH |]; simpl digits2_pos;
    rewrite ?Pos2Z.inj_succ; [| |simpl; lia];
    replace (Z.succ (Z.pos (digits2_pos p)) - 1)
      with (Z.succ (Z.pos (digits2_pos p) - 1)) by lia;
    rewrite Z.pow_succ_r by lia; lia.
Qed.

Lemma shr_1_m (r : shr_record) :
  0 <= shr_m r -> shr_m (shr_1 r) = shr_m r / 2 /\ 0 <= shr_m (shr_1 r).
Proof.
  destruct r as [m rb sb]. simpl. intros Hm.
  destruct m as [|[p|p|]|p]; simpl; try lia.
  - split; [reflexivity | lia].
  - split; [|lia]. rewrite Pos2Z.inj_xI.
    apply (Z.div_unique _ _ _ 1); lia.
  - split; [|lia]. rewrite Pos2Z.inj_xO.
    apply (Z.div_unique _ _ _ 0); lia.
  - split; [reflexivity | lia].
Qed.

Lemma pow2_xO (p : positive) : 2 ^ Z.pos p~0 = 2 ^ Z.pos p * 2 ^ Z.pos p.
Proof. rewrite <- Z.pow_add_r by lia. f_equal. lia. Qed.

Lemma pow2_xI (p : positive) :
  2 ^ Z.pos p~1 = 2 * (2 ^ Z.pos p * 2 ^ Z.pos p).
Proof.
  rewrite <- Z.pow_add_r by lia. rewrite <- Z.pow_succ_r by lia.
  f_equal. lia.
Qed.

Lemma iter_shr_1_m (p : positive) :
  forall r : shr_record,
    0 <= shr_m r ->
    shr_m (SpecFloat.iter_pos shr_1 p r) = shr_m r / 2 ^ Z.pos p /\
    0 <= shr_m (SpecFloat.iter_pos shr_1 p r).
Proof.
  induction p as [p IH | p IH |]; intros r Hr; cbn [SpecFloat.iter_pos].
  - destruct (shr_1_m r Hr) as [H1 H1'].
    destruct (IH _ H1') as [H2 H2'].
    destruct (IH _ H2') as [H3 H3'].
    split; [|exact H3']. rewrite H3, H2, H1.
    assert (Hp : 0 < 2 ^ Z.pos p) by (apply Z.pow_pos_nonneg; lia).
    rewrite !Z.div_div by lia. f_equal. rewrite pow2_xI. ring.
  - destruct (IH _ Hr) as [H2 H2'].
    destruct (IH _ H2') as [H3 H3'].
    split; [|exact H3']. rewrite H3, H2.
    assert (Hp : 0 < 2 ^ Z.pos p) by (apply Z.pow_pos_nonneg; lia).
    rewrite !Z.div_div by lia. f_equal. rewrite pow2_xO. ring.
  - destruct (shr_1_m r Hr) as [H1 H1']. split; [|exact H1'].
    rewrite H1. reflexivity.
Qed.

(** The shift [shr_fexp] makes: the new exponent, and the mantissa as a
    quotient. *)
Lemma shr_fexp_m (m e : Z) (l : location) :
  0 <= m ->
  let e' := Z.max e (fexp prec emax (Zdigits2 m + e)) in
  (shr_fexp prec emax m e l).2 = e' /\
  shr_m (shr_fexp prec emax m e l).1 = m / 2 ^ (e' - e) /\
  0 <= shr_m (shr_fexp prec emax m e l).1.
Proof.
  intros Hm e'. unfold shr_fexp, shr.
  assert (Hrec : shr_m (shr_record_of_loc m l) = m)
    by (destruct l as [|[]]; reflexivity).
  set (F := fexp prec emax (Zdigits2 m + e)) in *.
  destruct (F - e) as [|p|p] eqn:Hn; simpl.
  - replace (e' - e) with 0 by lia. rewrite Hrec, Z.div_1_r.
    split; [|split]; lia.
  - destruct (iter_shr_1_m p (shr_record_of_loc m l)) as [H1 H2];
      [rewrite Hrec; lia|].
    rewrite Hrec in H1.
    replace (e' - e) with (Z.pos p) by lia.
    split; [|split]; [lia | exact H1 | exact H2].
  - replace (e' - e) with 0 by lia. rewrite Hrec, Z.div_1_r.
    split; [|split]; lia.
Qed.

Lemma scaled_ge_mono (m m' e b : Z) :
  m <= m' -> scaled_ge m e b -> scaled_ge m' e b.
Proof.
  unfold scaled_ge. intros Hm H.
  assert (0 < 2 ^ Z.max 0 e) by (apply Z.pow_pos_nonneg; lia). nia.
Qed.

(** Moving a factor [2^k] from the mantissa into the exponent. *)
Lemma scaled_ge_shift (m e b k : Z) :
  0 <= k -> scaled_ge m e b -> scaled_ge (m * 2 ^ k) (e - k) b.
Proof.
  unfold scaled_ge. intros Hk H.
  assert (Hpk : 0 < 2 ^ k) by (apply Z.pow_pos_nonneg; lia).
  destruct (Z.le_gt_cases 0 e) as [He | He].
  - rewrite (Z.max_l 0 (- e)), (Z.max_r 0 e) in H by lia.
    rewrite Z.pow_0_r in H.
    destruct (Z.le_gt_cases k e) as [Hke | Hke].
    + rewrite (Z.max_l 0 (- (e - k))), (Z.max_r 0 (e - k)) by lia.
      rewrite Z.pow_0_r, <- Z.mul_assoc, <- Z.pow_add_r by lia.
      now replace (k + (e - k)) with e by lia.
    + rewrite (Z.max_r 0 (- (e - k))), (Z.max_l 0 (e - k)) by lia.
      rewrite Z.pow_0_r.
      replace k with (e + - (e - k)) at 2 by lia.
      rewrite Z.pow_add_r by lia.
      assert (0 < 2 ^ (- (e - k))) by (apply Z.pow_pos_nonneg; lia). nia.
  - rewrite (Z.max_r 0 (- e)), (Z.max_l 0 e) in H by lia.
    rewrite (Z.max_r 0 (- (e - k))), (Z.max_l 0 (e - k)) by lia.
    rewrite Z.pow_0_r in *.
    replace (- (e - k)) with (- e + k) by lia.
    rewrite Z.pow_add_r by lia. nia.
Qed.

(** The shift of [shr_fexp] keeps a mantissa and exponent above an
    integer bound of at most 24 bits. *)
Lemma shift_keeps_ge (m e b : Z) :
  0 <= m -> 0 < b <= 2 ^ 24 -> scaled_ge m e b ->
  let e' := Z.max e (fexp prec emax (Zdigits2 m + e)) in
  scaled_ge (m / 2 ^ (e' - e)) e' b.
Proof.
  intros Hm Hb H e'.
  destruct (Z.le_gt_cases (fexp prec emax (Zdigits2 m + e)) e) as [Hno | Hsh].
  - replace e' with e by lia. now rewrite Z.sub_diag, Z.div_1_r.
  - assert (He' : e' = fexp prec emax (Zdigits2 m + e)) by lia.
    assert (Hn : 0 < 2 ^ (e' - e)) by (apply Z.pow_pos_nonneg; lia).
    destruct (Z.le_gt_cases e' 0) as [Hneg | Hpos].
    + unfold scaled_ge in *.
      rewrite (Z.max_r 0 (- e)), (Z.max_l 0 e) in H by lia.
      rewrite (Z.max_r 0 (- e')), (Z.max_l 0 e') by lia.
      rewrite Z.pow_0_r, Z.mul_1_r in *.
      apply Z.div_le_lower_bound; [exact Hn|].
      replace (- e) with ((e' - e) + - e') in H by lia.
      rewrite Z.pow_add_r in H by lia. nia.
    + unfold fexp, emin, prec, emax in He'.
      destruct m as [|p|p]; [simpl in He'; lia | | lia].
      simpl Zdigits2 in *.
      pose proof (digits2_lower p) as Hd.
      assert (Hq : 2 ^ 23 <= Z.pos p / 2 ^ (e' - e)).
      { apply Z.div_le_lower_bound; [exact Hn|].
        rewrite <- Z.pow_add_r by lia.
        now replace (e' - e + 23) with (Z.pos (digits2_pos p) - 1) by lia. }
      unfold scaled_ge.
      rewrite (Z.max_l 0 (- e')), (Z.max_r 0 e') by lia.
      rewrite Z.pow_0_r, Z.mul_1_r.
      assert (H2 : 2 ^ 1 <= 2 ^ e') by (apply Z.pow_le_mono_r; lia).
      change (2 ^ 1) with 2 in H2. change (2 ^ 24) with 16777216 in Hb.
      change (2 ^ 23) with 8388608 in Hq. nia.
Qed.

Lemma round_nearest_even_ge (m : Z) (l : location) :
  m <= round_nearest_even m l.
Proof.
  destruct l as [|[]]; simpl; try lia. destruct (Z.even m); lia.
Qed.

(** Rounding to nearest even keeps a product above an integer bound of at
    most 24 bits: the result has the sign asked for, and is either an
    infinity or a finite float still at or above the bound. *)
Lemma binary_round_aux_ge (sx : bool) (mx : positive) (ex b : Z) :
  0 < b <= 2 ^ 24 ->
  scaled_ge (Z.pos mx) ex b ->
  match binary_round_aux prec emax sx (Z.pos mx) ex loc_Exact with
  | S754_finite s m e => s = sx /\ scaled_ge (Z.pos m) e b
  | S754_infinity s => s = sx
  | _ => False
  end.
Proof.
  intros Hb H. unfold binary_round_aux.
  destruct (shr_fexp_m (Z.pos mx) ex loc_Exact ltac:(lia)) as (He1 & Hm1 & Hp1).
  pose proof (shift_keeps_ge (Z.pos mx) ex b ltac:(lia) Hb H) as H1.
  destruct (shr_fexp prec emax (Z.pos mx) ex loc_Exact) as [r1 e1].
  cbv zeta in *. cbn [fst snd] in *.
  rewrite <- He1 in Hm1, H1. rewrite <- Hm1 in H1.
  set (m2 := round_nearest_even (shr_m r1) (loc_of_shr_record r1)).
  assert (Hm2 : shr_m r1 <= m2) by apply round_nearest_even_ge.
  assert (H2 : scaled_ge m2 e1 b) by (eapply scaled_ge_mono; eassumption).
  destruct (shr_fexp_m m2 e1 loc_Exact ltac:(lia)) as (He3 & Hm3 & Hp3).
  pose proof (shift_keeps_ge m2 e1 b ltac:(lia) Hb H2) as H3.
  destruct (shr_fexp prec emax m2 e1 loc_Exact) as [r3 e3].
  cbv zeta in *. cbn [fst snd] in *.
  rewrite <- He3 in Hm3, H3. rewrite <- Hm3 in H3.
  destruct (shr_m r3) as [|m3|m3]; [|destruct (e3 <=? emax - prec); auto|lia].
  unfold scaled_ge in H3. rewrite Z.mul_0_l in H3.
  assert (0 < 2 ^ Z.max 0 (- e3)) by (apply Z.pow_pos_nonneg; lia). nia.
Qed.

Lemma of_int_int16 (s : Z) :
  -32768 <= s <= 32767 -> s <> 0 ->
  exists m e,
    of_int s = S754_finite (s <? 0) m e /\ e <= 0 /\
    Z.pos m = Z.abs s * 2 ^ (- e).
Proof.
  intros Hs Hnz.
  pose proof (all_from_spec of_int_exact (Z.to_nat 65536) (-32768)
                of_int_exact_int16 s) as H.
  assert (Hr : -32768 <= s < -32768 + Z.of_nat (Z.to_nat 65536)).
  { rewrite Z2Nat.id by lia. lia. }
  specialize (H Hr). unfold of_int_exact in H.
  destruct (of_int s) as [? | ? | | sg m e]; try discriminate.
  - apply Z.eqb_eq in H. contradiction.
  - apply andb_true_iff in H. destruct H as [H Hsg].
    apply andb_true_iff in H. destruct H as [He Hm].
    apply Z.leb_le in He. apply Z.eqb_eq in Hm. apply Bool.eqb_prop in Hsg.
    exists m, e. subst sg. auto.
Qed.

(** The product of a sample with a finite gain, when the exact product
    [p] of their absolute values is at least [b]: an infinity or a finite
    float at or above [b], with the sign of the product. *)
Lemma product_ge (ss sg : bool) (mg : positive) (eg s b : Z) :
  -32768 <= s <= 32767 -> s <> 0 -> ss = (s <? 0) ->
  0 < b <= 2 ^ 24 ->
  scaled_ge (Z.abs s * Z.pos mg) eg b ->
  match product (S754_finite sg mg eg) s with
  | S754_finite sign m e => sign = xorb ss sg /\ scaled_ge (Z.pos m) e b
  | S754_infinity sign => sign = xorb ss sg
  | _ => False
  end.
Proof.
  intros Hs Hnz -> Hb H.
  destruct (of_int_int16 s Hs Hnz) as (ms & es & Hof & Hes & Hms).
  unfold product, mul. rewrite Hof. unfold SFmul.
  apply binary_round_aux_ge; [exact Hb|].
  rewrite Pos2Z.inj_mul, Hms.
  replace (Z.abs s * 2 ^ (- es) * Z.pos mg)
    with (Z.abs s * Z.pos mg * 2 ^ (- es)) by ring.
  replace (es + eg) with (eg - (- es)) by lia.
  apply scaled_ge_shift; [lia | exact H].
Qed.

Lemma scaled_ge_pos (m e b : Z) : 0 < b -> scaled_ge m e b -> 0 < m.
Proof.
  unfold scaled_ge. intros Hb H.
  assert (0 < 2 ^ Z.max 0 (- e)) by (apply Z.pow_pos_nonneg; lia).
  assert (0 < 2 ^ Z.max 0 e) by (apply Z.pow_pos_nonneg; lia). nia.
Qed.

(** The integer part of a positive float at or above [b]. *)
Lemma trunc_ge (m : positive) (e b : Z) :
  scaled_ge (Z.pos m) e b ->
  exists t, trunc (S754_finite false m e) = Some t /\ b <= t.
Proof.
  unfold scaled_ge, trunc, signed. intros H.
  destruct (0 <=? e) eqn:He.
  - apply Z.leb_le in He. eexists. split; [reflexivity|].
    rewrite (Z.max_l 0 (- e)), (Z.max_r 0 e), Z.pow_0_r in H by lia. lia.
  - apply Z.leb_gt in He. eexists. split; [reflexivity|].
    rewrite (Z.max_r 0 (- e)), (Z.max_l 0 e), Z.pow_0_r in H by lia.
    apply quot_scaled_ge; [apply Z.pow_pos_nonneg; lia | lia].
Qed.

Lemma trunc_le (m : positive) (e b : Z) :
  scaled_ge (Z.pos m) e b ->
  exists t, trunc (S754_finite true m e) = Some t /\ t <= - b.
Proof.
  unfold scaled_ge, trunc, signed. intros H.
  destruct (0 <=? e) eqn:He.
  - apply Z.leb_le in He. eexists. split; [reflexivity|].
    rewrite (Z.max_l 0 (- e)), (Z.max_r 0 e), Z.pow_0_r in H by lia.
    change (Z.neg m) with (- Z.pos m). lia.
  - apply Z.leb_gt in He. eexists. split; [reflexivity|].
    rewrite (Z.max_r 0 (- e)), (Z.max_l 0 e), Z.pow_0_r in H by lia.
    apply quot_scaled_le; [apply Z.pow_pos_nonneg; lia|].
    change (Z.neg m) with (- Z.pos m). lia.
Qed.

(** Saturation at the top: a sample whose exact product with a finite
    gain is 32767 or more is stored as 32767. *)
Lemma boost_saturates_high (g : float32) (s : Z) :
  -32768 <= s <= 32767 -> exact_product_ge s g 32767 ->
  compositor.boost g s = 32767.
Proof.
  intros Hs H. destruct g as [? | ? | | sg mg eg]; try contradiction.
  unfold exact_product_ge in H.
  pose proof (scaled_ge_pos _ _ 32767 ltac:(lia) H) as Hpos.
  assert (Hnz : s <> 0) by (intros ->; lia).
  assert (Habs : Z.abs s * Z.pos mg = s * signed sg mg /\
                 xorb (s <? 0) sg = false).
  { unfold signed in *. destruct sg.
    - change (Z.neg mg) with (- Z.pos mg) in *.
      assert (s < 0) by nia. rewrite (proj2 (Z.ltb_lt s 0)) by lia.
      split; [lia | reflexivity].
    - assert (0 < s) by nia. rewrite (proj2 (Z.ltb_ge s 0)) by lia.
      split; [lia | reflexivity]. }
  destruct Habs as [Habs Hsign]. rewrite <- Habs in H.
  pose proof (product_ge (s <? 0) sg mg eg s 32767 Hs Hnz eq_refl
                ltac:(change (2 ^ 24) with 16777216; lia) H) as Hp.
  rewrite boost_clamps.
  destruct (product (S754_finite sg mg eg) s) as [? | sign | | sign m e];
    try contradiction.
  - rewrite Hp, Hsign. reflexivity.
  - destruct Hp as [-> Hge]. rewrite Hsign.
    destruct (trunc_ge m e 32767 Hge) as (t & -> & Ht). simpl.
    unfold clamp16. lia.
Qed.

(** Saturation at the bottom. *)
Lemma boost_saturates_low (g : float32) (s : Z) :
  -32768 <= s <= 32767 -> exact_product_ge (- s) g 32768 ->
  compositor.boost g s = -32768.
Proof.
  intros Hs H. destruct g as [? | ? | | sg mg eg]; try contradiction.
  unfold exact_product_ge in H.
  pose proof (scaled_ge_pos _ _ 32768 ltac:(lia) H) as Hpos.
  assert (Hnz : s <> 0) by (intros ->; lia).
  assert (Habs : Z.abs s * Z.pos mg = - s * signed sg mg /\
                 xorb (s <? 0) sg = true).
  { unfold signed in *. destruct sg.
    - change (Z.neg mg) with (- Z.pos mg) in *.
      assert (0 < s) by nia. rewrite (proj2 (Z.ltb_ge s 0)) by lia.
      split; [lia | reflexivity].
    - assert (s < 0) by nia. rewrite (proj2 (Z.ltb_lt s 0)) by lia.
      split; [lia | reflexivity]. }
  destruct Habs as [Habs Hsign]. rewrite <- Habs in H.
  pose proof (product_ge (s <? 0) sg mg eg s 32768 Hs Hnz eq_refl
                ltac:(change (2 ^ 24) with 16777216; lia) H) as Hp.
  rewrite boost_clamps.
  destruct (product (S754_finite sg mg eg) s) as [? | sign | | sign m e];
    try contradiction.
  - rewrite Hp, Hsign. reflexivity.
  - destruct Hp as [-> Hge]. rewrite Hsign.
    destruct (trunc_le m e 32768 Hge) as (t & -> & Ht). simpl.
    unfold clamp16. lia.
Qed.


(** *** Rounding never overshoots an integer bound either *)

Lemma shr_1_exact (r : shr_record) (k : Z) :
  shr_r r = false -> shr_s r = false -> 0 <= k -> shr_m r = 2 * k ->
  shr_m (shr_1 r) = k /\ shr_r (shr_1 r) = false /\ shr_s (shr_1 r) = false.
Proof.
  destruct r as [m rb sb]. simpl. intros -> -> Hk ->.
  destruct k as [|k|k]; simpl; try lia; repeat split; reflexivity.
Qed.

(** Shifting out bits that are all zero is exact: quotient on the grid,
    round and sticky bits clear. *)
Lemma iter_shr_1_exact (p : positive) :
  forall (r : shr_record) (k : Z),
    shr_r r = false -> shr_s r = false -> 0 <= k ->
    shr_m r = k * 2 ^ Z.pos p ->
    shr_m (SpecFloat.iter_pos shr_1 p r) = k /\
    shr_r (SpecFloat.iter_pos shr_1 p r) = false /\
    shr_s (SpecFloat.iter_pos shr_1 p r) = false.
Proof.
  induction p as [p IH | p IH |]; intros r k Hr Hs Hk Hm;
    cbn [SpecFloat.iter_pos].
  - assert (Hp : 0 < 2 ^ Z.pos p) by (apply Z.pow_pos_nonneg; lia).
    rewrite pow2_xI in Hm.
    destruct (shr_1_exact r (k * 2 ^ Z.pos p * 2 ^ Z.pos p) Hr Hs
                ltac:(nia) ltac:(rewrite Hm; ring)) as (H1 & H1r & H1s).
    destruct (IH _ (k * 2 ^ Z.pos p) H1r H1s ltac:(nia) H1)
      as (H2 & H2r & H2s).
    exact (IH _ k H2r H2s Hk H2).
  - assert (Hp : 0 < 2 ^ Z.pos p) by (apply Z.pow_pos_nonneg; lia).
    rewrite pow2_xO in Hm.
    destruct (IH r (k * 2 ^ Z.pos p) Hr Hs ltac:(nia)
                ltac:(rewrite Hm; ring)) as (H2 & H2r & H2s).
    exact (IH _ k H2r H2s Hk H2).
  - apply shr_1_exact; try assumption. rewrite Hm. change (2 ^ 1) with 2. ring.
Qed.

Lemma round_nearest_even_le (m : Z) (l : location) :
  round_nearest_even m l <= m + 1.
Proof.
  destruct l as [|[]]; simpl; try lia. destruct (Z.even m); lia.
Qed.

(** A mantissa and exponent below an integer of less than 24 bits are
    shifted, if at all, to an exponent that is not positive. *)
Lemma small_value_small_exponent (m e b : Z) :
  0 <= m -> 0 < b < 2 ^ 24 -> scaled_le m e b ->
  e < fexp prec emax (Zdigits2 m + e) ->
  fexp prec emax (Zdigits2 m + e) <= 0.
Proof.
  intros Hm Hb H Hsh.
  destruct (Z.le_gt_cases (fexp prec emax (Zdigits2 m + e)) 0) as [|Hpos];
    [assumption | exfalso].
  unfold fexp, emin, prec, emax in *.
  destruct m as [|p|p]; [simpl in *; lia | | lia].
  simpl Zdigits2 in *. pose proof (digits2_lower p) as Hd.
  set (d := Z.pos (digits2_pos p)) in *.
  assert (Hd24 : 24 < d + e) by lia.
  unfold scaled_le in H.
  destruct (Z.le_gt_cases 0 e) as [He | He].
  - rewrite (Z.max_r 0 e), (Z.max_l 0 (- e)), Z.pow_0_r in H by lia.
    assert (H1 : 2 ^ (d - 1) * 2 ^ e <= Z.pos p * 2 ^ e).
    { apply Z.mul_le_mono_nonneg_r; [apply Z.pow_nonneg; lia | exact Hd]. }
    rewrite <- Z.pow_add_r in H1 by lia.
    assert (H2 : 2 ^ 24 <= 2 ^ (d - 1 + e)) by (apply Z.pow_le_mono_r; lia).
    lia.
  - rewrite (Z.max_l 0 e), (Z.max_r 0 (- e)), Z.pow_0_r in H by lia.
    assert (H1 : b * 2 ^ (- e) < 2 ^ 24 * 2 ^ (- e)).
    { apply Z.mul_lt_mono_pos_r; [apply Z.pow_pos_nonneg; lia | lia]. }
    rewrite <- Z.pow_add_r in H1 by lia.
    assert (H2 : 2 ^ (24 + - e) <= 2 ^ (d - 1)) by (apply Z.pow_le_mono_r; lia).
    lia.
Qed.

(** The first shift and the rounding after it. *)
Lemma shift_round_keeps_le (m e b : Z) :
  0 <= m -> 0 < b < 2 ^ 24 -> scaled_le m e b ->
  let r1 := (shr_fexp prec emax m e loc_Exact).1 in
  let e1 := (shr_fexp prec emax m e loc_Exact).2 in
  scaled_le (round_nearest_even (shr_m r1) (loc_of_shr_record r1)) e1 b.
Proof.
  intros Hm Hb H r1 e1.
  destruct (shr_fexp_m m e loc_Exact Hm) as (He1 & Hm1 & Hp1).
  fold r1 e1 in He1, Hm1, Hp1. cbv zeta in He1, Hm1.
  rewrite <- He1 in Hm1.
  set (F := fexp prec emax (Zdigits2 m + e)) in *.
  destruct (Z.le_gt_cases F e) as [Hno | Hsh].
  - assert (Hr1 : r1 = Build_shr_record m false false).
    { unfold r1, shr_fexp, shr. fold F.
      destruct (F - e) as [|p|p] eqn:Hn; try reflexivity. lia. }
    replace e1 with e by lia. rewrite Hr1. simpl. exact H.
  - pose proof (small_value_small_exponent m e b Hm Hb H Hsh) as HF.
    fold F in HF.
    assert (Hee : e1 = F) by lia.
    assert (Hn : 0 < 2 ^ (e1 - e)) by (apply Z.pow_pos_nonneg; lia).
    unfold scaled_le in *.
    rewrite (Z.max_l 0 e), (Z.max_r 0 (- e)), Z.pow_0_r, Z.mul_1_r in H by lia.
    rewrite (Z.max_l 0 e1), (Z.max_r 0 (- e1)), Z.pow_0_r, Z.mul_1_r by lia.
    replace (- e) with ((e1 - e) + - e1) in H by lia.
    rewrite Z.pow_add_r in H by lia.
    set (B := b * 2 ^ (- e1)). set (N := 2 ^ (e1 - e)) in *.
    assert (HB : m <= B * N) by (unfold B; lia).
    pose proof (Z.div_mod m N ltac:(lia)) as Hdm.
    pose proof (Z.mod_pos_bound m N Hn) as Hmod.
    destruct (Z.eq_dec (m mod N) 0) as [Hz | Hnz].
    + assert (Hex : shr_m r1 = m / N /\ shr_r r1 = false /\ shr_s r1 = false).
      { unfold r1, shr_fexp, shr. fold F.
        destruct (F - e) as [|p|p] eqn:Hp; try lia. simpl.
        apply iter_shr_1_exact; try reflexivity.
        - apply Z.div_pos; lia.
        - simpl. unfold N in *. replace (e1 - e) with (Z.pos p) in * by lia.
          lia. }
      destruct Hex as (Hq & Hr & Hs).
      destruct r1 as [q rb sb]. simpl in *. subst rb sb. simpl.
      rewrite Hq. apply Z.div_le_upper_bound; lia.
    + pose proof (round_nearest_even_le (shr_m r1) (loc_of_shr_record r1)).
      rewrite Hm1 in *. fold N in H0 |- *.
      assert (Hne : m <> N * B).
      { intros Heq. apply Hnz. rewrite Heq, Z.mul_comm. apply Z.mod_mul. lia. }
      assert (m / N < B); [|lia].
      apply Z.div_lt_upper_bound; lia.
Qed.

(** The second shift only drops bits. *)
Lemma shift_keeps_le (m e b : Z) :
  0 <= m -> 0 < b < 2 ^ 24 -> scaled_le m e b ->
  let e' := Z.max e (fexp prec emax (Zdigits2 m + e)) in
  scaled_le (m / 2 ^ (e' - e)) e' b.
Proof.
  intros Hm Hb H e'.
  destruct (Z.le_gt_cases (fexp prec emax (Zdigits2 m + e)) e) as [Hno | Hsh].
  - replace e' with e by lia. now rewrite Z.sub_diag, Z.div_1_r.
  - pose proof (small_value_small_exponent m e b Hm Hb H Hsh) as HF.
    assert (Hn : 0 < 2 ^ (e' - e)) by (apply Z.pow_pos_nonneg; lia).
    unfold scaled_le in *.
    rewrite (Z.max_l 0 e), (Z.max_r 0 (- e)), Z.pow_0_r, Z.mul_1_r in H by lia.
    rewrite (Z.max_l 0 e'), (Z.max_r 0 (- e')), Z.pow_0_r, Z.mul_1_r by lia.
    replace (- e) with ((e' - e) + - e') in H by lia.
    rewrite Z.pow_add_r in H by lia.
    apply Z.div_le_upper_bound; [exact Hn|]. lia.
Qed.

Lemma binary_round_aux_le (sx : bool) (mx : positive) (ex b : Z) :
  0 < b < 2 ^ 24 ->
  scaled_le (Z.pos mx) ex b ->
  match binary_round_aux prec emax sx (Z.pos mx) ex loc_Exact with
  | S754_finite s m e => s = sx /\ scaled_le (Z.pos m) e b
  | S754_zero _ => True
  | _ => False
  end.
Proof.
  intros Hb H. unfold binary_round_aux.
  pose proof (shift_round_keeps_le (Z.pos mx) ex b ltac:(lia) Hb H) as H2.
  destruct (shr_fexp_m (Z.pos mx) ex loc_Exact ltac:(lia)) as (_ & _ & Hp1).
  destruct (shr_fexp prec emax (Z.pos mx) ex loc_Exact) as [r1 e1].
  cbv zeta in *. cbn [fst snd] in *.
  set (m2 := round_nearest_even (shr_m r1) (loc_of_shr_record r1)) in *.
  assert (Hm2 : 0 <= m2).
  { pose proof (round_nearest_even_ge (shr_m r1) (loc_of_shr_record r1)).
    unfold m2. lia. }
  destruct (shr_fexp_m m2 e1 loc_Exact Hm2) as (He3 & Hm3 & Hp3).
  pose proof (shift_keeps_le m2 e1 b Hm2 Hb H2) as H3.
  destruct (shr_fexp prec emax m2 e1 loc_Exact) as [r3 e3].
  cbv zeta in *. cbn [fst snd] in *.
  rewrite <- He3 in Hm3, H3. rewrite <- Hm3 in H3.
  destruct (shr_m r3) as [|m3|m3]; [exact I | | lia].
  destruct (e3 <=? emax - prec) eqn:He; [auto|].
  apply Z.leb_gt in He. unfold emax, prec in He.
  unfold scaled_le in H3.
  rewrite (Z.max_r 0 e3), (Z.max_l 0 (- e3)), Z.pow_0_r in H3 by lia.
  assert (2 ^ 24 <= 2 ^ e3) by (apply Z.pow_le_mono_r; lia). nia.
Qed.


Lemma scaled_le_shift (m e b k : Z) :
  0 <= k -> scaled_le m e b -> scaled_le (m * 2 ^ k) (e - k) b.
Proof.
  unfold scaled_le. intros Hk H.
  assert (Hpk : 0 < 2 ^ k) by (apply Z.pow_pos_nonneg; lia).
  destruct (Z.le_gt_cases 0 e) as [He | He].
  - rewrite (Z.max_l 0 (- e)), (Z.max_r 0 e) in H by lia.
    rewrite Z.pow_0_r in H.
    destruct (Z.le_gt_cases k e) as [Hke | Hke].
    + rewrite (Z.max_l 0 (- (e - k))), (Z.max_r 0 (e - k)) by lia.
      rewrite Z.pow_0_r, <- Z.mul_assoc, <- Z.pow_add_r by lia.
      now replace (k + (e - k)) with e by lia.
    + rewrite (Z.max_r 0 (- (e - k))), (Z.max_l 0 (e - k)) by lia.
      rewrite Z.pow_0_r.
      replace k with (e + - (e - k)) at 1 by lia.
      rewrite Z.pow_add_r by lia.
      assert (0 < 2 ^ (- (e - k))) by (apply Z.pow_pos_nonneg; lia). nia.
  - rewrite (Z.max_r 0 (- e)), (Z.max_l 0 e) in H by lia.
    rewrite (Z.max_r 0 (- (e - k))), (Z.max_l 0 (e - k)) by lia.
    rewrite Z.pow_0_r in *.
    replace (- (e - k)) with (- e + k) by lia.
    rewrite Z.pow_add_r by lia. nia.
Qed.

Lemma product_le (ss sg : bool) (mg : positive) (eg s b : Z) :
  -32768 <= s <= 32767 -> s <> 0 -> ss = (s <? 0) ->
  0 < b < 2 ^ 24 ->
  scaled_le (Z.abs s * Z.pos mg) eg b ->
  match product (S754_finite sg mg eg) s with
  | S754_finite sign m e => sign = xorb ss sg /\ scaled_le (Z.pos m) e b
  | S754_zero _ => True
  | _ => False
  end.
Proof.
  intros Hs Hnz -> Hb H.
  destruct (of_int_int16 s Hs Hnz) as (ms & es & Hof & Hes & Hms).
  unfold product, mul. rewrite Hof. unfold SFmul.
  apply binary_round_aux_le; [exact Hb|].
  rewrite Pos2Z.inj_mul, Hms.
  replace (Z.abs s * 2 ^ (- es) * Z.pos mg)
    with (Z.abs s * Z.pos mg * 2 ^ (- es)) by ring.
  replace (es + eg) with (eg - (- es)) by lia.
  apply scaled_le_shift; [lia | exact H].
Qed.

(** The integer part of a float that is exactly the integer [t]. *)
Lemma trunc_exact (sign : bool) (m : positive) (e t : Z) :
  scaled_ge (Z.pos m) e t -> scaled_le (Z.pos m) e t ->
  trunc (S754_finite sign m e) = Some (if sign then - t else t).
Proof.
  unfold scaled_ge, scaled_le, trunc, signed. intros Hge Hle.
  assert (Heq : Z.pos m * 2 ^ Z.max 0 e = t * 2 ^ Z.max 0 (- e)) by lia.
  clear Hge Hle. destruct (0 <=? e) eqn:He.
  - apply Z.leb_le in He.
    rewrite (Z.max_l 0 (- e)), (Z.max_r 0 e), Z.pow_0_r, Z.mul_1_r in Heq
      by lia.
    destruct sign; [change (Z.neg m) with (- Z.pos m)|]; f_equal; lia.
  - apply Z.leb_gt in He.
    rewrite (Z.max_r 0 (- e)), (Z.max_l 0 e), Z.pow_0_r, Z.mul_1_r in Heq
      by lia.
    assert (Hk : 2 ^ (- e) <> 0)
      by (apply Z.neq_sym, Z.lt_neq, Z.pow_pos_nonneg; lia).
    destruct sign; [change (Z.neg m) with (- Z.pos m)|]; f_equal;
      rewrite Heq; [rewrite <- Z.mul_opp_l|]; now apply Z.quot_mul.
Qed.

Lemma product_of_zero (g : float32) (s : Z) :
  -32768 <= s <= 32767 ->
  match g with
  | S754_zero _ => True
  | S754_finite _ _ _ => s = 0
  | _ => False
  end ->
  compositor.boost g s = 0.
Proof.
  intros Hs Hg. rewrite boost_clamps. unfold product, mul.
  destruct g as [sg | ? | | sg mg eg]; try contradiction.
  - destruct (Z.eq_dec s 0) as [-> | Hnz]; [reflexivity|].
    destruct (of_int_int16 s Hs Hnz) as (ms & es & -> & _). reflexivity.
  - subst s. reflexivity.
Qed.

(** Whenever the exact product of a sample and a finite gain is an
    integer, the stored value is that integer, saturated. *)
Lemma boost_exact (g : float32) (s t : Z) :
  -32768 <= s <= 32767 -> exact_product_is s g t ->
  compositor.boost g s = clamp16 t.
Proof.
  intros Hs H.
  destruct g as [sg | ? | | sg mg eg]; try contradiction.
  - simpl in H. subst t. now apply product_of_zero.
  - unfold exact_product_is in H.
    assert (Hp1 : 0 < 2 ^ Z.max 0 eg) by (apply Z.pow_pos_nonneg; lia).
    assert (Hp2 : 0 < 2 ^ Z.max 0 (- eg)) by (apply Z.pow_pos_nonneg; lia).
    destruct (Z.le_gt_cases 32767 t) as [Hhi | Hhi].
    { rewrite (boost_saturates_high _ s Hs); [unfold clamp16; lia|].
      unfold exact_product_ge, scaled_ge. nia. }
    destruct (Z.le_gt_cases t (-32768)) as [Hlo | Hlo].
    { rewrite (boost_saturates_low _ s Hs); [unfold clamp16; lia|].
      unfold exact_product_ge, scaled_ge. nia. }
    rewrite clamp16_small by lia.
    destruct (Z.eq_dec t 0) as [-> | Ht].
    { apply product_of_zero; [exact Hs|].
      assert (Hsm : signed sg mg <> 0) by (unfold signed; destruct sg; lia).
      nia. }
    assert (Hnz : s <> 0) by (intros ->; nia).
    set (a := Z.abs t).
    assert (Ha : 0 < a < 2 ^ 24)
      by (unfold a; change (2 ^ 24) with 16777216; lia).
    assert (Habs : Z.abs s * Z.pos mg * 2 ^ Z.max 0 eg
                   = a * 2 ^ Z.max 0 (- eg) /\
                   xorb (s <? 0) sg = (t <? 0)).
    { unfold a, signed in *. destruct sg;
        [change (Z.neg mg) with (- Z.pos mg) in H|];
        destruct (Z.ltb_spec s 0); destruct (Z.ltb_spec t 0);
        simpl; split; try reflexivity; nia. }
    destruct Habs as [Habs Hsign].
    pose proof (product_ge (s <? 0) sg mg eg s a Hs Hnz eq_refl
                  ltac:(lia) ltac:(unfold scaled_ge; lia)) as Hge.
    pose proof (product_le (s <? 0) sg mg eg s a Hs Hnz eq_refl
                  Ha ltac:(unfold scaled_le; lia)) as Hle.
    rewrite boost_clamps.
    destruct (product (S754_finite sg mg eg) s) as [? | ? | | sign m e];
      try contradiction.
    destruct Hge as [-> Hge]. destruct Hle as [_ Hle].
    rewrite (trunc_exact _ m e a Hge Hle), Hsign. simpl.
    rewrite clamp16_small; unfold a; destruct (Z.ltb_spec t 0); lia.
Qed.

(** For a whole-number gain the stored value is the product, saturated. *)
Lemma boost_whole_gain (s k : Z) :
  -32768 <= s <= 32767 -> -32768 <= k <= 32767 ->
  compositor.boost (of_int k) s = clamp16 (s * k).
Proof.
  intros Hs Hk. apply boost_exact; [exact Hs|].
  destruct (Z.eq_dec k 0) as [-> | Hnz]; [simpl; lia|].
  destruct (of_int_int16 k Hk Hnz) as (mk & ek & -> & Hek & Hmk).
  unfold exact_product_is, signed.
  rewrite (Z.max_l 0 ek), (Z.max_r 0 (- ek)), Z.pow_0_r by lia.
  destruct (Z.ltb_spec k 0);
    [change (Z.neg mk) with (- Z.pos mk)|]; rewrite Hmk; nia.
Qed.

End Rounding.



Example boost_gain_three :
  map (compositor.boost (Float32.of_int 3)) [16000; 100; -5; -16000; 10922; 10923]
  = [32767; 300; -15; -32768; 32766; 32767].
Proof. vm_compute. reflexivity. Qed.

Example boost_gain_half :
  map (compositor.boost (S754_finite false 8388608 (-24))) [3; -3; 32767; -32768]
  = [1; -1; 16383; -16384].
Proof. vm_compute. reflexivity. Qed.


(** What C4 first stated does hold for arrays on a running streamer, with
    a whole-number gain: the buffer receives the clamped products. *)
Lemma send_audio_array_whole_gain (samples : list Z) (gain : Z)
    (s : compositor.RTMPStreamer) :
  Forall (fun x => -32768 <= x <= 32767) samples ->
  -32768 <= gain <= 32767 ->
  compositor.running s = true ->
  compositor._audio_buffer s = [] ->
  (length samples <= compositor.max_samples)%nat ->
  compositor._audio_buffer
    (compositor.send_audio (compositor.NdArray samples) (Float32.of_int gain) s).2
  = map (fun x => clamp16 (x * gain)) samples.
Proof.
  intros Hall Hgain Hrun Hbuf Hlen. unfold compositor.send_audio.
  rewrite Hrun, Hbuf. cbn [negb snd]. simpl compositor._audio_buffer.
  rewrite append_samples_fits by (simpl; now rewrite length_map).
  simpl. induction Hall as [|x xs Hx Hxs IH]; [reflexivity|].
  simpl. rewrite boost_whole_gain by assumption. f_equal.
  apply IH. simpl in Hlen. lia.
Qed.

(** ** The game state readers *)

Section GameState.

Import emulator.

Lemma range_length (n : Z) : length (range n) = Z.to_nat n.
Proof. unfold range. now rewrite length_map, length_seq. Qed.

Lemma range_succ (n : Z) : 0 <= n -> range (n + 1) = range n ++ [n].
Proof.
  intros Hn. unfold range.
  replace (Z.to_nat (n + 1)) with (S (Z.to_nat n)) by lia.
  rewrite seq_S, map_app. simpl. now rewrite Z2Nat.id by lia.
Qed.

Lemma range_of_nat_succ (k : nat) :
  range (Z.of_nat (S k)) = range (Z.of_nat k) ++ [Z.of_nat k].
Proof.
  replace (Z.of_nat (S k)) with (Z.of_nat k + 1) by lia.
  apply range_succ. lia.
Qed.

Lemma range_In (n i : Z) : In i (range n) <-> 0 <= i < n.
Proof.
  unfold range. rewrite in_map_iff. split.
  - intros (k & <- & Hk). apply in_seq in Hk. lia.
  - intros Hi. exists (Z.to_nat i). split; [lia|]. apply in_seq. lia.
Qed.

Lemma stored_at_memory_with (addr : Z) (bytes : list Z) :
  stored_at (memory_with addr bytes) addr bytes.
Proof.
  intros i b Hi. unfold memory_with.
  pose proof (lookup_lt_Some _ _ _ Hi) as Hlt.
  replace ((addr <=? addr + Z.of_nat i)
           && (addr + Z.of_nat i <? addr + Z.of_nat (length bytes)))
    with true by (symmetry; apply andb_true_iff; split; lia).
  replace (Z.to_nat (addr + Z.of_nat i - addr)) with i by lia.
  apply nth_lookup_Some with (d := 0) in Hi. exact Hi.
Qed.

Lemma stored_at_app (mem : Memory) (addr : Z) (l1 l2 : list Z) :
  stored_at mem addr (l1 ++ l2) ->
  stored_at mem addr l1 /\
  stored_at mem (addr + Z.of_nat (length l1)) l2.
Proof.
  intros H. split; intros i b Hi.
  - apply H. now apply lookup_app_l_Some.
  - replace (addr + Z.of_nat (length l1) + Z.of_nat i)
      with (addr + Z.of_nat (length l1 + i)) by lia.
    apply H. rewrite lookup_app_r by lia.
    now replace (length l1 + i - length l1)%nat with i by lia.
Qed.

Lemma byte_lor_shift (hi lo : Z) :
  0 <= lo < 256 -> Z.lor (Z.shiftl hi 8) lo = hi * 256 + lo.
Proof.
  intros Hlo. rewrite Z.shiftl_mul_pow2 by lia. change (2 ^ 8) with 256.
  rewrite <- Z.lxor_lor, <- Z.add_nocarry_lxor; try reflexivity.
  all: apply Z.bits_inj'; intros n Hn; rewrite Z.land_spec, Z.bits_0;
    destruct (Z.lt_ge_cases n 8) as [H8|H8].
  all: try (replace (hi * 256) with (Z.shiftl hi 8)
              by (rewrite Z.shiftl_mul_pow2 by lia; reflexivity);
            rewrite Z.shiftl_spec_low by lia; reflexivity).
  all: rewrite (Z.bits_above_log2 lo n), andb_false_r; try reflexivity;
    try lia.
  all: destruct (Z.eq_dec lo 0) as [->|Hne]; [simpl; lia|];
    apply Z.log2_lt_pow2; try lia;
    apply Z.lt_le_trans with 256; [lia|];
    change 256 with (2 ^ 8); apply Z.pow_le_mono_r; lia.
Qed.

(** X1.  For two bytes at [addr] and [addr + 1], [_read_word_be] is the
    first times 256 plus the second and [_read_word] the second times 256
    plus the first; both lie between 0 and 65535. *)
Theorem read_word_value (mem : Memory) (addr : Z) :
  0 <= mem addr < 256 ->
  0 <= mem (addr + 1) < 256 ->
  _read_word_be mem addr = mem addr * 256 + mem (addr + 1) /\
  _read_word mem addr = mem (addr + 1) * 256 + mem addr /\
  0 <= _read_word_be mem addr <= 65535 /\
  0 <= _read_word mem addr <= 65535.
Proof.
  intros H0 H1. unfold _read_word_be, _read_word.
  rewrite (Z.lor_comm (mem addr) _).
  rewrite !byte_lor_shift by assumption. lia.
Qed.

(** *** Packed decimal *)

(** The loop of [_decode_bcd] over bytes already fetched. *)
Lemma decode_bcd_fold (mem : Memory) (addr : Z) (bytes : list Z) :
  stored_at mem addr bytes ->
  _decode_bcd mem addr (Z.of_nat (length bytes))
  = fold_left
      (fun result byte =>
         result * 100 + Z.shiftr byte 4 * 10 + Z.land byte 0x0F)
      bytes 0.
Proof.
  unfold _decode_bcd.
  induction bytes as [|b bytes IH] using rev_ind; intros Hst; [reflexivity|].
  rewrite length_app, Nat.add_comm. simpl length.
  rewrite range_of_nat_succ, !fold_left_app. simpl.
  apply stored_at_app in Hst. destruct Hst as [Hl Hb].
  rewrite (IH Hl). f_equal. f_equal.
  all: specialize (Hb O b eq_refl); rewrite Z.add_0_r in Hb; now rewrite Hb.
Qed.

Lemma bcd_byte_halves (d : Z) :
  0 <= d < 100 ->
  Z.shiftr (bcd_byte d) 4 * 10 + Z.land (bcd_byte d) 0x0F = d.
Proof.
  intros Hd.
  assert (H : all_from
                (fun d => Z.shiftr (bcd_byte d) 4 * 10
                          + Z.land (bcd_byte d) 0x0F =? d)
                0 100 = true) by (vm_compute; reflexivity).
  apply Z.eqb_eq. apply (all_from_spec _ _ _ H). lia.
Qed.

Lemma encode_bcd_length (k : nat) (n : Z) : length (encode_bcd k n) = k.
Proof.
  revert n. induction k as [|k IH]; intros n; [reflexivity|].
  simpl. rewrite length_app, IH. simpl. lia.
Qed.

Lemma encode_bcd_fold (k : nat) :
  forall n, 0 <= n < 100 ^ Z.of_nat k ->
  fold_left
    (fun result byte => result * 100 + Z.shiftr byte 4 * 10 + Z.land byte 0x0F)
    (encode_bcd k n) 0
  = n.
Proof.
  induction k as [|k IH]; intros n Hn.
  - simpl in *. lia.
  - simpl encode_bcd. rewrite fold_left_app. simpl.
    replace (Z.of_nat (S k)) with (Z.of_nat k + 1) in Hn by lia.
    rewrite Z.pow_add_r, Z.pow_1_r in Hn by lia.
    rewrite IH.
    + rewrite <- Z.add_assoc, bcd_byte_halves
        by (apply Z.mod_pos_bound; lia).
      pose proof (Z.div_mod n 100 ltac:(lia)). lia.
    + split; [apply Z.div_pos; lia|].
      apply Z.div_lt_upper_bound; lia.
Qed.

(** X2.  [_decode_bcd] undoes packed decimal: when the [k] bytes from
    [addr] on hold the packed decimal form of a number below [100 ^ k],
    the number comes back. *)
Theorem decode_bcd_round_trip (mem : Memory) (addr : Z) (k : nat) (n : Z) :
  0 <= n < 100 ^ Z.of_nat k ->
  stored_at mem addr (encode_bcd k n) ->
  _decode_bcd mem addr (Z.of_nat k) = n.
Proof.
  intros Hn Hst.
  rewrite <- (encode_bcd_length k n) at 1.
  rewrite (decode_bcd_fold _ _ _ Hst). now apply encode_bcd_fold.
Qed.

Lemma decode_bcd_step_bound (bytes : list Z) :
  forall (result bound : Z),
    0 <= result < bound ->
    Forall valid_bcd bytes ->
    0 <= fold_left
           (fun result byte =>
              result * 100 + Z.shiftr byte 4 * 10 + Z.land byte 0x0F)
           bytes result
      < bound * 100 ^ Z.of_nat (length bytes).
Proof.
  induction bytes as [|b bytes IH]; intros result bound Hr Hall.
  - simpl. lia.
  - inversion Hall as [|? ? (Hb0 & Hhi & Hlo) Hrest]; subst.
    cbn [fold_left length].
    replace (Z.of_nat (S (length bytes)))
      with (1 + Z.of_nat (length bytes)) by lia.
    rewrite Z.pow_add_r, Z.pow_1_r, Z.mul_assoc by lia.
    apply IH; [|exact Hrest].
    pose proof (Z.shiftr_nonneg b 4) as Hs.
    pose proof (Z.land_nonneg b 0x0F) as Hl.
    assert (0 <= Z.shiftr b 4) by (apply Hs; lia).
    assert (0 <= Z.land b 0x0F) by (apply Hl; lia).
    nia.
Qed.

Lemma fold_left_mapped {A B C} (g : A -> B) (f : C -> B -> C) (l : list A) :
  forall c, fold_left f (map g l) c = fold_left (fun c x => f c (g x)) l c.
Proof. induction l as [|x l IH]; intros c; [reflexivity | apply IH]. Qed.

Lemma decode_bcd_range (mem : Memory) (addr : Z) (k : nat) :
  (forall i, 0 <= i < Z.of_nat k -> valid_bcd (mem (addr + i))) ->
  0 <= _decode_bcd mem addr (Z.of_nat k) < 100 ^ Z.of_nat k.
Proof.
  intros Hall. unfold _decode_bcd.
  rewrite <- (fold_left_mapped (fun i => mem (addr + i))
    (fun result byte =>
       result * 100 + Z.shiftr byte 4 * 10 + Z.land byte 0x0F)).
  pose proof (decode_bcd_step_bound
                (map (fun i => mem (addr + i)) (range (Z.of_nat k)))
                0 1 ltac:(lia)) as H.
  rewrite length_map, range_length, Nat2Z.id, Z.mul_1_l in H.
  apply H. apply List.Forall_forall. intros b Hin.
  apply in_map_iff in Hin. destruct Hin as (i & <- & Hi).
  apply Hall. now apply range_In.
Qed.

(** X3.  [get_money] stays between 0 and 999999 when each of the three
    bytes it reads has a decimal digit in both halves. *)
Theorem get_money_bound (mem : Memory) :
  (forall i, 0 <= i < 3 -> valid_bcd (mem (ADDR_MONEY + i))) ->
  0 <= get_money mem <= 999999.
Proof.
  intros Hall.
  pose proof (decode_bcd_range mem ADDR_MONEY 3 Hall) as Hb.
  unfold get_money. change 3 with (Z.of_nat 3).
  change (100 ^ Z.of_nat 3) with 1000000 in Hb. lia.
Qed.

(** *** Text *)

Lemma decode_char_decoded (byte : Z) : decoded_char (decode_char byte) = true.
Proof.
  unfold decode_char.
  destruct ((0x80 <=? byte) && (byte <=? 0x99)) eqn:H1.
  { unfold decoded_char. by_cases. }
  destruct ((0xA0 <=? byte) && (byte <=? 0xB9)) eqn:H2.
  { unfold decoded_char. clear H1. by_cases. }
  destruct ((0xF6 <=? byte) && (byte <=? 0xFF)) eqn:H3.
  { unfold decoded_char. clear H1 H2. by_cases. }
  destruct (byte =? 0x7F); [reflexivity|].
  destruct (byte =? 0xE8); [reflexivity|].
  destruct (byte =? 0xEF); reflexivity.
Qed.

Lemma decode_text_loop_app (mem : Memory) (addr : Z) (l1 l2 : list Z) :
  (forall i, In i l1 -> mem (addr + i) <> 0x50) ->
  decode_text_loop mem addr (l1 ++ l2)
  = map (fun i => decode_char (mem (addr + i))) l1
    ++ decode_text_loop mem addr l2.
Proof.
  induction l1 as [|i l1 IH]; intros Hno; [reflexivity|].
  simpl. destruct (Z.eqb_spec (mem (addr + i)) 0x50) as [He|_].
  - exfalso. apply (Hno i); [now left | exact He].
  - f_equal. apply IH. intros k Hk. apply Hno. now right.
Qed.

Lemma range_prefix (n j : Z) :
  0 <= j <= n ->
  exists rest,
    range n = range j ++ rest /\
    match rest with
    | [] => j = n
    | i :: _ => i = j /\ j < n
    end.
Proof.
  intros Hj. destruct (Z.eq_dec j n) as [->|Hne].
  - exists []. now rewrite app_nil_r.
  - unfold range.
    replace (Z.to_nat n)
      with (Z.to_nat j + S (Z.to_nat n - Z.to_nat j - 1))%nat by lia.
    rewrite seq_app, map_app. simpl. rewrite Z2Nat.id by lia.
    eexists. split; [reflexivity|]. split; [reflexivity | lia].
Qed.

(** The loop stops at a terminator that follows bytes without one. *)
Lemma decode_text_loop_stops (mem : Memory) (addr : Z) (l1 l2 : list Z) :
  (forall i, In i l1 -> mem (addr + i) <> 0x50) ->
  match l2 with
  | [] => True
  | i :: _ => mem (addr + i) = 0x50
  end ->
  decode_text_loop mem addr (l1 ++ l2)
  = map (fun i => decode_char (mem (addr + i))) l1.
Proof.
  intros Hno Hterm. rewrite decode_text_loop_app by exact Hno.
  destruct l2 as [|i l2]; simpl; [|rewrite Hterm; simpl]; apply app_nil_r.
Qed.

(** X4.  [_decode_text] reads the field from its start up to the first
    terminator byte 0x50, or to the end of the field when it holds none:
    with [j] the place of the first terminator (or the field length), the
    text is the decoding of the [j] bytes before it, one character a
    byte, and nothing behind the terminator is looked at. *)
Theorem decode_text_stops_at_terminator (mem : Memory) (addr n j : Z) :
  0 <= j <= n ->
  (forall i, 0 <= i < j -> mem (addr + i) <> 0x50) ->
  (j < n -> mem (addr + j) = 0x50) ->
  _decode_text mem addr n
  = map (fun i => decode_char (mem (addr + i))) (range j).
Proof.
  intros Hj Hno Hterm. unfold _decode_text.
  destruct (range_prefix n j Hj) as (rest & -> & Hrest).
  apply decode_text_loop_stops.
  - intros i Hi. apply Hno. now apply range_In.
  - destruct rest as [|i rest]; [exact I|].
    destruct Hrest as [-> Hlt]. now apply Hterm.
Qed.





Lemma decode_text_loop_bounded (mem : Memory) (addr : Z) (l : list Z) :
  (length (decode_text_loop mem addr l) <= length l)%nat /\
  forallb decoded_char (decode_text_loop mem addr l) = true.
Proof.
  induction l as [|i l [IHlen IHall]]; [split; [simpl; lia | reflexivity]|].
  simpl. destruct (mem (addr + i) =? 0x50); simpl.
  - split; [lia | reflexivity].
  - rewrite decode_char_decoded, IHall. split; [lia | reflexivity].
Qed.

(** Whatever memory holds, [_decode_text] returns at most [length]
    characters (none for a length of zero or less), each of them a letter,
    a digit, a space, a gender sign or a question mark. *)
Lemma decode_text_bounded (mem : Memory) (addr length : Z) :
  Z.of_nat (List.length (_decode_text mem addr length)) <= Z.max 0 length /\
  forallb decoded_char (_decode_text mem addr length) = true.
Proof.
  unfold _decode_text.
  destruct (decode_text_loop_bounded mem addr (range length)) as [Hlen Hall].
  rewrite range_length in Hlen. split; [lia | exact Hall].
Qed.

(** *** Badges and status *)

Lemma badges_agree_bytes : all_from badges_agree 0 256 = true.
Proof. vm_compute. reflexivity. Qed.

(** X6.  For a badge byte, the count [get_badges] reports is the number
    of badges it reports as held, and all eight badges are listed. *)
Theorem get_badges_count_agrees (mem : Memory) :
  0 <= mem ADDR_BADGES < 256 ->
  count (get_badges mem) = badges_held (get_badges mem) /\
  length (badges (get_badges mem)) = 8%nat.
Proof.
  intros Hb.
  pose proof (all_from_spec _ _ _ badges_agree_bytes (mem ADDR_BADGES) Hb)
    as H.
  unfold badges_agree in H. apply andb_true_iff in H. destruct H as [Hc Hl].
  apply Z.eqb_eq in Hc. apply Nat.eqb_eq in Hl.
  split; [exact Hc | exact Hl].
Qed.

Lemma land_low_seven (b : Z) :
  Z.land b 0x7F = 0 <->
  Z.land b 0x08 = 0 /\ Z.land b 0x10 = 0 /\ Z.land b 0x20 = 0 /\
  Z.land b 0x40 = 0 /\ Z.land b 0x07 = 0.
Proof.
  change 0x7F
    with (Z.lor 0x08 (Z.lor 0x10 (Z.lor 0x20 (Z.lor 0x40 0x07)))).
  rewrite !Z.land_lor_distr_r, !Z.lor_eq_0_iff. tauto.
Qed.

Lemma land_high_four (b : Z) :
  Z.land b 0x78 = 0 <->
  Z.land b 0x08 = 0 /\ Z.land b 0x10 = 0 /\ Z.land b 0x20 = 0 /\
  Z.land b 0x40 = 0.
Proof.
  change 0x78 with (Z.lor 0x08 (Z.lor 0x10 (Z.lor 0x20 0x40))).
  rewrite !Z.land_lor_distr_r, !Z.lor_eq_0_iff. tauto.
Qed.

(** X7.  [_get_status_name] answers OK exactly when the low seven bits
    of the status byte are clear (the top bit alone does not count),
    Poisoned exactly when bit 3 is set, whatever else is set with it, and
    Asleep exactly when one of the low three bits is set and none of
    bits 3 to 6. *)
Theorem get_status_name_cases (status_byte : Z) :
  (_get_status_name status_byte = "OK"%string
   <-> Z.land status_byte 0x7F = 0) /\
  (_get_status_name status_byte = "Poisoned"%string
   <-> Z.land status_byte 0x08 <> 0) /\
  (_get_status_name status_byte = "Asleep"%string
   <-> Z.land status_byte 0x78 = 0 /\ Z.land status_byte 0x07 <> 0).
Proof.
  rewrite land_low_seven, land_high_four. unfold _get_status_name.
  destruct (Z.eqb_spec status_byte 0) as [->|Hne].
  { rewrite !Z.land_0_l. repeat split; try discriminate; try tauto;
      intros; try reflexivity; tauto. }
  destruct (Z.eqb_spec (Z.land status_byte 0x08) 0) as [H8|H8];
  destruct (Z.eqb_spec (Z.land status_byte 0x10) 0) as [H10|H10];
  destruct (Z.eqb_spec (Z.land status_byte 0x20) 0) as [H20|H20];
  destruct (Z.eqb_spec (Z.land status_byte 0x40) 0) as [H40|H40];
  destruct (Z.eqb_spec (Z.land status_byte 0x07) 0) as [H7|H7];
  cbn [negb];
  repeat split; intros; try discriminate; try reflexivity; try tauto.
Qed.

(** *** The party *)

Lemma party_moves_shape (mem : Memory) (base : Z) :
  (length (party_moves mem base) <= 4)%nat /\
  Forall (fun m => 0 <= pp m <= 63) (party_moves mem base).
Proof.
  assert (Hpp : forall b, 0 <= Z.land b 0x3F <= 63).
  { intros b. change 0x3F with (Z.ones 6). rewrite Z.land_ones by lia.
    pose proof (Z.mod_pos_bound b (2 ^ 6) eq_refl).
    change (2 ^ 6) with 64 in *. change (Z.ones 6) with 63. lia. }
  unfold party_moves. change (range 4) with [0; 1; 2; 3]. cbn [flat_map].
  repeat match goal with
         | |- context [0 <? ?x] => destruct (0 <? x)
         end;
    cbn [app length]; (split; [lia|]);
    repeat constructor; cbn [pp]; apply Hpp.
Qed.

(** The body of the loop of [get_party] adds an entry or none; an entry
    carries the slot of its index. *)
Lemma flat_map_slots {A} (f : Z -> list A) (slot_of : A -> Z) (P : A -> Prop)
    (l : list Z) (lo hi : Z) :
  (forall i, In i l ->
     f i = [] \/ exists x, f i = [x] /\ slot_of x = i + 1 /\ P x) ->
  (forall i, In i l -> lo <= i < hi) ->
  StronglySorted Z.lt l ->
  (length (flat_map f l) <= length l)%nat /\
  Forall (fun x => lo + 1 <= slot_of x <= hi /\ P x) (flat_map f l) /\
  StronglySorted Z.lt (map slot_of (flat_map f l)) /\
  Forall (fun x => In (slot_of x - 1) l) (flat_map f l).
Proof.
  revert lo hi.
  induction l as [|i l IH]; intros lo hi Hf Hrange Hsorted.
  { simpl. repeat split; constructor. }
  inversion Hsorted as [|? ? Hs Hlt]; subst.
  destruct (IH lo hi) as (Hlen & Hall & Hsort & Hin).
  { intros k Hk. apply Hf. now right. }
  { intros k Hk. apply Hrange. now right. }
  { exact Hs. }
  assert (Hin' : Forall (fun x => In (slot_of x - 1) (i :: l)) (flat_map f l)).
  { eapply Forall_impl; [exact Hin|]. intros x Hx. now right. }
  simpl flat_map.
  destruct (Hf i (or_introl eq_refl)) as [-> | (x & -> & Hslot & HP)].
  - simpl. repeat split; auto.
  - cbn [app length map]. repeat split.
    + lia.
    + constructor; [|exact Hall].
      pose proof (Hrange i (or_introl eq_refl)). split; [lia | exact HP].
    + constructor; [exact Hsort|].
      apply List.Forall_forall. intros s Hs'.
      apply in_map_iff in Hs'. destruct Hs' as (y & <- & Hy).
      rewrite List.Forall_forall in Hin. specialize (Hin y Hy).
      rewrite List.Forall_forall in Hlt. specialize (Hlt _ Hin). lia.
    + constructor; [|exact Hin'].
      left. lia.
Qed.

Lemma range_sorted (n : Z) : StronglySorted Z.lt (range n).
Proof.
  unfold range. generalize (Z.to_nat n) as k. intros k.
  induction k as [|k IH]; [constructor|].
  rewrite seq_S, map_app. simpl.
  apply StronglySorted_app_2; [| exact IH | repeat constructor].
  intros x y Hx Hy. apply list_elem_of_In in Hx, Hy.
  apply in_map_iff in Hx. destruct Hx as (j & <- & Hj). apply in_seq in Hj.
  destruct Hy as [<- | []]. lia.
Qed.

(** X8.  Whatever memory holds, [get_party] lists at most six entries;
    their slots lie between 1 and 6 and increase along the list; an entry
    never has species 0 or 0xFF; an entry has at most four moves, each
    with a PP count between 0 and 63. *)
Theorem get_party_shape (mem : Memory) :
  (length (get_party mem) <= 6)%nat /\
  Forall well_formed_entry (get_party mem) /\
  StronglySorted Z.lt (map slot (get_party mem)).
Proof.
  unfold get_party.
  set (n := Z.min (_read_byte mem ADDR_PARTY_COUNT) 6).
  match goal with
  | |- context [flat_map ?f (range n)] => set (body := f)
  end.
  destruct (flat_map_slots body slot
              (fun p => species_id p <> 0 /\ species_id p <> 0xFF /\
                        (length (moves p) <= 4)%nat /\
                        Forall (fun m => 0 <= pp m <= 63) (moves p))
              (range n) 0 6) as (Hlen & Hall & Hsort & _).
  - intros i _. unfold body.
    destruct (Z.eqb_spec (_read_byte mem (ADDR_PARTY_SPECIES + i)) 0)
      as [H0|H0]; [left; reflexivity|].
    destruct (Z.eqb_spec (_read_byte mem (ADDR_PARTY_SPECIES + i)) 0xFF)
      as [HF|HF]; [left; reflexivity|].
    right. eexists. split; [reflexivity|]. cbn [slot species_id moves].
    pose proof (party_moves_shape mem (ADDR_PARTY_DATA + i * 44)) as [? ?].
    repeat split; assumption.
  - intros i Hi. apply range_In in Hi. lia.
  - apply range_sorted.
  - rewrite range_length in Hlen. split; [lia|]. split; [|exact Hsort].
    eapply Forall_impl; [exact Hall|].
    intros p (Hs & H0 & HF & Hm & Hpp). unfold well_formed_entry.
    repeat split; try assumption; lia.
Qed.

(** X9.  An entry keeps the number of its place in memory: slot [s] is
    listed exactly when [s] is at most the party count and at most 6 and
    the species byte of place [s - 1] is neither 0 nor 0xFF, so a skipped
    place leaves a gap in the slot numbers and moves no later entry up. *)
Theorem get_party_slots (mem : Memory) (s : Z) :
  In s (map slot (get_party mem)) <->
  1 <= s <= Z.min (_read_byte mem ADDR_PARTY_COUNT) 6 /\
  _read_byte mem (ADDR_PARTY_SPECIES + (s - 1)) <> 0 /\
  _read_byte mem (ADDR_PARTY_SPECIES + (s - 1)) <> 0xFF.
Proof.
  unfold get_party. rewrite in_map_iff. split.
  - intros (p & <- & Hp). apply in_flat_map in Hp.
    destruct Hp as (i & Hi & Hp). apply range_In in Hi.
    destruct (Z.eqb_spec (_read_byte mem (ADDR_PARTY_SPECIES + i)) 0)
      as [H0|H0]; [destruct Hp|].
    destruct (Z.eqb_spec (_read_byte mem (ADDR_PARTY_SPECIES + i)) 0xFF)
      as [HF|HF]; [destruct Hp|].
    destruct Hp as [<- | []]. cbn [slot].
    replace (i + 1 - 1) with i by lia. repeat split; try assumption; lia.
  - intros (Hs & H0 & HF).
    eexists. split; [|apply in_flat_map; exists (s - 1); split;
                       [apply range_In; lia|]].
    2: { apply Z.eqb_neq in H0, HF. rewrite H0, HF. left. reflexivity. }
    cbn [slot]. lia.
Qed.

End GameState.

Lemma read_word_value_witness :
  emulator._read_word_be (memory_with 0xD16C [0x01; 0x2C]) 0xD16C = 300 /\
  emulator._read_word (memory_with 0xD16C [0x01; 0x2C]) 0xD16C = 11265.
Proof.
  pose proof (read_word_value (memory_with 0xD16C [0x01; 0x2C]) 0xD16C
                ltac:(vm_compute; split; [discriminate | reflexivity])
                ltac:(vm_compute; split; [discriminate | reflexivity]))
    as (Hbe & Hle & _).
  split; [exact Hbe | exact Hle].
Defined.

Lemma decode_bcd_round_trip_witness :
  emulator._decode_bcd
    (memory_with emulator.ADDR_MONEY (encode_bcd 3 123456))
    emulator.ADDR_MONEY 3
  = 123456.
Proof.
  apply (decode_bcd_round_trip _ emulator.ADDR_MONEY 3 123456).
  - vm_compute. split; [discriminate | reflexivity].
  - apply stored_at_memory_with.
Defined.

Lemma get_money_bound_witness :
  0 <= emulator.get_money (memory_with emulator.ADDR_MONEY [0x12; 0x34; 0x56])
    <= 999999.
Proof.
  apply (get_money_bound
           (memory_with emulator.ADDR_MONEY [0x12; 0x34; 0x56])).
  intros i Hi.
  assert (Hc : i = 0 \/ i = 1 \/ i = 2) by lia.
  destruct Hc as [-> | [-> | ->]]; vm_compute; repeat split; discriminate.
Defined.

Lemma decode_text_stops_at_terminator_witness :
  emulator._decode_text
    (memory_with emulator.ADDR_PLAYER_NAME [0x91; 0x84; 0x83; 0x50; 0x80])
    emulator.ADDR_PLAYER_NAME 11
  = [82; 69; 68].
Proof.
  apply (decode_text_stops_at_terminator
           (memory_with emulator.ADDR_PLAYER_NAME
              [0x91; 0x84; 0x83; 0x50; 0x80])
           emulator.ADDR_PLAYER_NAME 11 3).
  - lia.
  - intros i Hi.
    assert (Hc : i = 0 \/ i = 1 \/ i = 2) by lia.
    destruct Hc as [-> | [-> | ->]]; vm_compute; discriminate.
  - reflexivity.
Defined.


Lemma get_badges_count_agrees_witness :
  emulator.count
    (emulator.get_badges (memory_with emulator.ADDR_BADGES [0x85])) = 3.
Proof.
  refine (eq_trans
            (proj1 (get_badges_count_agrees
                      (memory_with emulator.ADDR_BADGES [0x85]) _)) _).
  - vm_compute. split; [discriminate | reflexivity].
  - reflexivity.
Defined.

Lemma get_status_name_cases_witness :
  emulator._get_status_name 0x80 = "OK"%string /\
  emulator._get_status_name 0x4C = "Poisoned"%string.
Proof.
  split.
  - apply (proj1 (get_status_name_cases 0x80)). reflexivity.
  - apply (proj1 (proj2 (get_status_name_cases 0x4C))). discriminate.
Defined.

Lemma get_party_slots_witness :
  In 3 (map emulator.slot
          (emulator.get_party
             (memory_with emulator.ADDR_PARTY_COUNT [3; 0x99; 0x00; 0xB0]))).
Proof.
  apply (proj2 (get_party_slots
                  (memory_with emulator.ADDR_PARTY_COUNT [3; 0x99; 0x00; 0xB0])
                  3)).
  vm_compute. repeat split; discriminate.
Defined.

(** ** The emulator wrapper: holding and releasing *)

Section ButtonHold.

Import emulator.

Lemma unreleased_snoc (log : list PyBoyCall) (c : PyBoyCall) :
  unreleased (log ++ [c])
  = match c with
    | PyButton b =>
        b :: List.filter (fun x => negb (String.eqb x b)) (unreleased log)
    | PyButtonRelease b =>
        List.filter (fun x => negb (String.eqb x b)) (unreleased log)
    | PyTick => unreleased log
    end.
Proof. unfold unreleased. now rewrite fold_left_app. Qed.

Lemma release_keeps_consistent (e : Emulator) :
  hold_consistent e ->
  hold_consistent (_release_current_button e) /\
  _held_button (_release_current_button e) = None.
Proof.
  unfold hold_consistent, _release_current_button.
  destruct (_held_button e) as [b|] eqn:Hb; fields.
  - intros (_ & _ & Hdown). rewrite unreleased_snoc, Hdown. cbn.
    rewrite String.eqb_refl. cbn. auto.
  - rewrite Hb. auto.
Qed.

Lemma press_keeps_consistent (button : string) (e : Emulator) :
  hold_consistent e -> hold_consistent (press_button button e).2.
Proof.
  intros He. unfold press_button.
  destruct (str_in (lower button) VALID_BUTTONS) eqn:Hin; cbn [negb];
    [|exact He].
  cbn [snd].
  assert (H1 : hold_consistent
                 (match _held_button e with
                  | Some _ => _release_current_button e
                  | None => e
                  end) /\
               _held_button
                 (match _held_button e with
                  | Some _ => _release_current_button e
                  | None => e
                  end) = None).
  { destruct (_held_button e) eqn:Hb.
    - now apply release_keeps_consistent.
    - split; [exact He | exact Hb]. }
  destruct H1 as [Hc Hn]. unfold hold_consistent in Hc. rewrite Hn in Hc.
  destruct Hc as [_ Hdown].
  apply str_in_In in Hin.
  unfold hold_consistent. fields. rewrite unreleased_snoc, Hdown.
  split; [unfold BUTTON_HOLD_FRAMES; lia|]. split; [exact Hin | reflexivity].
Qed.

Lemma tick_keeps_consistent (audio_data : list Z) (e : Emulator) :
  hold_consistent e -> hold_consistent (tick audio_data e).2.
Proof.
  unfold hold_consistent, tick. fields.
  destruct (_held_button e) as [b|] eqn:Hb.
  - intros (Hr & Hin & Hdown).
    destruct (Z.ltb_spec 0 (_hold_frames_remaining e)); [|lia].
    destruct (Z.eqb_spec (_hold_frames_remaining e - 1) 0) as [H1|H1].
    + unfold _release_current_button. fields. rewrite ?Hb. fields.
      rewrite !unreleased_snoc, Hdown. cbn.
      rewrite String.eqb_refl. cbn. auto.
    + fields. rewrite ?Hb, unreleased_snoc, Hdown.
      unfold BUTTON_HOLD_FRAMES in *. repeat split; try assumption; lia.
  - intros (Hr & Hdown). rewrite Hr. cbn [Z.ltb Z.compare]. fields.
    rewrite ?Hb, unreleased_snoc. auto.
Qed.

Lemma tick_multiple_keeps_consistent (count : Z) (audio : Z -> list Z)
    (e : Emulator) :
  hold_consistent e -> hold_consistent (tick_multiple count audio e).
Proof.
  unfold tick_multiple. generalize (range count) as l. intros l. revert e.
  induction l as [|i l IH]; intros e He; [exact He|].
  cbn [fold_left]. apply IH. apply tick_keeps_consistent. exact He.
Qed.

Lemma save_state_keeps_hold (data : list Z) (f : Fs.faults) (now : Time)
    (e : Emulator) (d : Fs.Disk) :
  hold_consistent e -> hold_consistent (save_state data f now e d).1.2.
Proof.
  intros He. unfold save_state.
  destruct (Pathlib.with_suffix _ _); [|exact He].
  destruct (staged_write _ _ _ _ _) as [[|] d']; exact He.
Qed.

Lemma call_keeps_consistent (c : EmulatorCall) (x : Emulator * Fs.Disk) :
  hold_consistent x.1 -> hold_consistent (call c x).1.
Proof.
  destruct x as [e d]. intros He. cbn [fst] in He.
  destruct c; cbn [call fst].
  - now apply press_keeps_consistent.
  - now apply tick_keeps_consistent.
  - now apply tick_multiple_keeps_consistent.
  - pose proof (save_state_keeps_hold data f now e d He) as H.
    destruct (save_state data f now e d) as [[ok e'] d']. exact H.
  - exact He.
  - unfold stop.
    pose proof (save_state_keeps_hold data f now e d He) as H.
    destruct (save_state data f now e d) as [[ok e'] d']. cbn [fst].
    now apply release_keeps_consistent.
Qed.

(** X10.  Through any sequence of calls of [press_button], [tick],
    [tick_multiple], [save_state], [save_screenshot] and [stop], the
    wrapper's calls on PyBoy pair up and match its record: it never calls
    [pyboy.button] for a new button before it has called
    [pyboy.button_release] for the one it recorded as held.  With no
    button recorded the counter is 0 and every press in the log has its
    release; with a button recorded the counter is between 1 and 8, the
    button is a valid one, and its press is the only one without a
    release. *)
Theorem hold_stays_consistent (cs : list EmulatorCall)
    (e : Emulator) (d : Fs.Disk) :
  hold_consistent e -> hold_consistent (calls cs (e, d)).1.
Proof.
  unfold calls. change e with (e, d).1 at 1. generalize (e, d) as x.
  induction cs as [|c cs IH]; intros x Hx; [exact Hx|].
  simpl. apply IH. now apply call_keeps_consistent.
Qed.

(** [stop] leaves no press without its release, whether the final save
    succeeds or fails. *)
Lemma stop_releases (data : list Z) (f : Fs.faults) (now : Time)
    (e : Emulator) (d : Fs.Disk) :
  hold_consistent e ->
  _held_button (stop data f now e d).1 = None /\
  unreleased (pyboy (stop data f now e d).1) = [].
Proof.
  intros He. unfold stop.
  pose proof (save_state_keeps_hold data f now e d He) as H.
  destruct (save_state data f now e d) as [[ok e'] d']. cbn [fst snd] in *.
  destruct (release_keeps_consistent e' H) as [Hc Hn].
  split; [exact Hn|]. unfold hold_consistent in Hc. rewrite Hn in Hc.
  apply Hc.
Qed.




(** The save timer follows successful saves only: after a
    [save_state] that succeeded at clock reading [now],
    [should_auto_save] first answers yes when the interval has gone by
    since [now]; a [save_state] that failed leaves the emulator object,
    and with it the timer, as it was. *)
Lemma should_auto_save_after_save (data : list Z) (f : Fs.faults)
    (now : Time) (e : Emulator) (d : Fs.Disk) :
  let r := save_state data f now e d in
  (r.1.1 = true ->
     forall t interval_seconds,
       should_auto_save t interval_seconds r.1.2 = true
       <-> now + interval_seconds <= t) /\
  (r.1.1 = false -> r.1.2 = e).
Proof.
  cbn zeta. unfold save_state.
  destruct (Pathlib.with_suffix _ _);
    [|split; [discriminate | reflexivity]].
  destruct (staged_write _ _ _ _ _) as [[|] d']; cbn [fst snd].
  - split; [|discriminate]. intros _ t i. unfold should_auto_save.
    cbn [set_last_save_time _last_save_time]. rewrite Z.leb_le. lia.
  - split; [discriminate | reflexivity].
Qed.

End ButtonHold.

Lemma hold_stays_consistent_witness :
  hold_consistent
    (calls [CallPressButton "A"; CallTick []; CallPressButton "left";
            CallTickMultiple 9 (fun _ => []);
            CallStop [1; 2] Fs.no_faults 5]
       (fresh_emulator, ∅)).1.
Proof.
  apply hold_stays_consistent. vm_compute. auto.
Defined.


(** ** The orchestrator: rejected winners, the countdown, the timers *)

Section Orchestrator.

Import main.

(** X12.  A new previous result whose winner is not a recognized button
    is still consumed, when the status lets [update_state_from_api] reach
    it, that is when neither [currentWindow] nor its [allTallies] is null:
    the emulator is left as it was, but the window is marked as acted on,
    the winner is shown as the last action with the votes the record
    carries (0 when the key is missing, [None] when it is null), and the
    screenshot countdown is armed at 20 frames.  On a null [currentWindow]
    or a null [allTallies] the method raises before it reads the previous
    result, and nothing is consumed. *)
Theorem unrecognised_winner_consumes_window (status : Status)
    (c : ClawPlaysPokemon) (prev : PreviousResult) (w : string) :
  previousResult status = Some prev ->
  windowId prev <> last_window_id c ->
  truthy (winner prev) = Some w ->
  recognized w = false ->
  if raises status then update_state_from_api status c = None
  else
    exists r, update_state_from_api status c = Some r /\
      emu r.1 = emu c /\
      last_window_id r.1 = windowId prev /\
      last_winner r.1 = Some w /\
      last_winner_votes r.1 = get_default (totalVotes prev) 0 /\
      _post_move_screenshot_frames r.1 = 20 /\
      r.2 = [Injected (windowId prev) w false].
Proof.
  intros Hprev Hnew Hw Hrec. unfold update_state_from_api, raises.
  destruct (currentWindow status) as [| |current];
    cbn [get_default allTallies timeRemainingSeconds]; [|reflexivity|].
  2: destruct (allTallies current) as [| |tallies]; cbn [get_default];
       [|reflexivity|].
  all: rewrite Hprev; cbn [last_window_id set_time_remaining set_tallies].
  all: rewrite bool_decide_eq_false_2 by exact Hnew; cbn [negb]; rewrite Hw.
  all: cbn [emu set_last_winner set_last_window_id set_time_remaining
              set_tallies].
  all: rewrite (press_button_rejects w (emu c) Hrec); cbn.
  all: eexists; split; [reflexivity|]; repeat split; reflexivity.
Qed.

Lemma update_state_from_api_countdown (status : Status)
    (c : ClawPlaysPokemon) :
  match update_state_from_api status c with
  | None => True
  | Some r =>
      (_post_move_screenshot_frames r.1 = _post_move_screenshot_frames c \/
       _post_move_screenshot_frames r.1 = POST_MOVE_FRAMES) /\
      last_winner r.1
      = match last_injected r.2 with
        | Some win => Some win
        | None => last_winner c
        end
  end.
Proof.
  unfold update_state_from_api.
  destruct (currentWindow status) as [| |current];
    cbn [get_default allTallies timeRemainingSeconds]; [|exact I|].
  2: destruct (allTallies current) as [| |tallies]; cbn [get_default];
       [|exact I|].
  all: destruct (previousResult status) as [prev|]; simpl; [|auto].
  all: destruct (bool_decide (windowId prev = last_window_id c)); simpl;
    [auto|].
  all: destruct (truthy (winner prev)) as [w|]; simpl; [|auto].
  all: destruct (emulator.press_button w (emu c)) as [accepted e]; simpl; auto.
Qed.

Lemma last_injected_app (evs1 evs2 : list Event) :
  last_injected (evs1 ++ evs2)
  = match last_injected evs2 with
    | Some win => Some win
    | None => last_injected evs1
    end.
Proof.
  unfold last_injected. rewrite fold_left_app.
  generalize (fold_left
                (fun acc ev =>
                   match ev with
                   | Injected _ winner _ => Some winner
                   | _ => acc
                   end) evs1 None) as a.
  induction evs2 as [|ev evs2 IH] using rev_ind; intros a.
  - simpl. now destruct a.
  - rewrite !fold_left_app. simpl. destruct ev; try reflexivity; apply IH.
Qed.

(** What an iteration of [emulator_loop] does to the two timers, how
    many periodic screenshots and saves it makes, and that it leaves the
    last action alone. *)
Lemma emulator_loop_body_timers (env : TickEnv) (w : World) :
  let r := emulator_loop_body env w in
  let n := _post_move_screenshot_frames (app w) in
  let shot_due :=
    SCREENSHOT_UPDATE_INTERVAL
    <=? loop_start env - last_screenshot_time (locals w) in
  let save_due :=
    SAVE_STATE_INTERVAL <=? loop_start env - last_auto_save_time (locals w) in
  last_screenshot_time (locals r.1)
  = (if shot_due || ((0 <? n) && (n - 1 =? 0)) then loop_start env
     else last_screenshot_time (locals w)) /\
  last_auto_save_time (locals r.1)
  = (if save_due then loop_start env else last_auto_save_time (locals w)) /\
  periodic_captures r.2 = (if shot_due then 1%nat else 0%nat) /\
  autosaves r.2 = (if save_due then 1%nat else 0%nat) /\
  last_winner (app r.1) = last_winner (app w) /\
  last_injected r.2 = None.
Proof.
  unfold emulator_loop_body.
  destruct (emulator.tick (audio_samples env) (emu (app w))) as [audio e].
  set (c1 := match rtmp_streamer (set_emu e (app w)) with
             | Some s =>
                 if compositor.running s
                 then set_rtmp_streamer
                        (Some (compositor.send_audio (compositor.NdArray audio)
                                 AUDIO_VOLUME_BOOST s).2) (set_emu e (app w))
                 else set_emu e (app w)
             | None => set_emu e (app w)
             end).
  assert (Hc1 : last_winner c1 = last_winner (app w) /\
                _post_move_screenshot_frames c1
                = _post_move_screenshot_frames (app w)).
  { unfold c1. destruct (rtmp_streamer (set_emu e (app w))) as [s|]; simpl;
      [destruct (compositor.running s)|]; simpl; auto. }
  destruct Hc1 as [Hid Hn]. clearbody c1.
  destruct (SCREENSHOT_UPDATE_INTERVAL <=?
            loop_start env - last_screenshot_time (locals w));
    [destruct (emulator.save_screenshot _ (periodic_faults env) _ _)|];
    rewrite Hn;
    (destruct (0 <? _post_move_screenshot_frames (app w)) eqn:Hpos; simpl;
     [destruct (_post_move_screenshot_frames (app w) - 1 =? 0) eqn:Hz; simpl;
      [destruct (emulator.save_screenshot _ (post_move_faults env) _ _)|]|]);
    (destruct (SAVE_STATE_INTERVAL <=?
               loop_start env - last_auto_save_time (locals w));
     [destruct (emulator.save_state _ _ _ _ _) as [[? ?] ?]|]);
    simpl; rewrite ?Hn, ?Hz; auto 10.
Qed.

Lemma vote_poll_loop_body_effect (status : option Status)
    (voters : list (string * string)) (w : World) :
  let r := vote_poll_loop_body status voters w in
  locals r.1 = locals w /\
  periodic_captures r.2 = 0%nat /\ autosaves r.2 = 0%nat /\
  (_post_move_screenshot_frames (app r.1)
   = _post_move_screenshot_frames (app w) \/
   _post_move_screenshot_frames (app r.1) = POST_MOVE_FRAMES) /\
  last_winner (app r.1)
  = match last_injected r.2 with
    | Some win => Some win
    | None => last_winner (app w)
    end.
Proof.
  unfold vote_poll_loop_body. destruct status as [status|]; simpl;
    [|auto 10].
  pose proof (update_state_from_api_countdown status (app w)) as Hc.
  pose proof (update_state_from_api_effect status (app w)) as He.
  destruct (update_state_from_api status (app w)) as [[c evs]|];
    [destruct Hc as [Hcd Hlw]; destruct He as [_ He] | simpl; auto 10].
  simpl in *.
  split; [reflexivity|].
  assert (Hev : evs = [] \/ exists a b ok, evs = [Injected a b ok]).
  { destruct (previousResult status) as [prev|].
    - destruct He as [_ He].
      destruct (bool_decide _); [left; apply He|].
      destruct (truthy _); [right; do 3 eexists; apply He | left; apply He].
    - left. apply He. }
  split; [|split; [|split; [exact Hcd | exact Hlw]]];
    destruct Hev as [-> | (a & b & ok & ->)]; reflexivity.
Qed.

(** X13.  The screenshot countdown never leaves the range from 0 to 20,
    whatever polls and emulator frames follow one another. *)
Theorem countdown_stays_in_range (ts : list Turn) :
  forall w : World,
    0 <= _post_move_screenshot_frames (app w) <= 20 ->
    0 <= _post_move_screenshot_frames (app (run ts w).1) <= 20.
Proof.
  induction ts as [|t ts IH]; intros w Hw; [exact Hw|].
  simpl.
  assert (H1 : 0 <= _post_move_screenshot_frames (app (turn t w).1) <= 20).
  { destruct t as [env | status voters]; simpl.
    - destruct (emulator_loop_body_effect env w) as (_ & -> & _).
      destruct (Z.ltb_spec 0 (_post_move_screenshot_frames (app w))); lia.
    - destruct (vote_poll_loop_body_effect status voters w)
        as (_ & _ & _ & [-> | ->] & _); [exact Hw|].
      unfold POST_MOVE_FRAMES. lia. }
  destruct (turn t w) as [w1 evs1]. specialize (IH w1 H1).
  destruct (run ts w1) as [w2 evs2]. exact IH.
Qed.

Lemma turn_last_winner (t : Turn) (w : World) :
  last_winner (app (turn t w).1)
  = match last_injected (turn t w).2 with
    | Some win => Some win
    | None => last_winner (app w)
    end.
Proof.
  destruct t as [env | status voters]; simpl.
  - destruct (emulator_loop_body_timers env w) as (_ & _ & _ & _ & -> & ->).
    reflexivity.
  - apply vote_poll_loop_body_effect.
Qed.

(** X14.  The last action shown is the winner of the latest injection of
    the run, accepted by the emulator or not; a run without an injection
    leaves it as it was, so a window that ends without votes never clears
    it. *)
Theorem last_winner_is_latest_injection (ts : list Turn) :
  forall w : World,
    last_winner (app (run ts w).1)
    = match last_injected (run ts w).2 with
      | Some win => Some win
      | None => last_winner (app w)
      end.
Proof.
  induction ts as [|t ts IH]; intros w; [reflexivity|].
  simpl. pose proof (turn_last_winner t w) as Ht.
  destruct (turn t w) as [w1 evs1]. specialize (IH w1).
  destruct (run ts w1) as [w2 evs2]. simpl in *.
  rewrite last_injected_app, IH, Ht.
  destruct (last_injected evs2); reflexivity.
Qed.

Lemma autosaves_app (evs1 evs2 : list Event) :
  autosaves (evs1 ++ evs2) = (autosaves evs1 + autosaves evs2)%nat.
Proof. unfold autosaves. now rewrite List.filter_app, length_app. Qed.

Lemma periodic_captures_app (evs1 evs2 : list Event) :
  periodic_captures (evs1 ++ evs2)
  = (periodic_captures evs1 + periodic_captures evs2)%nat.
Proof. unfold periodic_captures. now rewrite List.filter_app, length_app. Qed.

Lemma quiet_autosave (ts : list Turn) :
  forall (w : World) (t : Z),
    t <= last_auto_save_time (locals w) ->
    ticks_within t SAVE_STATE_INTERVAL ts ->
    autosaves (run ts w).2 = 0%nat.
Proof.
  induction ts as [|tn ts IH]; intros w t Ht Hin; [reflexivity|].
  simpl.
  assert (H1 : autosaves (turn tn w).2 = 0%nat /\
               t <= last_auto_save_time (locals (turn tn w).1)).
  { destruct tn as [env | status voters]; simpl.
    - destruct (emulator_loop_body_timers env w) as (_ & -> & _ & -> & _).
      specialize (Hin env (or_introl eq_refl)).
      destruct (Z.leb_spec SAVE_STATE_INTERVAL
                  (loop_start env - last_auto_save_time (locals w)));
        [lia | auto].
    - destruct (vote_poll_loop_body_effect status voters w)
        as (-> & _ & -> & _). auto. }
  destruct H1 as [H0 Ht1].
  destruct (turn tn w) as [w1 evs1].
  specialize (IH w1 t Ht1 (fun env H => Hin env (or_intror H))).
  destruct (run ts w1) as [w2 evs2]. simpl in *.
  rewrite autosaves_app. lia.
Qed.

(** X15.  An [emulator_loop] iteration that finds the save interval
    elapsed calls [save_state] once, and whether that save succeeds or
    fails no later iteration calls it again while the loop clock reads
    less than the interval of 300 seconds later (and not earlier). *)
Theorem autosave_not_retried (env : TickEnv) (ts : list Turn) (w : World) :
  SAVE_STATE_INTERVAL <= loop_start env - last_auto_save_time (locals w) ->
  ticks_within (loop_start env) SAVE_STATE_INTERVAL ts ->
  autosaves (run (Tick env :: ts) w).2 = 1%nat.
Proof.
  intros Hdue Hin. cbn [run turn].
  destruct (emulator_loop_body_timers env w) as (_ & Ht & _ & Ha & _).
  destruct (emulator_loop_body env w) as [w1 evs1]. cbn [fst snd] in *.
  apply Z.leb_le in Hdue. rewrite Hdue in Ht, Ha.
  pose proof (quiet_autosave ts w1 (loop_start env) ltac:(lia) Hin) as Hq.
  destruct (run ts w1) as [w2 evs2]. cbn [fst snd] in *.
  rewrite autosaves_app. lia.
Qed.

Lemma quiet_periodic (ts : list Turn) :
  forall (w : World) (t : Z),
    t <= last_screenshot_time (locals w) ->
    ticks_within t SCREENSHOT_UPDATE_INTERVAL ts ->
    periodic_captures (run ts w).2 = 0%nat.
Proof.
  induction ts as [|tn ts IH]; intros w t Ht Hin; [reflexivity|].
  simpl.
  assert (H1 : periodic_captures (turn tn w).2 = 0%nat /\
               t <= last_screenshot_time (locals (turn tn w).1)).
  { destruct tn as [env | status voters]; simpl.
    - destruct (emulator_loop_body_timers env w) as (-> & _ & -> & _).
      specialize (Hin env (or_introl eq_refl)).
      destruct (Z.leb_spec SCREENSHOT_UPDATE_INTERVAL
                  (loop_start env - last_screenshot_time (locals w)));
        [lia|].
      split; [reflexivity|]. cbn [orb].
      destruct ((0 <? _) && _); [|lia].
      unfold SCREENSHOT_UPDATE_INTERVAL in *. lia.
    - destruct (vote_poll_loop_body_effect status voters w)
        as (-> & -> & _). auto. }
  destruct H1 as [H0 Ht1].
  destruct (turn tn w) as [w1 evs1].
  specialize (IH w1 t Ht1 (fun env H => Hin env (or_intror H))).
  destruct (run ts w1) as [w2 evs2]. simpl in *.
  rewrite periodic_captures_app. lia.
Qed.

(** X16.  The iteration in which the countdown reaches 0 takes the
    screenshot of the move and restarts the timer of the periodic one:
    after it, no periodic screenshot is taken while the loop clock reads
    less than 100 milliseconds later (and not earlier). *)
Theorem post_move_capture_resets_periodic (env : TickEnv) (ts : list Turn)
    (w : World) :
  _post_move_screenshot_frames (app w) = 1 ->
  ticks_within (loop_start env) SCREENSHOT_UPDATE_INTERVAL ts ->
  post_move_captures (emulator_loop_body env w).2 = 1%nat /\
  periodic_captures (run ts (emulator_loop_body env w).1).2 = 0%nat.
Proof.
  intros H1 Hin.
  pose proof (emulator_loop_body_effect env w) as He.
  pose proof (emulator_loop_body_timers env w) as Ht.
  cbv zeta in He, Ht. rewrite H1 in He, Ht.
  change ((0 <? 1) && (1 - 1 =? 0)) with true in He, Ht.
  rewrite orb_true_r in Ht.
  destruct He as (_ & _ & _ & Hpm). destruct Ht as (Ht & _).
  split; [exact Hpm|].
  apply (quiet_periodic ts _ (loop_start env)); [lia | exact Hin].
Qed.

End Orchestrator.

Lemma unrecognised_winner_consumes_window_witness :
  let prev :=
    {| main.windowId := Some 7;
       main.winner := Some "jump"%string;
       main.totalVotes := main.Value 4 |} in
  let status :=
    {| main.currentWindow := main.Missing;
       main.previousResult := Some prev |} in
  let null_window :=
    {| main.currentWindow := main.Null;
       main.previousResult := Some prev |} in
  (exists r,
     main.update_state_from_api status (main.app fresh_world) = Some r /\
     main.emu r.1 = fresh_emulator /\
     main.last_window_id r.1 = Some 7 /\
     main.last_winner r.1 = Some "jump"%string /\
     main.last_winner_votes r.1 = Some 4 /\
     main._post_move_screenshot_frames r.1 = 20 /\
     r.2 = [main.Injected (Some 7) "jump" false]) /\
  main.update_state_from_api null_window (main.app fresh_world) = None.
Proof.
  intros prev status null_window. split.
  - apply (unrecognised_winner_consumes_window status (main.app fresh_world)
             prev "jump"%string).
    + reflexivity.
    + discriminate.
    + reflexivity.
    + reflexivity.
  - apply (unrecognised_winner_consumes_window null_window
             (main.app fresh_world) prev "jump"%string).
    + reflexivity.
    + discriminate.
    + reflexivity.
    + reflexivity.
Defined.

Lemma countdown_stays_in_range_witness :
  0 <= main._post_move_screenshot_frames
         (main.app
            (main.run [poll_result 5 (Some "a"%string) 12; quiet_tick 17;
                       poll_result 6 (Some "b"%string) 3; quiet_tick 34]
               fresh_world).1)
    <= 20.
Proof.
  apply countdown_stays_in_range. simpl. lia.
Defined.

Lemma autosave_not_retried_witness :
  autosaves
    (main.run [failing_tick 300000; quiet_tick 300017; quiet_tick 599999]
       fresh_world).2
  = 1%nat.
Proof.
  refine (autosave_not_retried
            {| main.loop_start := 300000;
               main.audio_samples := [];
               main.screen_png := [137; 80; 78; 71];
               main.periodic_faults := disk_full_after_two;
               main.post_move_faults := disk_full_after_two;
               main.state_bytes := [1; 2; 3; 4];
               main.autosave_faults := disk_full_after_two;
               main.autosave_now := 300000 |}
            [quiet_tick 300017; quiet_tick 599999] fresh_world _ _).
  - vm_compute. discriminate.
  - intros env Hin. simpl in Hin. unfold quiet_tick in Hin.
    destruct Hin as [H | [H | []]]; injection H as <-; vm_compute;
      (split; [discriminate | reflexivity]).
Defined.

Lemma post_move_capture_resets_periodic_witness :
  let armed :=
    (main.run (poll_result 5 (Some "a"%string) 12
               :: map quiet_tick [1000; 1010; 1020; 1030; 1040; 1050; 1060;
                                  1070; 1080; 1090; 1100; 1110; 1120; 1130;
                                  1140; 1150; 1160; 1170; 1180])
       fresh_world).1 in
  let env :=
    {| main.loop_start := 1190;
       main.audio_samples := [];
       main.screen_png := [137; 80; 78; 71];
       main.periodic_faults := Fs.no_faults;
       main.post_move_faults := Fs.no_faults;
       main.state_bytes := [];
       main.autosave_faults := Fs.no_faults;
       main.autosave_now := 1190 |} in
  main.post_move_captures (main.emulator_loop_body env armed).2 = 1%nat /\
  periodic_captures
    (main.run [quiet_tick 1207; quiet_tick 1289]
       (main.emulator_loop_body env armed).1).2
  = 0%nat.
Proof.
  cbn zeta. apply post_move_capture_resets_periodic.
  - vm_compute. reflexivity.
  - intros env Hin. simpl in Hin. unfold quiet_tick in Hin.
    destruct Hin as [H | [H | []]]; injection H as <-; vm_compute;
      (split; [discriminate | reflexivity]).
Defined.

(** ** The streamer over a whole session *)

Section Session.

Import compositor.

Lemma send_frame_queue (render_frame : StreamState -> option (list Z))
    (state : StreamState) (s : RTMPStreamer) :
  _frame_queue (send_frame render_frame state s).2
  = _frame_queue s
    ++ (if (send_frame render_frame state s).1
        then match render_frame state with
             | Some frame => [frame]
             | None => []
             end
        else []) /\
  ((length (_frame_queue s) <= FRAME_QUEUE_MAXSIZE)%nat ->
   (length (_frame_queue (send_frame render_frame state s).2)
    <= FRAME_QUEUE_MAXSIZE)%nat).
Proof.
  unfold send_frame, put_nowait.
  destruct (running s); cbn [negb fst snd];
    [|rewrite app_nil_r; auto].
  destruct (render_frame state) as [frame|];
    [|cbn [fst snd]; rewrite app_nil_r; auto].
  destruct (Nat.leb_spec FRAME_QUEUE_MAXSIZE (length (_frame_queue s)));
    cbn [fst snd set_frame_queue _frame_queue].
  - rewrite app_nil_r. auto.
  - split; [reflexivity|]. intros _. rewrite length_app. simpl. lia.
Qed.

Lemma send_audio_queue (audio_data : AudioData)
    (volume_boost : Float32.float32) (s : RTMPStreamer) :
  _frame_queue (send_audio audio_data volume_boost s).2 = _frame_queue s.
Proof.
  unfold send_audio. destruct (running s); cbn [negb snd]; [|reflexivity].
  destruct audio_data as [samples | bytes |]; [reflexivity| |reflexivity].
  destruct (frombuffer_int16 bytes); reflexivity.
Qed.

Lemma step_queue_bounded (l : label) (x y : Session) :
  step l x = Some y ->
  (length (_frame_queue (streamer x)) <= FRAME_QUEUE_MAXSIZE)%nat ->
  (length (_frame_queue (streamer y)) <= FRAME_QUEUE_MAXSIZE)%nat.
Proof.
  intros Hstep Hlen.
  step_cases l x Hstep; simpl; rewrite ?send_audio_queue;
    try (apply send_frame_queue);
    rewrite ?Hq; try exact Hlen; simpl in Hlen; simpl; lia.
Qed.

(** X18.  The frame queue never holds more than five frames, however
    the calls of [send_frame] and the steps of the writer threads follow
    one another. *)
Theorem frame_queue_bounded (ls : list label) :
  forall x z : Session,
    exec ls x = Some z ->
    (length (_frame_queue (streamer x)) <= 5)%nat ->
    (length (_frame_queue (streamer z)) <= 5)%nat.
Proof.
  induction ls as [|l ls IH]; intros x z Hexec Hlen; simpl in Hexec.
  - now injection Hexec as <-.
  - destruct (step l x) as [y|] eqn:Hstep; [|discriminate].
    eapply IH; [eassumption|]. eapply step_queue_bounded; eassumption.
Qed.

Lemma step_frames_accounted (l : label) (x y : Session)
    (acc : list (list Z)) :
  step l x = Some y ->
  frames_accounted acc x ->
  frames_accounted (acc ++ accepted_by l x) y.
Proof.
  intros Hstep (mid & Hacc & Hmid). unfold frames_accounted.
  assert (Hsf : forall r st,
            frames_accounted (acc ++ accepted_by (MSendFrame r st) x)
              (set_streamer (send_frame r st (streamer x)).2 x)).
  { intros r st. exists mid. cbn [accepted_by video set_streamer streamer
                                   video_pipe].
    destruct (send_frame_queue r st (streamer x)) as [-> _].
    rewrite Hacc, <- !app_assoc. auto. }
  step_cases l x Hstep; try apply Hsf;
    rewrite ?Hv in Hmid; cbn [between_queue_and_pipe] in Hmid;
    cbn [accepted_by]; rewrite app_nil_r; unfold frames_accounted;
    cbn [set_video set_audio set_streamer stop_flag write_video write_audio
         video video_pipe streamer _frame_queue set_running set_frame_queue
         set_audio_buffer];
    rewrite ?send_audio_queue, ?Hq, ?Hv;
    try (destruct (running (streamer x)));
    cbn [between_queue_and_pipe];
    first
      [ solve [exists mid; split;
               [exact Hacc
               | first [exact Hmid | subst mid; simpl; lia]]]
      | solve [subst mid;
               match goal with
               | |- exists _, _ /\ _ = [?f] => exists [f]
               end;
               split; [exact Hacc | reflexivity]]
      | solve [subst mid; exists []; split;
               [rewrite Hacc, <- !app_assoc; reflexivity | reflexivity]] ].
Qed.

Lemma exec_frames_accounted (ls : list label) :
  forall (x z : Session) (acc : list (list Z)),
    exec ls x = Some z ->
    frames_accounted acc x ->
    frames_accounted (acc ++ accepted_frames ls x) z.
Proof.
  induction ls as [|l ls IH]; intros x z acc Hexec Hacc; simpl in *.
  - injection Hexec as <-. now rewrite app_nil_r.
  - destruct (step l x) as [y|] eqn:Hstep; [|discriminate].
    rewrite app_assoc. apply IH; [exact Hexec|].
    now apply step_frames_accounted.
Qed.

(** X19.  Over a whole session the video pipe receives the accepted
    frames in the order [send_frame] accepted them, each once and none
    skipped: the frames accepted so far are those written, then at most
    one frame the writer took and has not written, then those still
    queued. *)
Theorem frames_written_in_order (ls : list label) (z : Session) :
  exec ls started = Some z ->
  video_pipe z `prefix_of` accepted_frames ls started /\
  exists mid,
    accepted_frames ls started
    = video_pipe z ++ mid ++ _frame_queue (streamer z) /\
    (length mid <= 1)%nat.
Proof.
  intros Hexec.
  destruct (exec_frames_accounted ls started z [] Hexec)
    as (mid & Hacc & Hmid).
  { exists []. split; reflexivity. }
  simpl in Hacc. split.
  - rewrite Hacc. now apply prefix_app_r.
  - exists mid. split; [exact Hacc|].
    destruct (video z); simpl in Hmid; subst; simpl; lia.
Qed.

Lemma step_chunks_sized (l : label) (x y : Session) :
  step l x = Some y ->
  Forall (fun c => length c = samples_per_chunk) (audio_pipe x) /\
  (forall c, audio x = AWrite c -> length c = samples_per_chunk) ->
  Forall (fun c => length c = samples_per_chunk) (audio_pipe y) /\
  (forall c, audio y = AWrite c -> length c = samples_per_chunk).
Proof.
  intros Hstep [Hpipe Hfly].
  step_cases l x Hstep;
    cbn [set_video set_audio set_streamer stop_flag write_video write_audio
         audio audio_pipe];
    rewrite ?Ha;
    try (split; [exact Hpipe | first [exact Hfly | discriminate]]).
  all: try (destruct (running (streamer x)));
    try (match goal with due : bool |- _ => destruct due end);
    try (split; [exact Hpipe | discriminate]).
  all: try (split; [exact Hpipe|]; intros c Hc; injection Hc as <-;
            pose proof (pop_chunk_length samples_per_chunk
                          (_audio_buffer (streamer x))) as Hlen;
            rewrite Hpop in Hlen; exact Hlen).
  all: split; [|discriminate];
    apply Forall_app; split; [exact Hpipe|];
    constructor; [|constructor]; apply Hfly; reflexivity.
Qed.

(** X20.  Every chunk the audio writer puts on the pipe has exactly
    3200 samples, whatever the buffer held when the chunk was taken. *)
Theorem audio_chunks_sized (ls : list label) (z : Session) :
  exec ls started = Some z ->
  Forall (fun c => length c = 3200%nat) (audio_pipe z).
Proof.
  intros Hexec.
  assert (H : forall ls x z,
            exec ls x = Some z ->
            Forall (fun c => length c = samples_per_chunk) (audio_pipe x) /\
            (forall c, audio x = AWrite c -> length c = samples_per_chunk) ->
            Forall (fun c => length c = samples_per_chunk) (audio_pipe z)).
  { clear. induction ls as [|l ls IH]; intros x z Hexec Hx; simpl in Hexec.
    - injection Hexec as <-. apply Hx.
    - destruct (step l x) as [y|] eqn:Hstep; [|discriminate].
      eapply IH; [eassumption|]. eapply step_chunks_sized; eassumption. }
  apply (H ls started z Hexec). split; [constructor | discriminate].
Qed.

(** X21.  Once the flag is down both writer threads return soon: the
    video writer within three of its own steps and the audio writer
    within four, wherever they were and however the threads are
    scheduled. *)
Theorem writers_return_after_stop (ls : list label) :
  forall x z : Session,
    exec ls x = Some z ->
    running (streamer x) = false ->
    ((3 <= length (List.filter is_video_step ls))%nat -> video z = VExit) /\
    ((4 <= length (List.filter is_audio_step ls))%nat -> audio z = AExit).
Proof.
  intros x z Hexec Hoff.
  destruct (exec_counts_down ls x z Hexec Hoff) as [Hv Ha].
  split; intros Hn.
  - destruct (video z); try reflexivity;
      destruct (video x); cbn [video_steps_left] in Hv; lia.
  - destruct (audio z); try reflexivity;
      destruct (audio x); cbn [audio_steps_left] in Ha; lia.
Qed.

Lemma frombuffer_int16_length (bytes : list Z) :
  match frombuffer_int16 bytes with
  | Some samples =>
      Nat.even (length bytes) = true /\
      (2 * length samples = length bytes)%nat /\
      Forall (fun s => -32768 <= s <= 32767) samples
  | None => Nat.even (length bytes) = false
  end.
Proof.
  assert (H : forall n bytes, (length bytes <= n)%nat ->
            match frombuffer_int16 bytes with
            | Some samples =>
                Nat.even (length bytes) = true /\
                (2 * length samples = length bytes)%nat /\
                Forall (fun s => -32768 <= s <= 32767) samples
            | None => Nat.even (length bytes) = false
            end).
  { clear. induction n as [|n IH]; intros bytes Hlen.
    - destruct bytes; [|simpl in Hlen; lia]. simpl. auto.
    - destruct bytes as [|lo [|hi rest]]; [simpl; auto | reflexivity |].
      cbn [frombuffer_int16].
      specialize (IH rest ltac:(simpl in Hlen; lia)).
      destruct (frombuffer_int16 rest) as [samples|].
      + destruct IH as (He & Hl & Hall). cbn [length Nat.even].
        split; [exact He|]. split; [lia|].
        constructor; [|exact Hall]. unfold Float32.wrap16.
        pose proof (Z.mod_pos_bound (lo + 256 * hi + 32768) 65536
                      ltac:(lia)). lia.
      + exact IH. }
  apply (H (length bytes)). lia.
Qed.

(** X22.  A byte string handed to [send_audio] on a running streamer is
    refused, with the streamer left as it was, exactly when its length
    is odd; of an even length every two bytes become one sample within
    the int16 range, appended to the buffer like any other. *)
Theorem send_audio_bytes (bytes : list Z) (volume_boost : Float32.float32)
    (s : RTMPStreamer) :
  running s = true ->
  let r := send_audio (RawBytes bytes) volume_boost s in
  (Nat.even (length bytes) = false -> r = (false, s)) /\
  (Nat.even (length bytes) = true ->
     exists samples,
       (2 * length samples = length bytes)%nat /\
       Forall (fun x => -32768 <= x <= 32767) samples /\
       r = (true,
            set_audio_buffer
              (append_samples max_samples samples (_audio_buffer s)) s)).
Proof.
  intros Hrun. cbn zeta. unfold send_audio. rewrite Hrun. cbn [negb].
  pose proof (frombuffer_int16_length bytes) as H.
  destruct (frombuffer_int16 bytes) as [samples|].
  - destruct H as (He & Hl & Hall). rewrite He. split; [discriminate|].
    intros _. exists samples. auto.
  - rewrite H. split; [reflexivity | discriminate].
Qed.

End Session.

Lemma frame_queue_bounded_witness :
  exists z,
    compositor.exec
      [compositor.MSendFrame render_123 blank_state; compositor.VWriteOk;
       compositor.MSendFrame render_123 blank_state]
      session_queue_full = Some z /\
    (length (compositor._frame_queue (compositor.streamer z)) <= 5)%nat.
Proof.
  eexists. split; [reflexivity|].
  apply (frame_queue_bounded
           [compositor.MSendFrame render_123 blank_state; compositor.VWriteOk;
            compositor.MSendFrame render_123 blank_state]
           session_queue_full _ eq_refl).
  simpl. lia.
Defined.

Lemma frames_written_in_order_witness :
  exists z,
    compositor.exec
      [compositor.VOpened; compositor.MSendFrame render_123 blank_state;
       compositor.VLoopTest; compositor.VGot; compositor.VWriteOk;
       compositor.MSendFrame render_123 blank_state]
      compositor.started = Some z /\
    compositor.video_pipe z `prefix_of` [[1; 2; 3]; [1; 2; 3]].
Proof.
  eexists. split; [reflexivity|].
  apply (proj1 (frames_written_in_order
                  [compositor.VOpened;
                   compositor.MSendFrame render_123 blank_state;
                   compositor.VLoopTest; compositor.VGot; compositor.VWriteOk;
                   compositor.MSendFrame render_123 blank_state]
                  _ eq_refl)).
Defined.

Lemma audio_chunks_sized_witness :
  exists z,
    compositor.exec
      [compositor.AOpened; compositor.ALoopTest; compositor.AElapsed true;
       compositor.ALocked; compositor.AWriteOk]
      compositor.started = Some z /\
    Forall (fun c => length c = 3200%nat) (compositor.audio_pipe z).
Proof.
  eexists. split; [reflexivity|].
  apply (audio_chunks_sized
           [compositor.AOpened; compositor.ALoopTest; compositor.AElapsed true;
            compositor.ALocked; compositor.AWriteOk] _ eq_refl).
Defined.

Lemma writers_return_after_stop_witness :
  exists z,
    compositor.exec
      [compositor.VGot; compositor.ALoopTest; compositor.VWriteOk;
       compositor.VLoopTest]
      (compositor.set_video compositor.VGet
         (compositor.stop_flag session_queue_full)) = Some z /\
    compositor.video z = compositor.VExit.
Proof.
  eexists. split; [reflexivity|].
  apply (proj1 (writers_return_after_stop
                  [compositor.VGot; compositor.ALoopTest; compositor.VWriteOk;
                   compositor.VLoopTest]
                  (compositor.set_video compositor.VGet
                     (compositor.stop_flag session_queue_full)) _
                  eq_refl eq_refl)).
  simpl. lia.
Defined.

Lemma send_audio_bytes_witness :
  compositor.send_audio (compositor.RawBytes [1; 2; 3]) main.AUDIO_VOLUME_BOOST
    streamer_running
  = (false, streamer_running).
Proof.
  apply (proj1 (send_audio_bytes [1; 2; 3] main.AUDIO_VOLUME_BOOST
                  streamer_running eq_refl)).
  reflexivity.
Defined.

(** ** The overlay: [StreamCompositor] and [LocalPreviewOutput] *)

Section Overlay.

Import compositor StreamCompositor.

Variable textbbox_width : string -> Font -> Z.

Lemma upper_ascii_keys :
  forallb (fun kv => String.eqb (upper kv.1) kv.2) BUTTON_SYMBOLS = true.
Proof. reflexivity. Qed.

(** The symbol shown for a button is its upper-case form, whether
    [BUTTON_SYMBOLS] lists the button or not. *)
Lemma symbol_is_upper (button : string) : symbol button = upper button.
Proof.
  unfold symbol.
  assert (H : forall table,
            forallb (fun kv => String.eqb (upper kv.1) kv.2) table = true ->
            dict_get table button (upper button) = upper button).
  { induction table as [|[k v] table IH]; intros Hall; [reflexivity|].
    simpl in Hall. apply andb_true_iff in Hall. destruct Hall as [Hkv Hrest].
    simpl. destruct (String.eqb_spec k button) as [->|_].
    - apply String.eqb_eq in Hkv. now symmetry.
    - now apply IH. }
  apply H, upper_ascii_keys.
Qed.

Lemma str_take_length (n : nat) (s : string) :
  String.length (Pathlib.str_take n s) = Nat.min n (String.length s).
Proof.
  revert s. induction n as [|n IH]; intros [|c s]; simpl; try reflexivity.
  now rewrite IH.
Qed.

(** A voter name of more than fifteen characters is shown as its
    first fifteen followed by three dots, eighteen characters in all, so
    a name of sixteen or seventeen characters is shown longer than it
    is; a shorter name is shown as it is. *)
Lemma display_name_length (name : string) :
  String.length (display_name name)
  = (if (15 <? String.length name)%nat then 18 else String.length name)%nat /\
  Pathlib.str_take 15 (display_name name) = Pathlib.str_take 15 name.
Proof.
  unfold display_name.
  destruct (Nat.ltb_spec 15 (String.length name)) as [Hlong|Hshort];
    [|split; reflexivity].
  split.
  - rewrite append_length, str_take_length.
    change (String.length "...") with 3%nat. lia.
  - clear textbbox_width.
    do 16 (destruct name as [|? name]; [simpl in Hlong; lia|]).
    reflexivity.
Qed.

Lemma bar_width_percent : all_from bar_width_floor 0 101 = true.
Proof. vm_compute. reflexivity. Qed.

Lemma bar_width_percent_value (percentage : Z) :
  0 <= percentage <= 100 ->
  bar_width percentage = Some (percentage * 280 / 100).
Proof.
  intros Hp.
  pose proof (all_from_spec _ _ _ bar_width_percent percentage ltac:(lia))
    as H.
  unfold bar_width_floor in H.
  destruct (bar_width percentage) as [w|]; [|discriminate].
  apply Z.eqb_eq in H. now subst w.
Qed.

(** X24.  For a percentage from 0 to 100 the filled part of a bar is
    [percentage * 280 / 100] pixels wide, rounded down: the two float
    roundings on the way never cost a pixel, the bar is full width only
    at 100, and it never passes the end of its track. *)
Theorem bar_width_in_track (percentage : Z) :
  0 <= percentage <= 100 ->
  bar_width percentage = Some (percentage * 280 / 100) /\
  0 <= percentage * 280 / 100 <= max_bar_width /\
  (percentage * 280 / 100 = max_bar_width <-> percentage = 100).
Proof.
  intros Hp. split; [now apply bar_width_percent_value|].
  unfold max_bar_width.
  pose proof (Z.div_pos (percentage * 280) 100 ltac:(lia) ltac:(lia)).
  assert (percentage * 280 / 100 <= 280)
    by (apply Z.div_le_upper_bound; lia).
  split; [lia|]. split.
  - intros He. destruct (Z.eq_dec percentage 100) as [|Hne]; [assumption|].
    assert (percentage * 280 / 100 < 280)
      by (apply Z.div_lt_upper_bound; lia).
    lia.
  - intros ->. reflexivity.
Qed.

Lemma tally_rows_layout (l : list VoteTally) :
  forall (y y' : Z) (calls : list DrawCall),
    tally_rows y l = Some (y', calls) ->
    y' = y + 32 * Z.of_nat
                    (length (List.filter (fun t => negb (count t =? 0)) l)) /\
    Forall (fun c => y <= call_top c /\ call_bottom c <= y' - 10) calls.
Proof.
  induction l as [|t l IH]; intros y y' calls H; cbn [tally_rows] in H.
  - injection H as <- <-. cbn. split; [lia | constructor].
  - cbn [List.filter]. destruct (count t =? 0); cbn [negb].
    + now apply IH.
    + destruct (bar_width (percentage t)) as [bw|]; [|discriminate].
      destruct (tally_rows (y + 32) l) as [[y1 calls1]|] eqn:Hrest;
        [|discriminate].
      injection H as <- <-.
      destruct (IH _ _ _ Hrest) as [Hy Hall]. cbn [length].
      split; [lia|].
      assert (Hge : y + 32 <= y1) by lia.
      repeat first [ apply Forall_app; split | apply Forall_cons; split
                   | apply Forall_nil ];
        try (cbn [call_top call_bottom]; lia).
      * destruct (0 <? bw); [|constructor].
        constructor; [cbn [call_top call_bottom]; lia | constructor].
      * eapply Forall_impl; [exact Hall|]. cbn beta. intros c ?. lia.
Qed.

Lemma voter_rows_layout (l : list (string * string)) :
  forall y : Z,
    (voter_rows y l).1 = y + 22 * Z.of_nat (length l) /\
    Forall (fun c => y <= call_top c /\ call_bottom c <= (voter_rows y l).1 - 22)
      (voter_rows y l).2.
Proof.
  induction l as [|[name button] l IH]; intros y; cbn [voter_rows].
  - cbn. split; [lia | constructor].
  - destruct (IH (y + 22)) as [Hy Hall].
    destruct (voter_rows (y + 22) l) as [y1 calls1]. cbn [fst snd] in *.
    cbn [length]. split; [lia|].
    constructor; [cbn [call_top call_bottom]; lia|].
    eapply Forall_impl; [exact Hall|]. cbn beta. intros c ?. lia.
Qed.

Lemma filter_length_le {A} (f : A -> bool) (l : list A) :
  (length (List.filter f l) <= length l)%nat.
Proof.
  induction l as [|a l IH]; simpl; [lia|]. destruct (f a); simpl; lia.
Qed.

(** X25.  The sidebar never reaches the footer: whatever the state
    holds, everything [_render_sidebar] draws is placed between [y = 20]
    and [y = 578], above the footer line at [y = 690], and everything
    [render_frame] draws lies within the 720 rows of the canvas. *)
Theorem sidebar_above_footer (state : StreamState) (calls : list DrawCall) :
  render_frame textbbox_width state = Some calls ->
  Forall (fun c => 0 <= call_top c /\ call_bottom c <= HEIGHT) calls /\
  exists sidebar,
    _render_sidebar textbbox_width state = Some sidebar /\
    Forall (fun c => 20 <= call_top c /\ call_bottom c <= 578) sidebar.
Proof.
  unfold render_frame.
  destruct (_render_sidebar textbbox_width state) as [sidebar|] eqn:Hs;
    [|discriminate].
  intros H. injection H as <-.
  assert (Hside : Forall (fun c => 20 <= call_top c /\ call_bottom c <= 578)
                    sidebar).
  { revert Hs. unfold _render_sidebar.
    destruct (tally_rows (20 + 50 + 20 + 35) (take 6 (tallies state)))
      as [[y1 tally_calls]|] eqn:Ht; [|discriminate].
    destruct (tally_rows_layout _ _ _ _ Ht) as [Hy1 Hall1].
    pose proof (filter_length_le (fun t => negb (count t =? 0))
                  (take 6 (tallies state))) as Hk.
    rewrite length_take in Hk.
    pose proof (voter_rows_layout (take 8 (recent_voters state))
                  (y1 + 10 + 20 + 30)) as [Hy2 Hall2].
    destruct (voter_rows (y1 + 10 + 20 + 30) (take 8 (recent_voters state)))
      as [y2 voter_calls]. cbn [fst snd] in *.
    assert (Hv : (length (take 8 (recent_voters state)) <= 8)%nat)
      by (rewrite length_take; lia).
    intros H. injection H as <-.
    repeat first [ apply Forall_app; split | apply Forall_cons; split
                 | apply Forall_nil ];
      try (cbn [call_top call_bottom]; lia).
    - eapply Forall_impl; [exact Hall1|]. cbn beta. intros c ?. lia.
    - eapply Forall_impl; [exact Hall2|]. cbn beta. intros c ?. lia.
    - destruct (main.truthy (last_winner state)); [|constructor].
      constructor; [cbn [call_top call_bottom]; lia | constructor]. }
  split; [|exists sidebar; split; [reflexivity | exact Hside]].
  unfold _render_footer. unfold HEIGHT, GAME_HEIGHT. cbv zeta.
  change ((720 - 648) / 2) with 36.
  constructor; [cbn [call_top call_bottom]; lia|].
  constructor; [cbn [call_top call_bottom]; lia|].
  apply Forall_app. split.
  - eapply Forall_impl; [exact Hside|]. cbn beta. intros c ?. lia.
  - constructor; [cbn [call_top call_bottom]; lia | constructor].
Qed.

(** X26.  A tally without votes takes no row and leaves no gap, and
    tallies past the sixth and voters past the eighth are not shown: with
    [k] tallies with votes among the first six and [v] voters among the
    first eight, the voters' heading is drawn at [y = 155 + 32 k] and the
    last divider at [y = 195 + 32 k + 22 v]. *)
Theorem sidebar_rows (state : StreamState) (calls : list DrawCall) :
  _render_sidebar textbbox_width state = Some calls ->
  let k := Z.of_nat (length (shown_tallies state)) in
  let v := Z.of_nat (length (take 8 (recent_voters state))) in
  k <= 6 /\ v <= 8 /\
  In (Text pad_x (155 + 32 * k) "RECENT VOTERS" font_medium TEXT_SECONDARY)
    calls /\
  In (Line pad_x (195 + 32 * k + 22 * v) right_x (195 + 32 * k + 22 * v)
        BAR_BG 2) calls.
Proof.
  unfold _render_sidebar, shown_tallies.
  destruct (tally_rows (20 + 50 + 20 + 35) (take 6 (tallies state)))
    as [[y1 tally_calls]|] eqn:Ht; [|discriminate].
  destruct (tally_rows_layout _ _ _ _ Ht) as [Hy1 _].
  pose proof (filter_length_le (fun t => negb (count t =? 0))
                (take 6 (tallies state))) as Hk.
  rewrite length_take in Hk.
  pose proof (voter_rows_layout (take 8 (recent_voters state))
                (y1 + 10 + 20 + 30)) as [Hy2 _].
  destruct (voter_rows (y1 + 10 + 20 + 30) (take 8 (recent_voters state)))
    as [y2 voter_calls]. cbn [fst snd] in *.
  assert (Hv : (length (take 8 (recent_voters state)) <= 8)%nat)
    by (rewrite length_take; lia).
  intros H. injection H as <-. cbn zeta.
  split; [lia|]. split; [lia|]. split.
  - do 4 right. apply in_or_app. right. right. left. f_equal. lia.
  - do 4 right. apply in_or_app. right. do 2 right.
    apply in_or_app. right. left. f_equal; lia.
Qed.

Lemma tally_rows_succeeds (l : list VoteTally) :
  forall y : Z,
    Forall (fun t => 0 <= percentage t <= 100)
      (List.filter (fun t => negb (count t =? 0)) l) ->
    exists r, tally_rows y l = Some r.
Proof.
  induction l as [|t l IH]; intros y Hall; cbn [tally_rows].
  - eexists. reflexivity.
  - cbn [List.filter] in Hall. destruct (count t =? 0); cbn [negb] in Hall.
    + now apply IH.
    + inversion Hall as [|? ? Hp Hrest]; subst.
      rewrite (bar_width_percent_value (percentage t) Hp).
      destruct (IH (y + 32) Hrest) as [[y1 calls1] ->].
      eexists. reflexivity.
Qed.

(** X27.  [render_frame] returns a frame whenever every tally that gets
    a row has a percentage from 0 to 100: nothing [render_frame] computes
    itself raises then (the calls into PIL are taken to succeed), whatever
    the names, the counts and the number of entries. *)
Theorem render_frame_succeeds (state : StreamState) :
  Forall (fun t => 0 <= percentage t <= 100) (shown_tallies state) ->
  exists calls, render_frame textbbox_width state = Some calls.
Proof.
  intros Hall. unfold render_frame, _render_sidebar.
  destruct (tally_rows_succeeds (take 6 (tallies state)) (20 + 50 + 20 + 35)
              Hall) as [[y1 calls1] ->].
  destruct (voter_rows _ _). eexists. reflexivity.
Qed.

(** X28.  [LocalPreviewOutput.send_frame] replaces the preview file or
    leaves it alone, for every output path: when it returns false, at
    whatever point it failed, the file holds what it held before, and
    when it returns true the file holds the whole new frame. *)
Theorem preview_keeps_old (render_png : StreamState -> option (list Z))
    (state : StreamState) (f : Fs.faults)
    (o : LocalPreviewOutput.LocalPreviewOutput) (d : Fs.Disk) :
  let r := LocalPreviewOutput.send_frame render_png state f o d in
  (r.1 = false ->
     r.2 !! LocalPreviewOutput.output_path o
     = d !! LocalPreviewOutput.output_path o) /\
  (r.1 = true ->
     exists png,
       render_png state = Some png /\
       r.2 !! LocalPreviewOutput.output_path o = Some png).
Proof.
  cbn zeta. unfold LocalPreviewOutput.send_frame.
  destruct (render_png state) as [png|];
    [|split; [reflexivity | discriminate]].
  destruct (Pathlib.with_suffix (LocalPreviewOutput.output_path o) ".tmp.png")
    as [t|] eqn:Ht; [|split; [reflexivity | discriminate]].
  apply with_suffix_tmp_png_fresh in Ht.
  destruct (staged_write_dest t (LocalPreviewOutput.output_path o) png f d Ht)
    as [Hfail Hok].
  split; [exact Hfail|]. intros Hr. exists png. split; [reflexivity|].
  now apply Hok.
Qed.

End Overlay.

Lemma bar_width_in_track_witness :
  StreamCompositor.bar_width 29 = Some 81.
Proof.
  apply (proj1 (bar_width_in_track 29 ltac:(lia))).
Defined.

Lemma sidebar_above_footer_witness :
  exists calls,
    StreamCompositor.render_frame
      (fun text _ => 8 * Z.of_nat (String.length text)) busy_state
    = Some calls /\
    Forall (fun c => 0 <= call_top c /\ call_bottom c <= StreamCompositor.HEIGHT)
      calls.
Proof.
  eexists. split; [reflexivity|].
  apply (proj1 (sidebar_above_footer
                  (fun text _ => 8 * Z.of_nat (String.length text))
                  busy_state _ eq_refl)).
Defined.

Lemma sidebar_rows_witness :
  exists calls,
    StreamCompositor._render_sidebar
      (fun text _ => 8 * Z.of_nat (String.length text)) busy_state
    = Some calls /\
    In (StreamCompositor.Text StreamCompositor.pad_x 283 "RECENT VOTERS"
          StreamCompositor.font_medium StreamCompositor.TEXT_SECONDARY)
      calls.
Proof.
  eexists. split; [reflexivity|].
  apply (proj1 (proj2 (proj2
           (sidebar_rows
              (fun text _ => 8 * Z.of_nat (String.length text))
              busy_state _ eq_refl)))).
Defined.

Lemma render_frame_succeeds_witness :
  exists calls,
    StreamCompositor.render_frame
      (fun text _ => 8 * Z.of_nat (String.length text)) busy_state
    = Some calls.
Proof.
  apply render_frame_succeeds.
  unfold shown_tallies. simpl. repeat constructor; simpl; lia.
Defined.

Lemma preview_keeps_old_witness :
  let d : Fs.Disk := {[ ["preview"; "frame.png"]%string := [10; 20; 30] ]} in
  (LocalPreviewOutput.send_frame render_123 blank_state disk_full_after_two
     preview_output d).2 !! ["preview"; "frame.png"]%string
  = Some [10; 20; 30].
Proof.
  cbn zeta.
  refine (eq_trans
            (proj1 (preview_keeps_old render_123 blank_state
                      disk_full_after_two preview_output
                      {[ ["preview"; "frame.png"]%string := [10; 20; 30] ]})
               _) _).
  - reflexivity.
  - reflexivity.
Defined.

Lemma save_screenshot_keeps_old_witness :
  let d : Fs.Disk :=
    {[ ["data"; "screenshot.png"]%string := [10; 20; 30] ]} in
  (emulator.save_screenshot [1; 2; 3; 4] disk_full_after_two
     fresh_emulator d).2 !! ["data"; "screenshot.png"]%string
  = Some [10; 20; 30].
Proof.
  cbn zeta.
  refine (eq_trans
            (proj1 (save_screenshot_keeps_old [1; 2; 3; 4] disk_full_after_two
                      fresh_emulator
                      {[ ["data"; "screenshot.png"]%string := [10; 20; 30] ]})
               _) _).
  - reflexivity.
  - reflexivity.
Defined.

Lemma save_state_keeps_old_witness :
  let d : Fs.Disk := {[ ["data"; "pokemon.save"]%string := [10; 20; 30] ]} in
  (emulator.save_state [1; 2; 3; 4] disk_full_after_two 0
     fresh_emulator d).2 !! ["data"; "pokemon.save"]%string
  = Some [10; 20; 30].
Proof.
  cbn zeta.
  refine (eq_trans
            (proj1 (save_state_keeps_old [1; 2; 3; 4] disk_full_after_two 0
                      fresh_emulator
                      {[ ["data"; "pokemon.save"]%string := [10; 20; 30] ]}
                      _)
               _) _).
  - vm_compute. discriminate.
  - reflexivity.
  - reflexivity.
Defined.

Lemma session_buffer_bounded_witness :
  exists z,
    compositor.exec
      [compositor.MSendAudio (compositor.NdArray [100; 200])
         main.AUDIO_VOLUME_BOOST;
       compositor.ALoopTest; compositor.AElapsed true; compositor.ALocked]
      session_queue_full = Some z /\
    (length (compositor._audio_buffer (compositor.streamer z))
     <= compositor.max_samples)%nat.
Proof.
  eexists. split; [reflexivity|].
  apply (session_buffer_bounded
           [compositor.MSendAudio (compositor.NdArray [100; 200])
              main.AUDIO_VOLUME_BOOST;
            compositor.ALoopTest; compositor.AElapsed true; compositor.ALocked]
           session_queue_full _ eq_refl).
  apply Nat.leb_le. vm_compute. reflexivity.
Defined.

